(** * Smart Energy: charge scheduling state machine

    Shallow embedding of [homeassistant/components/smartenergy]
    ([const.py], [calculations.py], [controller.py], [state.py], and the
    string-level parts of [sensor.py], [entity.py] and [config_flow.py])
    and the properties of its consumer record builder, price ranking,
    per-tick charge scheduler, sensors and entity names.

    Modelling conventions.
    - A naive [datetime] is an integer number of microseconds since an
      arbitrary midnight; a [timedelta] is a (signed) number of
      microseconds.  Python normalises a timedelta into [days], [seconds]
      (0..86399) and [microseconds]; the projections are written out below.
    - Python [int] is [Z]; an optional value ([None] or a value) is [option].
    - Prices are integers (the test forecast uses [50 + hour]).
    - The consumer dictionary is insertion ordered and the scheduling loop
      walks it in that order, so it is an association list.
    - The per-consumer schedule attributes kept in the host state machine
      are a finite map from consumer name to slot list.
    - A coroutine either returns or raises; records and stored schedules are
      mutated in place, so what was written before a raise stays written.
    - [datetime.now()] is a parameter: one instant for the setup of a
      consumer list and one instant per tick.
    - Instants are unbounded integers.  Where the limits of [datetime]
      matter, [Bounded] gives the range, with the origin at
      [datetime.min], and the arithmetic that raises [OverflowError]
      outside it.
    - The host state machine is taken to keep a consumer's schedule state
      under the entity id the scheduler writes, one state per consumer
      name; [Host.plain_name] describes names for which it does.  What
      the host raises for other names is not modelled. *)

From stdpp Require Import base option list strings gmap sorting.
From Stdlib Require Import ZArith Lia.

#[local] Open Scope string_scope.
#[local] Open Scope Z_scope.

(** ** const.py *)

Module Const.
Definition DOMAIN_GO_E_CHARGER : string := "smartenergy_goecharger".
Definition SIMPLE : string := "simple".
Definition PRECISE : string := "precise".
(** Device status strings compared against in [state.py]. *)
Definition CAR_IS_CHARGING : string := "Car is charging".
Definition CHARGING_FINISHED : string :=
  "Charging finished, car can be disconnected".
End Const.

(** ** datetime / timedelta *)

Module Time.
Definition datetime := Z.
Definition timedelta := Z.

Definition second_us : Z := 1000000.
Definition hour_us : Z := 3600 * second_us.
Definition day_us : Z := 24 * hour_us.

(** [timedelta(hours=h)] and [timedelta(days=d)]. *)
Definition hours (h : Z) : timedelta := h * hour_us.
Definition days (d : Z) : timedelta := d * day_us.

(** [d.replace(hour=h, minute=0, second=0, microsecond=0)]: same calendar
    day, time of day reset to [h]:00:00.000000. *)
Definition replace_hour (d : datetime) (h : Z) : datetime :=
  (d `div` day_us) * day_us + h * hour_us.

(** The [seconds] component of a normalised timedelta: [delta.days] is
    the floor of the day count and [delta.seconds] what is left of the last
    day, in whole seconds (0..86399). *)
Definition td_seconds (delta : timedelta) : Z :=
  (delta `mod` day_us) `div` second_us.

(** Time of day helper used to write concrete instants:
    [at_ d h m] is day [d], [h]:[m]:00. *)
Definition at_ (d h m : Z) : datetime :=
  d * day_us + h * hour_us + m * 60 * second_us.
End Time.

(** ** Data model *)

(** One entry of the price forecast attribute ([marketprice], [start_time]);
    the start time is taken as already parsed. *)
Record forecast_entry := ForecastEntry {
  marketprice : Z;
  fe_start_time : Time.datetime;
}.

(** One selected slot: [{VALUE: price, START_TIME: start}]. *)
Record slot := Slot {
  value : Z;
  start_time : Time.datetime;
}.

#[global] Instance slot_eq_dec : EqDecision slot.
Proof. solve_decision. Defined.

(** One configured consumer, as read with [.get] in [get_consumer_config]. *)
Record consumer_conf := ConsumerConf {
  conf_name : string;
  conf_input_source : string;
  conf_output_source : string;
  conf_smart_energy_mode : option string;
  conf_hours_to_charge : option Z;
  conf_charging_time_window_hours : option Z;
}.

(** The per-consumer record ([scheduler_data]); one field per dictionary
    key. *)
Module SD.
Record t := Make {
  enabled : bool;
  input_source : string;
  output_source : string;
  smart_energy_mode : option string;
  current_schedule_start : option Time.datetime;
  current_schedule_end : option Time.datetime;
  current_cycle_hours_to_charge : option Z;
  current_cycle_charging_time_window_hours : option Z;
  current_cycle_charging_time_window_date : option Time.datetime;
  start_scheduled_charging : bool;
  charging_schedules_enabled : bool;
}.

Definition set_current_schedule_start (v : option Time.datetime) (r : t) : t :=
  Make (enabled r) (input_source r) (output_source r) (smart_energy_mode r)
       v (current_schedule_end r)
       (current_cycle_hours_to_charge r)
       (current_cycle_charging_time_window_hours r)
       (current_cycle_charging_time_window_date r)
       (start_scheduled_charging r) (charging_schedules_enabled r).

Definition set_current_schedule_end (v : option Time.datetime) (r : t) : t :=
  Make (enabled r) (input_source r) (output_source r) (smart_energy_mode r)
       (current_schedule_start r) v
       (current_cycle_hours_to_charge r)
       (current_cycle_charging_time_window_hours r)
       (current_cycle_charging_time_window_date r)
       (start_scheduled_charging r) (charging_schedules_enabled r).

Definition set_start_scheduled_charging (v : bool) (r : t) : t :=
  Make (enabled r) (input_source r) (output_source r) (smart_energy_mode r)
       (current_schedule_start r) (current_schedule_end r)
       (current_cycle_hours_to_charge r)
       (current_cycle_charging_time_window_hours r)
       (current_cycle_charging_time_window_date r)
       v (charging_schedules_enabled r).
End SD.

(** ** calculations.py *)

Module Calculations.
Import Time.

(** [smart_energy_mode == SIMPLE] on an optional string. *)
Definition is_simple (smart_energy_mode : option string) : bool :=
  match smart_energy_mode with
  | Some m => String.eqb m Const.SIMPLE
  | None => false
  end.

(** [calculate_next_time_window]; [now] is the [datetime.now()] read at
    entry.  [not charging_time_window_hours] holds for [None] and 0. *)
Definition calculate_next_time_window
    (now : datetime) (smart_energy_mode : option string)
    (charging_time_window_hours : option Z) : option datetime :=
  if is_simple smart_energy_mode then
    Some (replace_hour now 7 + days 1)
  else
    match charging_time_window_hours with
    | None => None
    | Some w => if (w =? 0)%Z then None else Some (now + hours w)
    end.

(** [calculate_time_window_hours]: [int(delta.seconds / 3_600)].  The
    quotient of an integer in 0..86399 by 3600 is truncated by [int], which
    is the integer quotient. *)
Definition calculate_time_window_hours
    (now : datetime) (next_time_window : option datetime) : option Z :=
  match next_time_window with
  | None => None
  | Some d => Some (td_seconds (d - now) `div` 3600)
  end.

(** The record built for one configured consumer (the dictionary literal
    of [get_consumer_config]).  The two clock reads of the loop body are
    [now] (in [calculate_next_time_window]) and [now'] (in
    [calculate_time_window_hours]). *)
Definition consumer_record (now now' : datetime) (c : consumer_conf) : SD.t :=
  let smart_energy_mode := conf_smart_energy_mode c in
  let next_time_window :=
    calculate_next_time_window now smart_energy_mode
      (conf_charging_time_window_hours c) in
  {| SD.enabled := true;
     SD.input_source := conf_input_source c;
     SD.output_source := conf_output_source c;
     SD.smart_energy_mode := smart_energy_mode;
     SD.current_schedule_start := None;
     SD.current_schedule_end := None;
     SD.current_cycle_hours_to_charge :=
       if is_simple smart_energy_mode then Some 4 else conf_hours_to_charge c;
     SD.current_cycle_charging_time_window_hours :=
       if is_simple smart_energy_mode
       then calculate_time_window_hours now' next_time_window
       else conf_charging_time_window_hours c;
     SD.current_cycle_charging_time_window_date := next_time_window;
     SD.start_scheduled_charging := false;
     SD.charging_schedules_enabled := true |}.

(** [consumers[name] = v] on an insertion-ordered dictionary: an existing
    key keeps its position and gets the new value, a new key goes last. *)
Fixpoint dict_set {V} (k : string) (v : V) (d : list (string * V))
    : list (string * V) :=
  match d with
  | [] => [(k, v)]
  | (k', v') :: d' =>
      if String.eqb k' k then (k', v) :: d' else (k', v') :: dict_set k v d'
  end.

(** [get_consumer_config]: every consumer of the list is built at the same
    instant [now]. *)
Definition get_consumer_config (now : datetime)
    (configured_consumers : list consumer_conf) : list (string * SD.t) :=
  foldl (fun consumers c => dict_set (conf_name c) (consumer_record now now c) consumers)
        [] configured_consumers.
End Calculations.

(** ** Effects: in-place state with exceptions *)

(** What a coroutine can raise on the paths modelled here: a comparison or
    subtraction with [None] ([TypeError]), [schedules[0]] on an empty list
    ([IndexError]), and an awaited service call that fails
    ([ServiceError]). *)
Inductive exn := TypeError | IndexError | ServiceError.

Inductive res (A : Type) :=
| Ok (a : A)
| Raise (e : exn).
Arguments Ok {A} a.
Arguments Raise {A} e.

Inductive command := StartCharging | StopCharging.

(** One call into the charge controller ([controller.start_charging] or
    [controller.stop_charging]) with its [output_type] and
    [{"device_name": consumer}]. *)
Record call := Call {
  call_command : command;
  call_output_type : string;
  call_device_name : string;
}.

#[global] Instance command_eq_dec : EqDecision command.
Proof. solve_decision. Defined.
#[global] Instance call_eq_dec : EqDecision call.
Proof. solve_decision. Defined.

(** What the scheduler reads during one tick and cannot change: the clock,
    the device status sensors, the forecast sensor ([None] when the sensor
    or its [forecast] attribute is missing) and, for every service call,
    whether it returns ([true]) or raises ([false]). *)
Record env := Env {
  now : Time.datetime;
  car_states : gmap string string;
  forecast : option (list forecast_entry);
  service_returns : command -> string -> bool;
}.

(** What one consumer's processing reads and writes: its own record, the
    stored schedules, and the controller calls made so far (oldest first). *)
Record st := St {
  rec : SD.t;
  store : gmap string (list slot);
  calls : list call;
}.

Definition M (A : Type) : Type := st -> st * res A.

Definition ret {A} (a : A) : M A := fun s => (s, Ok a).
Definition raise {A} (e : exn) : M A := fun s => (s, Raise e).
Definition bind {A B} (c : M A) (k : A -> M B) : M B :=
  fun s => match c s with
           | (s', Ok a) => k a s'
           | (s', Raise e) => (s', Raise e)
           end.
Definition lift {A} (r : res A) : M A := fun s => (s, r).

Notation "'do' x <- c ; k" := (bind c (fun x => k))
  (at level 10, x name, c at level 100, k at level 200).
Notation "c ;; k" := (bind c (fun _ => k))
  (at level 100, k at level 200, right associativity).

Definition read_rec : M SD.t := fun s => (s, Ok (rec s)).
Definition update_rec (f : SD.t -> SD.t) : M unit :=
  fun s => (St (f (rec s)) (store s) (calls s), Ok tt).
Definition record_call (c : call) : M unit :=
  fun s => (St (rec s) (store s) (calls s ++ [c]), Ok tt).

(** ** controller.py *)

Module Controller.
(** How a controller call ends: the service was called and returned, the
    output type is not supported (an error is logged, no service is
    called, the call returns), or the service call raised. *)
Inductive outcome := Delivered | Unsupported | Raised.

Definition GO_E : string := "smartenergy_goecharger".

(** The [match output_type] of [start_charging] and [stop_charging]. *)
Definition dispatch (e : env) (c : command) (output_type device : string)
    : outcome :=
  if String.eqb output_type GO_E then
    if service_returns e c device then Delivered else Raised
  else Unsupported.

Definition charging (e : env) (c : command) (output_type device : string)
    : M unit :=
  record_call (Call c output_type device) ;;
  match dispatch e c output_type device with
  | Raised => raise ServiceError
  | Delivered | Unsupported => ret tt
  end.

Definition start_charging (e : env) (output_type device : string) : M unit :=
  charging e StartCharging output_type device.

Definition stop_charging (e : env) (output_type device : string) : M unit :=
  charging e StopCharging output_type device.
End Controller.

(** ** state.py *)

Module StateFetcher.
Import Time.

(** Tuple order of [itemgetter(VALUE, START_TIME)]: price first, start
    time on equal price. *)
Definition key_le (a b : slot) : Prop :=
  value a < value b \/ (value a = value b /\ start_time a <= start_time b).

#[global] Instance key_le_dec : RelDecision key_le.
Proof. intros a b. unfold key_le. apply _. Defined.

(** [sorted(forecast_data, key=itemgetter(VALUE, START_TIME))]. *)
Definition sorted (l : list slot) : list slot := merge_sort key_le l.

(** The loop of [find_forecast_dates] over a forecast whose deadline is a
    datetime: keep, in order, the entries with [start_time <= end_date]. *)
Fixpoint forecast_data (end_date : datetime) (entries : list forecast_entry)
    : list slot :=
  match entries with
  | [] => []
  | price :: entries' =>
      if fe_start_time price <=? end_date
      then Slot (marketprice price) (fe_start_time price)
             :: forecast_data end_date entries'
      else forecast_data end_date entries'
  end.

(** [find_forecast_dates].  With [end_date = None] the first comparison
    [start_time <= end_date] raises [TypeError]. *)
Definition find_forecast_dates (e : env) (end_date : option datetime)
    : res (list slot) :=
  match forecast e with
  | None => Ok []
  | Some entries =>
      match end_date with
      | Some d => Ok (sorted (forecast_data d entries))
      | None =>
          match entries with
          | [] => Ok []
          | _ :: _ => Raise TypeError
          end
      end
  end.

(** [l[0:stop:]]: [None] keeps everything, a negative stop counts from
    the end. *)
Definition slice_to (l : list slot) (stop : option Z) : list slot :=
  match stop with
  | None => l
  | Some k =>
      if 0 <=? k then take (Z.to_nat k) l
      else take (Z.to_nat (Z.of_nat (length l) + k)) l
  end.

Definition get_schedules (consumer_name : string) : M (list slot) :=
  fun s => (s, Ok (default [] (store s !! consumer_name))).

Definition set_schedules (schedules : list slot) (consumer_name : string)
    : M unit :=
  fun s => (St (rec s) (<[consumer_name := schedules]> (store s)) (calls s),
            Ok tt).

(** Python [schedules == []]. *)
Definition is_empty (l : list slot) : bool :=
  match l with [] => true | _ :: _ => false end.

Definition calculate_next_schedules (e : env) (car_status : string)
    (consumer_name : string) : M (list slot) :=
  do scheduler_data <- read_rec;
  let start_scheduled_charging := SD.start_scheduled_charging scheduler_data in
  let current_cycle_hours_to_charge :=
    SD.current_cycle_hours_to_charge scheduler_data in
  let current_cycle_charging_time_window_date :=
    SD.current_cycle_charging_time_window_date scheduler_data in
  do schedules <- get_schedules consumer_name;
  if (negb (String.eqb car_status Const.CAR_IS_CHARGING)
      && negb start_scheduled_charging)
     || is_empty schedules
  then
    do forecast_time_range <-
      lift (find_forecast_dates e current_cycle_charging_time_window_date);
    let forecast_portion :=
      slice_to forecast_time_range current_cycle_hours_to_charge in
    set_schedules forecast_portion consumer_name ;;
    ret forecast_portion
  else ret schedules.

Definition start_scheduled_charging (e : env) (consumer : string)
    (schedules : list slot) : M unit :=
  match schedules with
  | [] => raise IndexError
  | first :: rest =>
      update_rec (SD.set_current_schedule_start (Some (start_time first))) ;;
      update_rec (SD.set_current_schedule_end
                    (Some (start_time first + hours 1))) ;;
      set_schedules rest consumer ;;
      do scheduler_data <- read_rec;
      Controller.start_charging e (SD.output_source scheduler_data) consumer ;;
      update_rec (SD.set_start_scheduled_charging false)
  end.

Definition stop_scheduled_charging (e : env) (consumer : string) : M unit :=
  do scheduler_data <- read_rec;
  Controller.stop_charging e (SD.output_source scheduler_data) consumer ;;
  update_rec (SD.set_start_scheduled_charging true).

Definition reset_current_schedule : M unit :=
  update_rec (SD.set_current_schedule_start None) ;;
  update_rec (SD.set_current_schedule_end None).

Definition try_to_start_charging (e : env) (car_status : string)
    (consumer : string) (schedules : list slot) : M unit :=
  if String.eqb car_status Const.CHARGING_FINISHED then
    let current_time := now e in
    match schedules with
    | [] => raise IndexError
    | first :: _ =>
        let end_time := start_time first + hours 1 in
        if (current_time <? end_time) && (start_time first <? current_time)
        then start_scheduled_charging e consumer schedules
        else ret tt
    end
  else update_rec (SD.set_start_scheduled_charging false).

Definition reset_or_continue_charging (e : env) (consumer : string) : M unit :=
  let current_time := now e in
  do scheduler_data <- read_rec;
  match SD.current_schedule_end scheduler_data with
  | None => raise TypeError
  | Some current_schedule_end =>
      if current_schedule_end <? current_time then
        stop_scheduled_charging e consumer ;;
        reset_current_schedule
      else ret tt
  end.

(** How one pass through the body of the [for] loop ends. *)
Inductive signal := Next | Break.

(** Python [x is None]. *)
Definition is_None {A} (o : option A) : bool :=
  match o with None => true | Some _ => false end.

(** [car_state.state if car_state else ""] for the status sensor of a
    consumer. *)
Definition car_status_of (e : env) (consumer : string) : string :=
  default "" (car_states e !! consumer).

(** The body of the [for consumer in data[CONF_CONSUMERS]] loop of
    [fetch_states]. *)
Definition process_consumer (e : env) (consumer : string) : M signal :=
  do scheduler_data <- read_rec;
  if SD.enabled scheduler_data && SD.charging_schedules_enabled scheduler_data
  then
    let start_scheduled_charging_flag :=
      SD.start_scheduled_charging scheduler_data in
    let car_status := car_status_of e consumer in
    do schedules <- calculate_next_schedules e car_status consumer;
    if is_empty schedules then ret Break
    else
      (if start_scheduled_charging_flag then
         try_to_start_charging e car_status consumer schedules
       else if String.eqb car_status Const.CAR_IS_CHARGING then
         do scheduler_data <- read_rec;
         if is_None (SD.current_schedule_start scheduler_data)
            || is_None (SD.current_schedule_end scheduler_data)
         then stop_scheduled_charging e consumer
         else reset_or_continue_charging e consumer
       else
         do scheduler_data <- read_rec;
         if negb (is_None (SD.current_schedule_start scheduler_data))
            || negb (is_None (SD.current_schedule_end scheduler_data))
         then
           Controller.stop_charging e (SD.output_source scheduler_data)
             consumer ;;
           reset_current_schedule
         else ret tt) ;;
      ret Next
  else ret Next.

(** The coordinator data and the host state the scheduler writes to. *)
Record world := World {
  consumers : list (string * SD.t);
  schedules_store : gmap string (list slot);
  issued : list call;
}.

(** The [for] loop over the consumers still to visit: [Next] goes on with
    the following consumer, [Break] leaves the loop, a raise leaves the
    coroutine.  The record of the consumer just processed is kept as it
    was left in every case. *)
Fixpoint loop (e : env) (todo : list (string * SD.t))
    (sto : gmap string (list slot)) (cs : list call) : world * res unit :=
  match todo with
  | [] => (World [] sto cs, Ok tt)
  | (consumer, scheduler_data) :: todo' =>
      match process_consumer e consumer (St scheduler_data sto cs) with
      | (s, Ok Next) =>
          let '(w, r) := loop e todo' (store s) (calls s) in
          (World ((consumer, rec s) :: consumers w)
                 (schedules_store w) (issued w), r)
      | (s, Ok Break) =>
          (World ((consumer, rec s) :: todo') (store s) (calls s), Ok tt)
      | (s, Raise x) =>
          (World ((consumer, rec s) :: todo') (store s) (calls s), Raise x)
      end
  end.

(** [fetch_states]: one tick. *)
Definition fetch_states (e : env) (w : world) : world * res unit :=
  loop e (consumers w) (schedules_store w) (issued w).
End StateFetcher.

(** ** Vocabulary of the specification *)

Module Spec.
Import Time StateFetcher.

Definition to_slot (p : forecast_entry) : slot :=
  Slot (marketprice p) (fe_start_time p).

(** The eligible entries of the forecast for a deadline, in forecast
    order; an unavailable forecast has none. *)
Definition eligible (e : env) (deadline : datetime) : list forecast_entry :=
  match forecast e with
  | None => []
  | Some entries => filter (fun p => fe_start_time p <= deadline) entries
  end.

(** Slot selection: [find_forecast_dates] followed by the quota slice of
    [calculate_next_schedules]. *)
Definition selection (e : env) (end_date : option datetime)
    (quota : option Z) : res (list slot) :=
  match find_forecast_dates e end_date with
  | Ok forecast_time_range => Ok (slice_to forecast_time_range quota)
  | Raise x => Raise x
  end.

(** The condition under which [calculate_next_schedules] replaces the
    stored sequence. *)
Definition refreshes (car_status : string) (scheduler_data : SD.t)
    (stored : list slot) : bool :=
  (negb (String.eqb car_status Const.CAR_IS_CHARGING)
   && negb (SD.start_scheduled_charging scheduler_data))
  || is_empty stored.

(** The next occurrence of 07:00 strictly after an instant. *)
Definition next_7am_after (t : datetime) : datetime :=
  if t <? replace_hour t 7 then replace_hour t 7
  else replace_hour t 7 + days 1.

(** A duration truncated to whole hours. *)
Definition whole_hours (delta : timedelta) : Z := delta ÷ hour_us.

(** The record invariant: the active slot bounds are set and cleared
    together, and a pending start has no active slot. *)
Definition bounds_paired (r : SD.t) : Prop :=
  SD.current_schedule_start r = None <-> SD.current_schedule_end r = None.
Definition pending_has_no_slot (r : SD.t) : Prop :=
  SD.start_scheduled_charging r = true ->
  SD.current_schedule_start r = None /\ SD.current_schedule_end r = None.
Definition invariant (r : SD.t) : Prop :=
  bounds_paired r /\ pending_has_no_slot r.

(** The record with the hour of [first] as its active slot, and the record
    with no active slot. *)
Definition with_slot (first : slot) (r : SD.t) : SD.t :=
  SD.set_current_schedule_end (Some (start_time first + hours 1))
    (SD.set_current_schedule_start (Some (start_time first)) r).
Definition without_slot (r : SD.t) : SD.t :=
  SD.set_current_schedule_end None (SD.set_current_schedule_start None r).

(** Whether a controller call came back to the scheduler. *)
Definition returned (o : Controller.outcome) : Prop := o <> Controller.Raised.

(** How a consumer's processing ends after its one controller call: in
    the [intended] state when the call returns, delivered or not, and in
    the state reached [so_far] with the exception when it raises. *)
Definition after_command (o : Controller.outcome) (intended so_far : st)
    : st * res StateFetcher.signal :=
  match o with
  | Controller.Raised => (so_far, Raise ServiceError)
  | Controller.Delivered | Controller.Unsupported => (intended, Ok Next)
  end.

(** Every record of the coordinator data satisfies a property. *)
Definition all_records (P : SD.t -> Prop) (w : world) : Prop :=
  Forall (fun kv : string * SD.t => P kv.2) (consumers w).
End Spec.

(** ** Sample configurations, forecasts and environments *)

Module Sample.
Import Time StateFetcher.

(** Hourly forecast for the first [n] hours of day 0, priced [50 + hour]. *)
Definition hourly (n : nat) : list forecast_entry :=
  (fun h => ForecastEntry (50 + Z.of_nat h) (at_ 0 (Z.of_nat h) 0)) <$> seq 0 n.

Definition simple_conf (name : string) : consumer_conf :=
  ConsumerConf name "smartenergy_awattar" Const.DOMAIN_GO_E_CHARGER
               (Some Const.SIMPLE) None None.

Definition precise_conf (name : string) (hours_to_charge window : option Z)
    : consumer_conf :=
  ConsumerConf name "smartenergy_awattar" Const.DOMAIN_GO_E_CHARGER
               (Some Const.PRECISE) hours_to_charge window.

Definition always_returns : command -> string -> bool := fun _ _ => true.
Definition start_raises : command -> string -> bool :=
  fun c _ => match c with StartCharging => false | StopCharging => true end.
Definition stop_raises : command -> string -> bool :=
  fun c _ => match c with StartCharging => true | StopCharging => false end.

(** Day 0, 00:30, six forecast hours, no device sensor. *)
Definition env_night : env :=
  Env (at_ 0 0 30) ∅ (Some (hourly 6)) always_returns.

(** One SIMPLE consumer, "wallbox", set up at 00:30 of day 0; the same
    record with a pending start; the same record with the slot
    01:00-02:00 active. *)
Definition built : SD.t :=
  Calculations.consumer_record (at_ 0 0 30) (at_ 0 0 30) (simple_conf "wallbox").
Definition awaiting : SD.t := SD.set_start_scheduled_charging true built.
Definition active : SD.t :=
  SD.set_current_schedule_end (Some (at_ 0 2 0))
    (SD.set_current_schedule_start (Some (at_ 0 1 0)) built).

Definition two_slots : list slot :=
  [Slot 51 (at_ 0 1 0); Slot 52 (at_ 0 2 0)].
Definition stored : gmap string (list slot) := {["wallbox" := two_slots]}.

(** The environment in which the wallbox sensor reports [status]. *)
Definition env_at (t : datetime) (status : string)
    (fc : option (list forecast_entry)) (svc : command -> string -> bool) : env :=
  Env t {["wallbox" := status]} fc svc.

(** The coordinator data right after the setup of the wallbox alone, and
    two ticks: the device is found charging at 00:30; at 00:40 it is READY
    and the start call raises. *)
Definition world0 : world :=
  World (Calculations.get_consumer_config (at_ 0 0 30) [simple_conf "wallbox"])
        ∅ [].
Definition world1 : world :=
  (fetch_states
     (env_at (at_ 0 0 30) Const.CAR_IS_CHARGING (Some (hourly 6)) always_returns)
     world0).1.
Definition world2 : world :=
  (fetch_states
     (env_at (at_ 0 0 40) Const.CHARGING_FINISHED (Some (hourly 6)) start_raises)
     world1).1.
(** A third tick, at 00:50: the device is READY, every service call
    returns, and the head of the stored sequence is the slot of 01:00. *)
Definition world3 : world :=
  (fetch_states
     (env_at (at_ 0 0 50) Const.CHARGING_FINISHED (Some (hourly 6))
        always_returns)
     world2).1.

(** Two consumers set up together: a PRECISE "heater" with
    [hours_to_charge = 0], then the SIMPLE wallbox; the wallbox is charging,
    the heater has no status sensor. *)
Definition two_consumers : list (string * SD.t) :=
  Calculations.get_consumer_config (at_ 0 0 30)
    [precise_conf "heater" (Some 0) (Some 5); simple_conf "wallbox"].
Definition heater : SD.t :=
  Calculations.consumer_record (at_ 0 0 30) (at_ 0 0 30)
    (precise_conf "heater" (Some 0) (Some 5)).
Definition env_two : env :=
  env_at (at_ 0 0 30) Const.CAR_IS_CHARGING (Some (hourly 6)) always_returns.

(** The wallbox bound to an output integration the controller does not
    know, waiting to start. *)
Definition awaiting_unsupported : SD.t :=
  SD.set_start_scheduled_charging true
    (Calculations.consumer_record (at_ 0 0 30) (at_ 0 0 30)
       (ConsumerConf "wallbox" "smartenergy_awattar" "other_charger"
                     (Some Const.SIMPLE) None None)).
End Sample.

(** ** state.py: the consumer dictionary of the main coordinator *)

Module MainState.
Import Time Calculations.

(** [k in d]. *)
Definition dict_contains {V} (k : string) (d : list (string * V)) : bool :=
  existsb (fun kv => String.eqb kv.1 k) d.

(** [d.get(k)]: the value stored under the key, if any. *)
Fixpoint dict_get {V} (k : string) (d : list (string * V)) : option V :=
  match d with
  | [] => None
  | (k', v) :: d' => if String.eqb k' k then Some v else dict_get k d'
  end.

(** The loop of [add_to_main_state]: a consumer whose name is not yet in
    the coordinator data is added with [d | {name: value}], which puts it
    last; a consumer already there is left alone. *)
Definition add_missing (consumers main_state_data : list (string * SD.t))
    : list (string * SD.t) :=
  foldl (fun (main : list (string * SD.t)) kv =>
           if dict_contains kv.1 main then main else (main ++ [kv])%list)
        main_state_data consumers.

(** [add_to_main_state]; [now] is the clock read by
    [get_consumer_config]. *)
Definition add_to_main_state (now : datetime)
    (configured_consumer : list consumer_conf)
    (main_state_data : list (string * SD.t)) : list (string * SD.t) :=
  add_missing (get_consumer_config now configured_consumer) main_state_data.

(** [remove_from_main_state]: the dictionary comprehension keeps, in
    order, the keys different from [consumer_name]. *)
Definition remove_from_main_state (consumer_name : string)
    (main_state_data : list (string * SD.t)) : list (string * SD.t) :=
  filter (fun kv => kv.1 <> consumer_name) main_state_data.
End MainState.

(** ** The coordinator over several update intervals *)

Module Run.
Import StateFetcher.

(** The coordinator calls [fetch_states] once per update interval, with
    the environment of that instant, on the data the previous call left
    (whether it returned or raised). *)
Definition ticks (es : list env) (w : world) : world :=
  foldl (fun w e => (fetch_states e w).1) w es.

(** The stored sequence of a consumer, as [get_schedules] reads it. *)
Definition stored_of (consumer : string) (sto : gmap string (list slot))
    : list slot :=
  default [] (sto !! consumer).

(** Every stored sequence is in consumption order. *)
Definition all_stored_sorted (sto : gmap string (list slot)) : Prop :=
  forall k : string, StronglySorted key_le (stored_of k sto).

(** The fields of a record that come from the configuration. *)
Definition config_of (r : SD.t)
    : bool * string * string * option string
      * option Z * option Z * option Time.datetime * bool :=
  (SD.enabled r, SD.input_source r, SD.output_source r,
   SD.smart_energy_mode r, SD.current_cycle_hours_to_charge r,
   SD.current_cycle_charging_time_window_hours r,
   SD.current_cycle_charging_time_window_date r,
   SD.charging_schedules_enabled r).
End Run.

(** ** Python strings *)

Module Py.
(** [s.replace(old, new)] for a non-empty [old]: scanning from the left,
    every occurrence of [old] that does not overlap an earlier one is
    replaced by [new]; what is inserted is not scanned again.  [skip]
    counts the characters of the current occurrence still to pass. *)
Fixpoint replace_from (old new : string) (skip : nat) (s : string) : string :=
  match s with
  | EmptyString => EmptyString
  | String a s' =>
      match skip with
      | S k => replace_from old new k s'
      | O =>
          if String.prefix old s
          then new +:+ replace_from old new (String.length old - 1) s'
          else String a (replace_from old new 0 s')
      end
  end.

(** With an empty [old], [new] goes before every character and at the
    end. *)
Fixpoint interleave (new s : string) : string :=
  match s with
  | EmptyString => new
  | String a s' => new +:+ String a (interleave new s')
  end.

Definition replace (old new s : string) : string :=
  match old with
  | EmptyString => interleave new s
  | String _ _ => replace_from old new 0 s
  end.

(** [old in s], as a proposition and as the test Python evaluates. *)
Definition occurs (old s : string) : Prop :=
  exists p q : string, s = p +:+ old +:+ q.

Fixpoint contains (old s : string) : bool :=
  String.prefix old s ||
  match s with
  | EmptyString => false
  | String _ s' => contains old s'
  end.

(** The prefixes and the substrings of a string, listed; used to check a
    property of all the substrings of a constant. *)
Fixpoint prefixes (s : string) : list string :=
  EmptyString ::
  match s with
  | EmptyString => []
  | String a s' => String a <$> prefixes s'
  end.

Fixpoint substrings (s : string) : list string :=
  prefixes s ++
  match s with
  | EmptyString => []
  | String _ s' => substrings s'
  end.
End Py.

(** ** sensor.py and entity.py: sensor entities of a consumer *)

Module Sensor.
Import Time MainState.

(** A value read from a consumer record. *)
Inductive value :=
| VBool (b : bool)
| VStr (s : string)
| VOptStr (o : option string)
| VOptInt (o : option Z)
| VOptDate (o : option datetime)
| VDict (charging_schedules_enabled : bool).

(** [scheduler_data[key]], [None] standing for [KeyError]; the keys are
    those of the dictionary literal of [get_consumer_config]. *)
Definition record_item (key : string) (r : SD.t) : option value :=
  if String.eqb key "enabled" then Some (VBool (SD.enabled r))
  else if String.eqb key "input_source" then Some (VStr (SD.input_source r))
  else if String.eqb key "output_source" then Some (VStr (SD.output_source r))
  else if String.eqb key "smart_energy_mode"
  then Some (VOptStr (SD.smart_energy_mode r))
  else if String.eqb key "current_schedule_start"
  then Some (VOptDate (SD.current_schedule_start r))
  else if String.eqb key "current_schedule_end"
  then Some (VOptDate (SD.current_schedule_end r))
  else if String.eqb key "current_cycle_hours_to_charge"
  then Some (VOptInt (SD.current_cycle_hours_to_charge r))
  else if String.eqb key "current_cycle_charging_time_window_hours"
  then Some (VOptInt (SD.current_cycle_charging_time_window_hours r))
  else if String.eqb key "current_cycle_charging_time_window_date"
  then Some (VOptDate (SD.current_cycle_charging_time_window_date r))
  else if String.eqb key "start_scheduled_charging"
  then Some (VBool (SD.start_scheduled_charging r))
  else if String.eqb key "charging_schedules"
  then Some (VDict (SD.charging_schedules_enabled r))
  else None.

(** [SCHEDULER_SENSORS]: id and type of each sensor of a consumer. *)
Definition SCHEDULER_SENSORS : list (string * string) :=
  [("current_schedule_start", "date");
   ("current_schedule_end", "date");
   ("current_cycle_hours_to_charge", "text");
   ("current_cycle_charging_time_window_date", "date");
   ("smart_energy_mode", "text");
   ("input_source", "text");
   ("output_source", "text")].

(** [_generate_scheduler_sensors]: the ids prefixed with the consumer
    name. *)
Definition _generate_scheduler_sensors (consumer_name : string)
    (scheduler_sensors : list (string * string)) : list (string * string) :=
  (fun scheduler_sensor : string * string =>
     (consumer_name +:+ "_" +:+ scheduler_sensor.1, scheduler_sensor.2))
    <$> scheduler_sensors.

(** What [_setup_sensors] passes to [SchedulerSensor] that is a string
    built here: the entity id, the attribute and the consumer name. *)
Record scheduler_sensor := SchedulerSensor {
  entity_id : string;
  attribute : string;
  consumer_name_of : string;
}.

(** [_setup_sensors] over the configuration built by
    [_generate_scheduler_sensors_config], whose ["sensors"] list holds the
    ids of the base sensors in order: one sensor per id, with entity id
    [f"{SENSOR_DOMAIN}.{DOMAIN}_{sensor}"]. *)
Definition _setup_sensors (base_sensors : list (string * string))
    (consumer_name : string) : list scheduler_sensor :=
  (fun base_sensor : string * string =>
     SchedulerSensor ("sensor" +:+ "." +:+ "smartenergy" +:+ "_" +:+ base_sensor.1)
                     base_sensor.1 consumer_name)
    <$> base_sensors.

(** [setup_entities]: the sensors added for the consumers of a
    dictionary, consumer by consumer. *)
Definition setup_entities (consumers : list (string * SD.t))
    : list (list scheduler_sensor) :=
  (fun kv : string * SD.t =>
     _setup_sensors (_generate_scheduler_sensors kv.1 SCHEDULER_SENSORS) kv.1)
    <$> consumers.

(** [SchedulerSensor.native_value]: the attribute with every
    [consumer_name + "_"] removed is looked up in the consumer's record of
    the coordinator data; a missing consumer or key is a [KeyError]
    ([None]). *)
Definition native_value (s : scheduler_sensor)
    (data : list (string * SD.t)) : option value :=
  let attr_name_without_prefix :=
    Py.replace (consumer_name_of s +:+ "_") "" (attribute s) in
  match dict_get (consumer_name_of s) data with
  | Some r => record_item attr_name_without_prefix r
  | None => None
  end.

(** [SchedulerSensor.unique_id]. *)
Definition unique_id (s : scheduler_sensor) : string :=
  entity_id s +:+ "_" +:+ attribute s.

(** entity.py: [ENTITY_NAMES] and the names
    [remove_entities_and_devices] asks the entity registry to remove. *)
Definition CONSUMER_PLACEHOLDER_NAME : string := "CONSUMER_NAME".

Definition ENTITY_NAMES : list string :=
  (fun suffix : string =>
     "sensor" +:+ "." +:+ "smartenergy" +:+ "_" +:+ CONSUMER_PLACEHOLDER_NAME
     +:+ "_" +:+ suffix)
    <$> ["current_schedule_start"; "current_schedule_end";
         "smart_energy_mode"; "input_source"; "output_source"].

Definition removed_entity_names (consumer_name : string) : list string :=
  (fun entity_name : string =>
     Py.replace CONSUMER_PLACEHOLDER_NAME consumer_name entity_name)
    <$> ENTITY_NAMES.
End Sensor.

(** ** entity.py and config_flow.py: consumer names offered in the form *)

Module Entity.
Import Calculations MainState.

(** A character of the class [[A-Za-z0-9-]]. *)
Definition name_char (a : Ascii.ascii) : bool :=
  let n := Ascii.nat_of_ascii a in
  (Nat.leb 65 n && Nat.leb n 90) || (Nat.leb 97 n && Nat.leb n 122)
  || (Nat.leb 48 n && Nat.leb n 57) || Nat.eqb n 45.

Definition newline : Ascii.ascii := Ascii.ascii_of_nat 10.

Definition underscore : Ascii.ascii := Ascii.ascii_of_nat 95.

Fixpoint all_chars (f : Ascii.ascii -> bool) (s : string) : bool :=
  match s with
  | EmptyString => true
  | String a s' => f a && all_chars f s'
  end.

(** An integration name in which every character stands for itself in a
    regular expression; the values of [OutputTypes] are such. *)
Definition literal (integration : string) : bool :=
  all_chars (fun a => name_char a || Ascii.eqb a underscore) integration.

(** The longest run of class characters at the front: what the greedy
    [[A-Za-z0-9-]+] takes. *)
Fixpoint name_run (s : string) : string :=
  match s with
  | EmptyString => EmptyString
  | String a s' => if name_char a then String a (name_run s') else EmptyString
  end.

(** [s] without the literal [p] at its front, when it is there. *)
Fixpoint strip_prefix (p s : string) : option string :=
  match p, s with
  | EmptyString, _ => Some s
  | String a p', String b s' =>
      if Ascii.eqb a b then strip_prefix p' s' else None
  | String _ _, EmptyString => None
  end.

(** [{integration}_([A-Za-z0-9-]+)] matched at the front of [s]: the
    group. *)
Definition match_here (integration s : string) : option string :=
  match strip_prefix (integration +:+ "_") s with
  | Some rest =>
      match name_run rest with
      | EmptyString => None
      | String a g => Some (String a g)
      end
  | None => None
  end.

(** [re.match(f".*{integration}_([A-Za-z0-9-]+)", entity)] and
    [match.groups()[0]], for a literal integration name.  The greedy [.*]
    takes every character up to the first newline and gives them back one
    by one, so the rest of the pattern is tried at the positions up to
    the first newline, the last one first. *)
Fixpoint re_match (integration entity : string) : option string :=
  match entity with
  | EmptyString => match_here integration EmptyString
  | String a s' =>
      match (if Ascii.eqb a newline then None else re_match integration s')
      with
      | Some g => Some g
      | None => match_here integration entity
      end
  end.

(** [_get_entity_names] over the entity ids of the registry, in order. *)
Definition _get_entity_names (entities : list string) (integration : string)
    : list string :=
  foldl (fun (matched_entities : list string) (entity : string) =>
           match re_match integration entity with
           | Some match_group =>
               if bool_decide (match_group ∈ matched_entities)
               then matched_entities
               else (matched_entities ++ [match_group])%list
           | None => matched_entities
           end)
        [] entities.

(** [filter_entities_by_integration]; [integrations] holds the [value]
    of each registered integration.  The list stored under an integration
    is the one accumulated so far. *)
Definition filter_entities_by_integration (entities integrations : list string)
    : list (string * list string) * list string :=
  foldl (fun (acc : list (string * list string) * list string)
             (registered_output_integration : string) =>
           let normalized_entity_names :=
             (acc.2 ++ _get_entity_names entities
                         registered_output_integration)%list in
           (dict_set registered_output_integration normalized_entity_names
              acc.1,
            normalized_entity_names))
        ([], []) integrations.

(** config_flow.py, [extend_user_input_with_meta]: the key of the first
    item of the map whose list holds the chosen output source, [None]
    when there is none. *)
Fixpoint integration_name (output_source : string)
    (integration_sensor_map : list (string * list string)) : option string :=
  match integration_sensor_map with
  | [] => None
  | (key, value) :: rest =>
      if bool_decide (output_source ∈ value) then Some key
      else integration_name output_source rest
  end.

(** The form data: the three required fields. *)
Record user_input := UserInput {
  ui_input_source : string;
  ui_output_source : string;
  ui_smart_energy_mode : string;
}.

(** The form data extended with [output_source_integration]. *)
Record entry_data := EntryData {
  entry_input : user_input;
  output_source_integration : option string;
}.

Definition extend_user_input_with_meta (input : user_input)
    (integration_sensor_map : list (string * list string)) : entry_data :=
  EntryData input
    (integration_name (ui_output_source input) integration_sensor_map).

End Entity.

(** ** The range of [datetime] and [timedelta] *)

Module Bounded.
Import Time Calculations.

(** With the origin at [datetime.min] (0001-01-01 00:00:00), a
    [datetime] holds the microseconds of the 3652059 days that end with
    [datetime.max] (9999-12-31 23:59:59.999999). *)
Definition MAX_DAYS : Z := 3652059.

Definition representable (t : datetime) : bool :=
  (0 <=? t) && (t <? MAX_DAYS * day_us).

(** A [timedelta] holds between -999999999 and 999999999 whole days and
    a part of a day. *)
Definition timedelta_representable (d : timedelta) : bool :=
  (-999999999 * day_us <=? d) && (d <? 1000000000 * day_us).

(** A step of date arithmetic gives a value or raises [OverflowError]. *)
Inductive checked (A : Type) :=
| Fits (a : A)
| OverflowError.
Arguments Fits {A} a.
Arguments OverflowError {A}.

(** [calculate_next_time_window] with the range checks Python makes:
    [timedelta(hours=w)] raises [OverflowError] outside the range of a
    [timedelta], and [end_date += ...] raises it when the sum is not a
    [datetime]. *)
Definition calculate_next_time_window
    (now : datetime) (smart_energy_mode : option string)
    (charging_time_window_hours : option Z) : checked (option datetime) :=
  if is_simple smart_energy_mode then
    if representable (replace_hour now 7 + days 1)
    then Fits (Some (replace_hour now 7 + days 1))
    else OverflowError
  else
    match charging_time_window_hours with
    | None => Fits None
    | Some w =>
        if (w =? 0)%Z then Fits None
        else if timedelta_representable (hours w)
                && representable (now + hours w)
        then Fits (Some (now + hours w))
        else OverflowError
    end.
End Bounded.

(** ** The host state machine *)

Module Host.
Import Py Entity.



End Host.

(** Case split on the innermost scrutinee of the goal. *)
Ltac case_inner :=
  match goal with
  | |- context [ match ?x with _ => _ end ] =>
      lazymatch x with
      | context [ match _ with _ => _ end ] => fail
      | _ => destruct x eqn:?
      end
  end.

(** * Properties *)

Section Ranking.
Import Time StateFetcher Spec.

#[local] Instance key_le_total : Total key_le.
Proof. intros a b. unfold key_le. lia. Qed.

#[local] Instance key_le_trans : Transitive key_le.
Proof. intros a b c. unfold key_le. lia. Qed.

#[local] Instance key_le_antisym : AntiSymm (=) key_le.
Proof.
  intros [va sa] [vb sb]. unfold key_le. simpl. intros H1 H2.
  f_equal; lia.
Qed.

Lemma sorted_strongly (l : list slot) : StronglySorted key_le (sorted l).
Proof. apply StronglySorted_merge_sort; apply _. Qed.

Lemma sorted_perm (l : list slot) : sorted l ≡ₚ l.
Proof. apply merge_sort_Permutation. Qed.

(** The filtering loop is the functional filter. *)
Lemma forecast_data_filter (d : datetime) (entries : list forecast_entry) :
  forecast_data d entries
  = to_slot <$> filter (fun p => fe_start_time p <= d) entries.
Proof.
  induction entries as [|p entries IH]; [reflexivity|].
  simpl. rewrite filter_cons.
  destruct (Z.leb_spec (fe_start_time p) d) as [Hle|Hgt].
  - rewrite decide_True by exact Hle. simpl. by rewrite IH.
  - rewrite decide_False by lia. exact IH.
Qed.

Lemma find_forecast_dates_eligible (e : env) (d : datetime) :
  find_forecast_dates e (Some d) = Ok (sorted (to_slot <$> eligible e d)).
Proof.
  unfold find_forecast_dates, eligible.
  destruct (forecast e) as [entries|]; [|reflexivity].
  by rewrite forecast_data_filter.
Qed.

Lemma take_strongly_sorted (n : nat) (l : list slot) :
  StronglySorted key_le l -> StronglySorted key_le (take n l).
Proof.
  intros H. rewrite <- (take_drop n l) in H.
  by apply StronglySorted_app_1_l in H.
Qed.

Lemma eligible_in_window (e : env) (d : datetime) :
  Forall (fun s => start_time s <= d) (to_slot <$> eligible e d).
Proof.
  unfold eligible. destruct (forecast e) as [entries|]; [|constructor].
  rewrite Forall_fmap. apply Forall_forall. intros p Hp.
  apply list_elem_of_filter in Hp. simpl. tauto.
Qed.
Lemma selection_Some (e : env) (d : datetime) (quota : option Z) :
  selection e (Some d) quota
  = Ok (slice_to (sorted (to_slot <$> eligible e d)) quota).
Proof. unfold selection. by rewrite find_forecast_dates_eligible. Qed.

(** C2, as amended.  For every forecast (available or not), deadline and
    quota, the slot selection returns a prefix of the eligible forecast
    sorted by (price, start time): the result is sorted ascending in that
    order, holds only entries with [start_time <= deadline], all of them
    taken from the eligible entries.  For [0 <= quota] it has length
    [min quota (number of eligible entries)]; a negative quota is not read
    as zero: the slice then keeps all but the last [-quota] sorted entries.
    The result is empty when no entry is eligible, when the forecast is
    unavailable and when the quota is 0. *)
Theorem selection_ranked (e : env) (deadline : datetime) (quota : Z) :
  exists l : list slot,
    selection e (Some deadline) (Some quota) = Ok l
    /\ l `prefix_of` sorted (to_slot <$> eligible e deadline)
    /\ StronglySorted key_le l
    /\ Forall (fun s => start_time s <= deadline) l
    /\ l ⊆+ (to_slot <$> eligible e deadline)
    /\ Z.of_nat (length l)
       = (let n := Z.of_nat (length (eligible e deadline)) in
          if 0 <=? quota then Z.min quota n else Z.max 0 (n + quota))
    /\ (eligible e deadline = [] -> l = [])
    /\ (forecast e = None -> l = [])
    /\ (quota = 0 -> l = []).
Proof.
  set (all := sorted (to_slot <$> eligible e deadline)).
  assert (Hperm : all ≡ₚ to_slot <$> eligible e deadline) by apply sorted_perm.
  assert (Hn : length all = length (eligible e deadline)).
  { rewrite (Permutation_length Hperm). apply length_fmap. }
  set (k := if 0 <=? quota then Z.to_nat quota
            else Z.to_nat (Z.of_nat (length all) + quota)).
  assert (Hsel : selection e (Some deadline) (Some quota) = Ok (take k all)).
  { rewrite selection_Some. fold all. unfold slice_to, k.
    destruct (0 <=? quota); reflexivity. }
  assert (Hlen : Z.of_nat (length (take k all))
                 = (let n := Z.of_nat (length (eligible e deadline)) in
                    if 0 <=? quota then Z.min quota n
                    else Z.max 0 (n + quota))).
  { rewrite length_take. unfold k. cbv zeta. rewrite <- Hn.
    destruct (Z.leb_spec 0 quota); lia. }
  exists (take k all).
  split; [exact Hsel|].
  split; [apply prefix_take|].
  split; [apply take_strongly_sorted, sorted_strongly|].
  split.
  { apply Forall_take. rewrite Hperm. apply eligible_in_window. }
  split.
  { transitivity all.
    - apply sublist_submseteq, sublist_take.
    - by apply Permutation_submseteq. }
  split; [exact Hlen|].
  cbv zeta in Hlen. split; [|split].
  - intros Hnone. apply length_zero_iff_nil. rewrite Hnone in Hlen.
    simpl in Hlen. destruct (Z.leb_spec 0 quota); lia.
  - intros Hnone. apply length_zero_iff_nil.
    unfold eligible in Hlen. rewrite Hnone in Hlen. simpl in Hlen.
    destruct (Z.leb_spec 0 quota); lia.
  - intros ->. reflexivity.
Qed.

Lemma selection_ranked_witness :
  selection Sample.env_night (Some (at_ 0 3 0)) (Some 0) = Ok [].
Proof.
  destruct (selection_ranked Sample.env_night (at_ 0 3 0) 0)
    as (l & Hsel & _ & _ & _ & _ & _ & _ & _ & Hzero).
  rewrite Hsel. f_equal. apply Hzero. reflexivity.
Defined.

(** C2, as stated, fails for a negative quota: the slice [l[0:-1]] drops
    the last entry instead of returning nothing.  With three eligible
    entries and quota -1 the selection has two slots. *)
Lemma selection_negative_quota :
  let r := selection Sample.env_night (Some (at_ 0 2 0)) (Some (-1)) in
  length (eligible Sample.env_night (at_ 0 2 0)) = 3%nat
  /\ r = Ok [Slot 50 (at_ 0 0 0); Slot 51 (at_ 0 1 0)]
  /\ ~ (-1 <= 0 -> r = Ok []).
Proof.
  assert (H : selection Sample.env_night (Some (at_ 0 2 0)) (Some (-1))
              = Ok [Slot 50 (at_ 0 0 0); Slot 51 (at_ 0 1 0)])
    by (vm_compute; reflexivity).
  cbv zeta. rewrite H. split; [vm_compute; reflexivity|].
  split; [reflexivity|].
  intros Hc. specialize (Hc ltac:(lia)). discriminate Hc.
Qed.

Lemma calculate_next_schedules_refresh (e : env) (car_status consumer : string)
    (r : SD.t) (sto : gmap string (list slot)) (cs : list call) (d : datetime) :
  SD.current_cycle_charging_time_window_date r = Some d ->
  refreshes car_status r (default [] (sto !! consumer)) = true ->
  let portion :=
    slice_to (sorted (to_slot <$> eligible e d))
             (SD.current_cycle_hours_to_charge r) in
  calculate_next_schedules e car_status consumer (St r sto cs)
  = (St r (<[consumer := portion]> sto) cs, Ok portion).
Proof.
  intros Hd Hre. unfold refreshes in Hre.
  unfold calculate_next_schedules, bind, read_rec, get_schedules, lift,
    set_schedules, ret.
  simpl. rewrite Hre, Hd, find_forecast_dates_eligible. reflexivity.
Qed.

(** C10.  A consumer configured in PRECISE mode without [hours_to_charge]
    gets a record whose quota field is [None], and the tick never writes
    that field or the deadline; on such a record every schedule refresh
    stores and returns the whole eligible forecast (every entry with
    [start_time <= deadline]) in price-then-time order: the missing quota
    puts no limit on the number of slots. *)
Theorem precise_without_quota_selects_all
    (e : env) (t t' : datetime) (c : consumer_conf) (w : Z) (r : SD.t)
    (car_status consumer : string) (sto : gmap string (list slot))
    (cs : list call) :
  conf_smart_energy_mode c = Some Const.PRECISE ->
  conf_hours_to_charge c = None ->
  conf_charging_time_window_hours c = Some w -> w <> 0 ->
  let built := Calculations.consumer_record t t' c in
  SD.current_cycle_hours_to_charge r = SD.current_cycle_hours_to_charge built ->
  SD.current_cycle_charging_time_window_date r
  = SD.current_cycle_charging_time_window_date built ->
  refreshes car_status r (default [] (sto !! consumer)) = true ->
  let deadline := t + hours w in
  let all := sorted (to_slot <$> eligible e deadline) in
  SD.current_cycle_hours_to_charge built = None
  /\ SD.current_cycle_charging_time_window_date built = Some deadline
  /\ calculate_next_schedules e car_status consumer (St r sto cs)
     = (St r (<[consumer := all]> sto) cs, Ok all)
  /\ all ≡ₚ to_slot <$> eligible e deadline
  /\ StronglySorted key_le all.
Proof.
  intros Hmode Hq Hw Hw0 built Hrq Hrd Hre deadline all.
  assert (Hbq : SD.current_cycle_hours_to_charge built = None).
  { unfold built, Calculations.consumer_record. simpl. rewrite Hmode. exact Hq. }
  assert (Hbd : SD.current_cycle_charging_time_window_date built = Some deadline).
  { unfold built, Calculations.consumer_record,
      Calculations.calculate_next_time_window. simpl.
    rewrite Hmode, Hw. simpl.
    destruct (Z.eqb_spec w 0) as [->|_]; [contradiction|reflexivity]. }
  split; [exact Hbq|]. split; [exact Hbd|].
  split; [|split; [apply sorted_perm|apply sorted_strongly]].
  rewrite Hbq in Hrq. rewrite Hbd in Hrd.
  rewrite (calculate_next_schedules_refresh e car_status consumer r sto cs
             deadline Hrd Hre).
  rewrite Hrq. reflexivity.
Qed.

Lemma precise_without_quota_selects_all_witness :
  let c := Sample.precise_conf "wallbox" None (Some 3) in
  let r := Calculations.consumer_record (at_ 0 0 30) (at_ 0 0 30) c in
  exists all : list slot,
    calculate_next_schedules Sample.env_night "" "wallbox" (St r ∅ [])
    = (St r (<["wallbox" := all]> ∅) [], Ok all)
    /\ length all = 4%nat.
Proof.
  intros c r.
  destruct (precise_without_quota_selects_all Sample.env_night
              (at_ 0 0 30) (at_ 0 0 30) c 3 r "" "wallbox" ∅ [])
    as (_ & _ & Hsel & Hperm & _);
    [reflexivity | reflexivity | reflexivity | lia | reflexivity | reflexivity
    | reflexivity |].
  eexists. split; [exact Hsel|].
  rewrite (Permutation_length Hperm). vm_compute. reflexivity.
Defined.
End Ranking.

Section Window.
Import Time Spec.

Lemma day_us_pos : 0 < day_us.
Proof. reflexivity. Qed.

(** [replace_hour t 7] is 07:00 of the calendar day of [t]. *)
Lemma replace_hour_same_day (t : datetime) :
  replace_hour t 7 `div` day_us = t `div` day_us
  /\ replace_hour t 7 `mod` day_us = 7 * hour_us.
Proof.
  unfold replace_hour.
  assert (H7 : 0 <= 7 * hour_us < day_us) by (vm_compute; split; congruence).
  rewrite Z.add_comm.
  rewrite Z.div_add by (vm_compute; congruence).
  rewrite Z.mod_add by (vm_compute; congruence).
  rewrite Z.div_small, Z.mod_small by exact H7. split; reflexivity.
Qed.

Lemma hour_us_pos : 0 < hour_us.
Proof. reflexivity. Qed.

Lemma day_us_hours : day_us = 24 * hour_us.
Proof. reflexivity. Qed.

Lemma replace_hour_bounds (t : datetime) :
  replace_hour t 7 - 7 * hour_us <= t < replace_hour t 7 + 17 * hour_us.
Proof.
  unfold replace_hour.
  pose proof (Z.div_mod t day_us ltac:(vm_compute; congruence)) as Hdm.
  pose proof (Z.mod_pos_bound t day_us day_us_pos) as Hb.
  pose proof day_us_hours. lia.
Qed.

(** The specification's "next 07:00 strictly after" is what it says: an
    instant at 07:00, after [t], at most a day away. *)
Lemma next_7am_after_spec (t : datetime) :
  t < next_7am_after t <= t + day_us
  /\ next_7am_after t `mod` day_us = 7 * hour_us.
Proof.
  pose proof (replace_hour_bounds t) as Hb.
  pose proof (replace_hour_same_day t) as [_ Hm].
  unfold next_7am_after.
  destruct (Z.ltb_spec t (replace_hour t 7)) as [Hlt|Hge].
  - split; [|exact Hm]. pose proof day_us_hours. pose proof hour_us_pos. lia.
  - split.
    + unfold days. pose proof day_us_hours. pose proof hour_us_pos. lia.
    + unfold days. rewrite Z.mod_add by (vm_compute; congruence). exact Hm.
Qed.

(** C5, as amended.  For every value of now, the record of a SIMPLE-mode
    consumer has [cycleHoursToCharge = 4] and its deadline is 07:00 of the
    calendar day after now, unconditionally.  That instant is strictly
    after now; it is the next occurrence of 07:00 when now is at or after
    07:00 today (exactly 07:00 included), and one day later than the next
    occurrence when now is before 07:00 today. *)
Theorem simple_window (t t' : datetime) (c : consumer_conf) :
  conf_smart_energy_mode c = Some Const.SIMPLE ->
  let r := Calculations.consumer_record t t' c in
  let deadline := replace_hour t 7 + days 1 in
  SD.current_cycle_charging_time_window_date r = Some deadline
  /\ SD.current_cycle_hours_to_charge r = Some 4
  /\ deadline `div` day_us = t `div` day_us + 1
  /\ deadline `mod` day_us = 7 * hour_us
  /\ t < deadline
  /\ (replace_hour t 7 <= t -> deadline = next_7am_after t)
  /\ (t < replace_hour t 7 -> deadline = next_7am_after t + days 1).
Proof.
  intros Hmode r deadline.
  pose proof (replace_hour_same_day t) as [Hd Hm].
  pose proof (replace_hour_bounds t) as Hb.
  unfold r, Calculations.consumer_record, Calculations.calculate_next_time_window.
  simpl. rewrite Hmode. simpl.
  split; [reflexivity|]. split; [reflexivity|].
  unfold deadline, days. rewrite Z.div_add, Z.mod_add by (vm_compute; congruence).
  split; [lia|]. split; [exact Hm|].
  split.
  { pose proof day_us_hours. pose proof hour_us_pos. lia. }
  unfold next_7am_after, days. split; intros H.
  - destruct (Z.ltb_spec t (replace_hour t 7)); [lia|reflexivity].
  - destruct (Z.ltb_spec t (replace_hour t 7)); [reflexivity|lia].
Qed.

Lemma simple_window_witness :
  SD.current_cycle_charging_time_window_date
    (Calculations.consumer_record (at_ 0 12 0) (at_ 0 12 0)
       (Sample.simple_conf "wallbox"))
  = Some (at_ 1 7 0).
Proof.
  destruct (simple_window (at_ 0 12 0) (at_ 0 12 0) (Sample.simple_conf "wallbox"))
    as (Hd & _); [reflexivity|].
  rewrite Hd. vm_compute. reflexivity.
Defined.

(** C5, as stated, fails before 07:00: at 00:30 of day 0 the next 07:00
    strictly after now is 07:00 of day 0, but the record's deadline is
    07:00 of day 1. *)
Lemma simple_window_before_7am :
  let t := at_ 0 0 30 in
  let r := Calculations.consumer_record t t (Sample.simple_conf "wallbox") in
  next_7am_after t = at_ 0 7 0
  /\ SD.current_cycle_charging_time_window_date r = Some (at_ 1 7 0)
  /\ SD.current_cycle_charging_time_window_date r <> Some (next_7am_after t).
Proof.
  cbv zeta. split; [vm_compute; reflexivity|].
  split; [vm_compute; reflexivity|]. vm_compute. congruence.
Qed.

(** What [calculate_time_window_hours] computes: the whole hours of the
    difference reduced modulo one day. *)
Lemma calculate_time_window_hours_mod (t d : datetime) :
  Calculations.calculate_time_window_hours t (Some d)
  = Some (whole_hours ((d - t) `mod` day_us)).
Proof.
  unfold Calculations.calculate_time_window_hours, td_seconds, whole_hours.
  pose proof (Z.mod_pos_bound (d - t) day_us day_us_pos) as Hb.
  rewrite Z.quot_div_nonneg by (try reflexivity; lia).
  rewrite Z.div_div by (vm_compute; congruence). reflexivity.
Qed.

(** It agrees with the full difference for a deadline less than one day
    ahead. *)
Lemma calculate_time_window_hours_within_day (t d : datetime) :
  0 <= d - t < day_us ->
  Calculations.calculate_time_window_hours t (Some d)
  = Some (whole_hours (d - t)).
Proof.
  intros H. rewrite calculate_time_window_hours_mod.
  by rewrite Z.mod_small.
Qed.

(** C6 fails on the code.  At 00:30 a SIMPLE consumer gets the deadline
    07:00 of the next day, 30 hours and 30 minutes ahead; the full
    difference truncated to whole hours is 30, and
    [calculate_time_window_hours] returns 6, which is what the record
    stores. *)
Theorem calculate_time_window_hours_drops_days :
  let t := at_ 0 0 30 in
  let deadline := at_ 1 7 0 in
  Calculations.calculate_next_time_window t (Some Const.SIMPLE) None
  = Some deadline
  /\ whole_hours (deadline - t) = 30
  /\ Calculations.calculate_time_window_hours t (Some deadline) = Some 6
  /\ SD.current_cycle_charging_time_window_hours
       (Calculations.consumer_record t t (Sample.simple_conf "wallbox"))
     = Some 6.
Proof. cbv zeta. repeat split; vm_compute; reflexivity. Qed.
End Window.

Section Scheduler.
Import Time StateFetcher Spec.

Lemma finished_is_not_charging :
  String.eqb Const.CHARGING_FINISHED Const.CAR_IS_CHARGING = false.
Proof. reflexivity. Qed.

(** A controller call is recorded, then returns or raises. *)
Lemma charging_run (e : env) (c : command) (o d : string)
    (r : SD.t) (sto : gmap string (list slot)) (cs : list call) :
  Controller.charging e c o d (St r sto cs)
  = (St r sto (cs ++ [Call c o d]),
     match Controller.dispatch e c o d with
     | Controller.Raised => Raise ServiceError
     | _ => Ok tt
     end).
Proof.
  unfold Controller.charging, bind, record_call, raise, ret. simpl.
  destruct (Controller.dispatch e c o d); reflexivity.
Qed.

(** The schedule step never touches the record or the controller. *)
Lemma calculate_next_schedules_frame (e : env) (status c : string) (s : st) :
  rec (calculate_next_schedules e status c s).1 = rec s
  /\ calls (calculate_next_schedules e status c s).1 = calls s.
Proof.
  unfold calculate_next_schedules, bind, read_rec, get_schedules, lift,
    set_schedules, ret. simpl.
  destruct (_ || _); [|split; reflexivity].
  destruct (find_forecast_dates e _); split; reflexivity.
Qed.

Lemma calculate_next_schedules_keep (e : env) (status c : string)
    (r : SD.t) (sto : gmap string (list slot)) (cs : list call) :
  refreshes status r (default [] (sto !! c)) = false ->
  calculate_next_schedules e status c (St r sto cs)
  = (St r sto cs, Ok (default [] (sto !! c))).
Proof.
  intros Hre. unfold refreshes in Hre.
  unfold calculate_next_schedules, bind, read_rec, get_schedules, ret.
  simpl. rewrite Hre. reflexivity.
Qed.

(** The step from AWAITING_START with the device READY and the clock
    strictly inside the head slot's hour, for either end of the start
    call. *)
Lemma awaiting_start_step (e : env) (c : string) (r : SD.t)
    (sto : gmap string (list slot)) (cs : list call)
    (first : slot) (rest : list slot) :
  SD.enabled r = true -> SD.charging_schedules_enabled r = true ->
  SD.start_scheduled_charging r = true ->
  car_status_of e c = Const.CHARGING_FINISHED ->
  sto !! c = Some (first :: rest) ->
  start_time first < now e < start_time first + hours 1 ->
  let cs' := (cs ++ [Call StartCharging (SD.output_source r) c])%list in
  process_consumer e c (St r sto cs)
  = match Controller.dispatch e StartCharging (SD.output_source r) c with
    | Controller.Raised =>
        (St (with_slot first r) (<[c := rest]> sto) cs', Raise ServiceError)
    | _ =>
        (St (SD.set_start_scheduled_charging false (with_slot first r))
            (<[c := rest]> sto) cs', Ok Next)
    end.
Proof.
  intros Hen Hsen Hflag Hstatus Hsto [Hlo Hhi] cs'.
  unfold process_consumer, bind at 1, read_rec. simpl.
  rewrite Hen, Hsen, Hflag, Hstatus. simpl.
  unfold bind at 1.
  rewrite calculate_next_schedules_keep; cycle 1.
  { unfold refreshes. rewrite Hsto, Hflag, finished_is_not_charging.
    reflexivity. }
  rewrite Hsto. simpl.
  unfold try_to_start_charging. rewrite String.eqb_refl.
  rewrite (proj2 (Z.ltb_lt _ _) Hhi), (proj2 (Z.ltb_lt _ _) Hlo). simpl.
  unfold bind, update_rec, set_schedules, read_rec, Controller.start_charging.
  simpl. rewrite charging_run. simpl.
  destruct (Controller.dispatch e StartCharging (SD.output_source r) c);
    reflexivity.
Qed.

(** The steps of a consumer with no pending start, once the schedule step
    has produced a non-empty sequence. *)
Lemma no_pending_step (e : env) (c : string) (r : SD.t)
    (sto sto' : gmap string (list slot)) (cs : list call)
    (x : slot) (xs : list slot) :
  SD.enabled r = true -> SD.charging_schedules_enabled r = true ->
  SD.start_scheduled_charging r = false ->
  calculate_next_schedules e (car_status_of e c) c (St r sto cs)
  = (St r sto' cs, Ok (x :: xs)) ->
  process_consumer e c (St r sto cs)
  = ((if String.eqb (car_status_of e c) Const.CAR_IS_CHARGING then
        if is_None (SD.current_schedule_start r)
           || is_None (SD.current_schedule_end r)
        then stop_scheduled_charging e c
        else reset_or_continue_charging e c
      else
        if negb (is_None (SD.current_schedule_start r))
           || negb (is_None (SD.current_schedule_end r))
        then
          (Controller.stop_charging e (SD.output_source r) c ;;
           reset_current_schedule)
        else ret tt) ;;
     ret Next) (St r sto' cs).
Proof.
  intros Hen Hsen Hflag Hcalc.
  unfold process_consumer, bind at 1, read_rec. simpl.
  rewrite Hen, Hsen, Hflag. simpl.
  unfold bind at 1. rewrite Hcalc. simpl.
  destruct (String.eqb (car_status_of e c) Const.CAR_IS_CHARGING);
    unfold bind at 1 2, read_rec; simpl; reflexivity.
Qed.

(** Expiry of the active slot while the device is charging. *)
Lemma expiry_step (e : env) (c : string) (r : SD.t)
    (sto sto' : gmap string (list slot)) (cs : list call)
    (x : slot) (xs : list slot) (s0 e0 : datetime) :
  SD.enabled r = true -> SD.charging_schedules_enabled r = true ->
  SD.start_scheduled_charging r = false ->
  car_status_of e c = Const.CAR_IS_CHARGING ->
  SD.current_schedule_start r = Some s0 ->
  SD.current_schedule_end r = Some e0 ->
  e0 < now e ->
  calculate_next_schedules e (car_status_of e c) c (St r sto cs)
  = (St r sto' cs, Ok (x :: xs)) ->
  let cs' := (cs ++ [Call StopCharging (SD.output_source r) c])%list in
  process_consumer e c (St r sto cs)
  = match Controller.dispatch e StopCharging (SD.output_source r) c with
    | Controller.Raised => (St r sto' cs', Raise ServiceError)
    | _ =>
        (St (without_slot (SD.set_start_scheduled_charging true r)) sto' cs',
         Ok Next)
    end.
Proof.
  intros Hen Hsen Hflag Hstatus Hs He Hnow Hcalc cs'.
  rewrite (no_pending_step e c r sto sto' cs x xs Hen Hsen Hflag Hcalc).
  rewrite Hstatus, String.eqb_refl, Hs, He. simpl.
  unfold bind at 1, reset_or_continue_charging, bind at 1, read_rec. simpl.
  rewrite He, (proj2 (Z.ltb_lt _ _) Hnow).
  unfold bind at 1, stop_scheduled_charging, bind at 1, read_rec. simpl.
  unfold bind at 1, Controller.stop_charging. rewrite charging_run.
  destruct (Controller.dispatch e StopCharging (SD.output_source r) c);
    reflexivity.
Qed.

(** An active slot with a device that is not charging. *)
Lemma not_charging_step (e : env) (c : string) (r : SD.t)
    (sto sto' : gmap string (list slot)) (cs : list call)
    (x : slot) (xs : list slot) (s0 e0 : datetime) :
  SD.enabled r = true -> SD.charging_schedules_enabled r = true ->
  SD.start_scheduled_charging r = false ->
  car_status_of e c <> Const.CAR_IS_CHARGING ->
  SD.current_schedule_start r = Some s0 ->
  SD.current_schedule_end r = Some e0 ->
  calculate_next_schedules e (car_status_of e c) c (St r sto cs)
  = (St r sto' cs, Ok (x :: xs)) ->
  let cs' := (cs ++ [Call StopCharging (SD.output_source r) c])%list in
  process_consumer e c (St r sto cs)
  = match Controller.dispatch e StopCharging (SD.output_source r) c with
    | Controller.Raised => (St r sto' cs', Raise ServiceError)
    | _ => (St (without_slot r) sto' cs', Ok Next)
    end.
Proof.
  intros Hen Hsen Hflag Hstatus Hs He Hcalc cs'.
  rewrite (no_pending_step e c r sto sto' cs x xs Hen Hsen Hflag Hcalc).
  rewrite (proj2 (String.eqb_neq _ _) Hstatus), Hs, He. simpl.
  unfold bind at 1 2, Controller.stop_charging. rewrite charging_run.
  destruct (Controller.dispatch e StopCharging (SD.output_source r) c);
    reflexivity.
Qed.

(** A device found charging with no active slot. *)
Lemma idle_charging_step (e : env) (c : string) (r : SD.t)
    (sto sto' : gmap string (list slot)) (cs : list call)
    (x : slot) (xs : list slot) :
  SD.enabled r = true -> SD.charging_schedules_enabled r = true ->
  SD.start_scheduled_charging r = false ->
  car_status_of e c = Const.CAR_IS_CHARGING ->
  SD.current_schedule_start r = None ->
  calculate_next_schedules e (car_status_of e c) c (St r sto cs)
  = (St r sto' cs, Ok (x :: xs)) ->
  let cs' := (cs ++ [Call StopCharging (SD.output_source r) c])%list in
  process_consumer e c (St r sto cs)
  = match Controller.dispatch e StopCharging (SD.output_source r) c with
    | Controller.Raised => (St r sto' cs', Raise ServiceError)
    | _ => (St (SD.set_start_scheduled_charging true r) sto' cs', Ok Next)
    end.
Proof.
  intros Hen Hsen Hflag Hstatus Hs Hcalc cs'.
  rewrite (no_pending_step e c r sto sto' cs x xs Hen Hsen Hflag Hcalc).
  rewrite Hstatus, String.eqb_refl, Hs. simpl.
  unfold bind at 1, stop_scheduled_charging, bind at 1, read_rec. simpl.
  unfold bind at 1, Controller.stop_charging. rewrite charging_run.
  destruct (Controller.dispatch e StopCharging (SD.output_source r) c);
    reflexivity.
Qed.
(** C3, as amended.  For every enabled consumer in AWAITING_START
    ([pendingRetry = true]) with device status READY and now strictly
    inside the open interval (slot.startTime, slot.startTime + 1 hour),
    where slot is the head of the stored sequence, the tick issues exactly
    one start command, removes the head slot from the stored sequence and
    sets [currentScheduleStart = slot.startTime],
    [currentScheduleEnd = slot.startTime + 1 hour]; when the start command
    returns, [pendingRetry] is set to false, and when it raises,
    [pendingRetry] stays true. *)
Theorem confirmed_start (e : env) (c : string) (r : SD.t)
    (sto : gmap string (list slot)) (cs : list call)
    (first : slot) (rest : list slot) :
  SD.enabled r = true -> SD.charging_schedules_enabled r = true ->
  SD.start_scheduled_charging r = true ->
  car_status_of e c = Const.CHARGING_FINISHED ->
  sto !! c = Some (first :: rest) ->
  start_time first < now e < start_time first + hours 1 ->
  exists (r' : SD.t) (out : res signal),
    process_consumer e c (St r sto cs)
    = (St r' (<[c := rest]> sto)
          (cs ++ [Call StartCharging (SD.output_source r) c]), out)
    /\ SD.current_schedule_start r' = Some (start_time first)
    /\ SD.current_schedule_end r' = Some (start_time first + hours 1)
    /\ (returned (Controller.dispatch e StartCharging (SD.output_source r) c) ->
        SD.start_scheduled_charging r' = false /\ out = Ok Next)
    /\ (Controller.dispatch e StartCharging (SD.output_source r) c
        = Controller.Raised ->
        SD.start_scheduled_charging r' = true /\ out = Raise ServiceError).
Proof.
  intros Hen Hsen Hflag Hstatus Hsto Hnow.
  rewrite (awaiting_start_step e c r sto cs first rest
             Hen Hsen Hflag Hstatus Hsto Hnow).
  unfold returned.
  destruct (Controller.dispatch e StartCharging (SD.output_source r) c);
    eexists _, _; (split; [reflexivity|]); simpl;
    repeat split; try congruence; try exact Hflag.
Qed.

Lemma confirmed_start_witness :
  let e := Sample.env_at (at_ 0 1 30) Const.CHARGING_FINISHED
             (Some (Sample.hourly 6)) Sample.always_returns in
  exists (r' : SD.t) (out : res signal),
    process_consumer e "wallbox" (St Sample.awaiting Sample.stored [])
    = (St r' (<["wallbox" := [Slot 52 (at_ 0 2 0)]]> Sample.stored)
          [Call StartCharging Const.DOMAIN_GO_E_CHARGER "wallbox"], out)
    /\ SD.current_schedule_start r' = Some (at_ 0 1 0).
Proof.
  intros e.
  destruct (confirmed_start e "wallbox" Sample.awaiting Sample.stored []
              (Slot 51 (at_ 0 1 0)) [Slot 52 (at_ 0 2 0)])
    as (r' & out & Hrun & Hs & _);
    [reflexivity | reflexivity | reflexivity | reflexivity | reflexivity
    | vm_compute; split; reflexivity |].
  exists r', out. split; [exact Hrun|exact Hs].
Defined.

(** C3, as stated, fails at both points the amendment changes.  On the
    hour exactly ([now = slot.startTime], inside the half-open interval)
    the tick issues no command and leaves the record and the stored
    sequence as they were.  Half an hour into the slot with a start call
    that raises, the slot is set and the head removed, and [pendingRetry]
    is still true. *)
Lemma no_start_on_the_hour :
  let first := Slot 51 (at_ 0 1 0) in
  let e := Sample.env_at (at_ 0 1 0) Const.CHARGING_FINISHED
             (Some (Sample.hourly 6)) Sample.always_returns in
  let e' := Sample.env_at (at_ 0 1 30) Const.CHARGING_FINISHED
             (Some (Sample.hourly 6)) Sample.start_raises in
  let s' := (process_consumer e' "wallbox"
               (St Sample.awaiting Sample.stored [])).1 in
  SD.start_scheduled_charging Sample.awaiting = true
  /\ car_status_of e "wallbox" = Const.CHARGING_FINISHED
  /\ Sample.stored !! "wallbox" = Some [first; Slot 52 (at_ 0 2 0)]
  /\ start_time first <= now e < start_time first + hours 1
  /\ process_consumer e "wallbox" (St Sample.awaiting Sample.stored [])
     = (St Sample.awaiting Sample.stored [], Ok Next)
  /\ start_time first <= now e' < start_time first + hours 1
  /\ calls s' = [Call StartCharging Const.DOMAIN_GO_E_CHARGER "wallbox"]
  /\ SD.start_scheduled_charging (rec s') = true.
Proof.
  cbv zeta. repeat split; try (vm_compute; congruence); vm_compute; reflexivity.
Qed.

(** C4, as amended.  For every enabled consumer in ACTIVE
    ([currentScheduleStart]/[End] set, no pending start) with
    [now > currentScheduleEnd], device status CHARGING and a non-empty slot
    sequence after the schedule step, the tick issues exactly one stop
    command; when that command returns, [currentScheduleStart] and
    [currentScheduleEnd] are cleared and [pendingRetry] is set to true, and
    when it raises the record is left as it was. *)
Theorem expiry (e : env) (c : string) (r : SD.t)
    (sto sto' : gmap string (list slot)) (cs : list call)
    (x : slot) (xs : list slot) (s0 e0 : datetime) :
  SD.enabled r = true -> SD.charging_schedules_enabled r = true ->
  SD.start_scheduled_charging r = false ->
  SD.current_schedule_start r = Some s0 ->
  SD.current_schedule_end r = Some e0 ->
  e0 < now e ->
  car_status_of e c = Const.CAR_IS_CHARGING ->
  calculate_next_schedules e (car_status_of e c) c (St r sto cs)
  = (St r sto' cs, Ok (x :: xs)) ->
  exists (r' : SD.t) (out : res signal),
    process_consumer e c (St r sto cs)
    = (St r' sto' (cs ++ [Call StopCharging (SD.output_source r) c]), out)
    /\ (returned (Controller.dispatch e StopCharging (SD.output_source r) c) ->
        SD.current_schedule_start r' = None
        /\ SD.current_schedule_end r' = None
        /\ SD.start_scheduled_charging r' = true
        /\ out = Ok Next)
    /\ (Controller.dispatch e StopCharging (SD.output_source r) c
        = Controller.Raised ->
        r' = r /\ out = Raise ServiceError).
Proof.
  intros Hen Hsen Hflag Hs He Hnow Hstatus Hcalc.
  rewrite (expiry_step e c r sto sto' cs x xs s0 e0
             Hen Hsen Hflag Hstatus Hs He Hnow Hcalc).
  unfold returned.
  destruct (Controller.dispatch e StopCharging (SD.output_source r) c);
    eexists _, _; (split; [reflexivity|]); simpl;
    repeat split; congruence.
Qed.

Lemma expiry_witness :
  let e := Sample.env_at (at_ 0 2 30) Const.CAR_IS_CHARGING
             (Some (Sample.hourly 6)) Sample.always_returns in
  exists (r' : SD.t) (out : res signal),
    process_consumer e "wallbox" (St Sample.active Sample.stored [])
    = (St r' Sample.stored
          [Call StopCharging Const.DOMAIN_GO_E_CHARGER "wallbox"], out)
    /\ SD.start_scheduled_charging r' = true.
Proof.
  intros e.
  destruct (expiry e "wallbox" Sample.active Sample.stored Sample.stored []
              (Slot 51 (at_ 0 1 0)) [Slot 52 (at_ 0 2 0)]
              (at_ 0 1 0) (at_ 0 2 0))
    as (r' & out & Hrun & Hret & _);
    [reflexivity | reflexivity | reflexivity | reflexivity | reflexivity
    | reflexivity | reflexivity | vm_compute; reflexivity |].
  exists r', out. split; [exact Hrun|].
  apply Hret. vm_compute. congruence.
Defined.

(** C4, as stated, fails at each point the amendment changes.  In all
    three cases the slot 01:00-02:00 is active and now is 02:30.  With
    device status READY one stop command is issued and the slot is
    cleared, but [pendingRetry] stays false.  With the device charging, no
    stored slots and no forecast, no command is issued and the slot stays
    set.  With the device charging and a stop call that raises, the record
    is unchanged. *)
Lemma expiry_needs_charging_slots_and_return :
  let ready := Sample.env_at (at_ 0 2 30) Const.CHARGING_FINISHED
                 (Some (Sample.hourly 6)) Sample.always_returns in
  let no_forecast := Sample.env_at (at_ 0 2 30) Const.CAR_IS_CHARGING
                       None Sample.always_returns in
  let raising := Sample.env_at (at_ 0 2 30) Const.CAR_IS_CHARGING
                   (Some (Sample.hourly 6)) Sample.stop_raises in
  let s1 := (process_consumer ready "wallbox"
               (St Sample.active Sample.stored [])).1 in
  let s2 := (process_consumer no_forecast "wallbox"
               (St Sample.active ∅ [])).1 in
  let s3 := (process_consumer raising "wallbox"
               (St Sample.active Sample.stored [])).1 in
  SD.current_schedule_end Sample.active = Some (at_ 0 2 0)
  /\ at_ 0 2 0 < at_ 0 2 30
  /\ calls s1 = [Call StopCharging Const.DOMAIN_GO_E_CHARGER "wallbox"]
  /\ SD.current_schedule_start (rec s1) = None
  /\ SD.start_scheduled_charging (rec s1) = false
  /\ calls s2 = []
  /\ SD.current_schedule_start (rec s2) = Some (at_ 0 1 0)
  /\ SD.start_scheduled_charging (rec s2) = false
  /\ calls s3 = [Call StopCharging Const.DOMAIN_GO_E_CHARGER "wallbox"]
  /\ rec s3 = Sample.active.
Proof. cbv zeta. repeat split; vm_compute; reflexivity. Qed.
(** An active slot that has not expired, on a charging device: the record
    and the controller are left alone whatever the schedule step does. *)
Lemma continue_step (e : env) (c : string) (r : SD.t)
    (sto : gmap string (list slot)) (cs : list call) (s0 e0 : datetime) :
  SD.start_scheduled_charging r = false ->
  car_status_of e c = Const.CAR_IS_CHARGING ->
  SD.current_schedule_start r = Some s0 ->
  SD.current_schedule_end r = Some e0 ->
  now e <= e0 ->
  rec (process_consumer e c (St r sto cs)).1 = r
  /\ calls (process_consumer e c (St r sto cs)).1 = cs.
Proof.
  intros Hflag Hstatus Hs He Hnow.
  assert (Hrun : exists sto' out,
            process_consumer e c (St r sto cs) = (St r sto' cs, out)).
  { unfold process_consumer, bind at 1, read_rec. simpl.
    destruct (SD.enabled r && SD.charging_schedules_enabled r);
      [|eexists _, _; reflexivity].
    rewrite Hflag, Hstatus. unfold bind at 1.
    pose proof (calculate_next_schedules_frame e Const.CAR_IS_CHARGING c
                  (St r sto cs)) as [Hr Hc].
    destruct (calculate_next_schedules e Const.CAR_IS_CHARGING c (St r sto cs))
      as [[r1 sto1 cs1] [schedules|x]]; simpl in Hr, Hc; subst r1 cs1;
      [|eexists _, _; reflexivity].
    destruct schedules as [|y ys]; simpl; [eexists _, _; reflexivity|].
    unfold bind, read_rec, reset_or_continue_charging. simpl.
    rewrite Hs, He. simpl.
    unfold bind, read_rec. simpl.
    rewrite He, (proj2 (Z.ltb_ge _ _) Hnow). simpl.
    eexists _, _; reflexivity. }
  destruct Hrun as (sto' & out & ->). split; reflexivity.
Qed.

(** C8, as amended.  For every consumer in ACTIVE (slot set, no pending
    start): with device status CHARGING and [now <= currentScheduleEnd] the
    tick takes no action, issuing no command and leaving the record as it
    was; with any other device status, READY included, an enabled consumer
    whose schedule step gives a non-empty sequence gets exactly one stop
    command and, when it returns, its slot is cleared and [pendingRetry]
    stays false. *)
Theorem active_slot_kept_only_while_charging (e : env) (c : string) (r : SD.t)
    (sto : gmap string (list slot)) (cs : list call) (s0 e0 : datetime) :
  SD.start_scheduled_charging r = false ->
  SD.current_schedule_start r = Some s0 ->
  SD.current_schedule_end r = Some e0 ->
  (car_status_of e c = Const.CAR_IS_CHARGING -> now e <= e0 ->
   rec (process_consumer e c (St r sto cs)).1 = r
   /\ calls (process_consumer e c (St r sto cs)).1 = cs)
  /\ (car_status_of e c <> Const.CAR_IS_CHARGING ->
      SD.enabled r = true -> SD.charging_schedules_enabled r = true ->
      forall (sto' : gmap string (list slot)) (x : slot) (xs : list slot),
        calculate_next_schedules e (car_status_of e c) c (St r sto cs)
        = (St r sto' cs, Ok (x :: xs)) ->
        exists (r' : SD.t) (out : res signal),
          process_consumer e c (St r sto cs)
          = (St r' sto' (cs ++ [Call StopCharging (SD.output_source r) c]), out)
          /\ (returned (Controller.dispatch e StopCharging
                          (SD.output_source r) c) ->
              r' = without_slot r
              /\ SD.start_scheduled_charging r' = false
              /\ out = Ok Next)).
Proof.
  intros Hflag Hs He. split.
  - intros Hstatus Hnow. by apply (continue_step e c r sto cs s0 e0).
  - intros Hstatus Hen Hsen sto' x xs Hcalc.
    rewrite (not_charging_step e c r sto sto' cs x xs s0 e0
               Hen Hsen Hflag Hstatus Hs He Hcalc).
    unfold returned.
    destruct (Controller.dispatch e StopCharging (SD.output_source r) c);
      eexists _, _; (split; [reflexivity|]); simpl;
      repeat split; solve [congruence | exact Hflag].
Qed.

Lemma active_slot_kept_only_while_charging_witness :
  let e := Sample.env_at (at_ 0 1 30) Const.CAR_IS_CHARGING
             (Some (Sample.hourly 6)) Sample.always_returns in
  rec (process_consumer e "wallbox" (St Sample.active Sample.stored [])).1
  = Sample.active
  /\ calls (process_consumer e "wallbox" (St Sample.active Sample.stored [])).1
     = [].
Proof.
  intros e.
  destruct (active_slot_kept_only_while_charging e "wallbox" Sample.active
              Sample.stored [] (at_ 0 1 0) (at_ 0 2 0))
    as [Hkeep _]; [reflexivity | reflexivity | reflexivity |].
  apply Hkeep; [reflexivity | vm_compute; congruence].
Defined.

(** C8, as stated, fails for device status READY: with the slot
    01:00-02:00 active and now 01:30 the tick issues a stop command and
    clears the slot. *)
Lemma ready_device_abandons_active_slot :
  let e := Sample.env_at (at_ 0 1 30) Const.CHARGING_FINISHED
             (Some (Sample.hourly 6)) Sample.always_returns in
  let s' := (process_consumer e "wallbox"
               (St Sample.active Sample.stored [])).1 in
  SD.current_schedule_start Sample.active = Some (at_ 0 1 0)
  /\ SD.current_schedule_end Sample.active = Some (at_ 0 2 0)
  /\ now e <= at_ 0 2 0
  /\ car_status_of e "wallbox" = Const.CHARGING_FINISHED
  /\ calls s' = [Call StopCharging Const.DOMAIN_GO_E_CHARGER "wallbox"]
  /\ SD.current_schedule_start (rec s') = None
  /\ SD.current_schedule_end (rec s') = None
  /\ rec s' <> Sample.active.
Proof.
  cbv zeta. repeat split; try (vm_compute; congruence); vm_compute; reflexivity.
Qed.
(** C9, as amended.  At each of the four places where the tick issues a
    command, a command that fails without raising (the output integration
    is not supported: an error is logged and the call returns) leaves the
    record exactly as a delivered command does, in the state the command
    intended.  A command whose service call raises ends the consumer's
    processing at the call: after a failed start from AWAITING_START the
    slot is set and the head slot removed but [pendingRetry] stays true;
    after a failed stop the record is unchanged. *)
Theorem command_failure (e : env) (c : string) (r : SD.t)
    (sto sto' : gmap string (list slot)) (cs : list call)
    (x : slot) (xs : list slot) :
  SD.enabled r = true -> SD.charging_schedules_enabled r = true ->
  let o := SD.output_source r in
  let run := process_consumer e c (St r sto cs) in
  (SD.start_scheduled_charging r = true ->
   car_status_of e c = Const.CHARGING_FINISHED ->
   sto !! c = Some (x :: xs) ->
   start_time x < now e < start_time x + hours 1 ->
   let cs' := (cs ++ [Call StartCharging o c])%list in
   run = after_command (Controller.dispatch e StartCharging o c)
           (St (SD.set_start_scheduled_charging false (with_slot x r))
               (<[c := xs]> sto) cs')
           (St (with_slot x r) (<[c := xs]> sto) cs')
   /\ SD.start_scheduled_charging
        (SD.set_start_scheduled_charging false (with_slot x r)) = false
   /\ SD.start_scheduled_charging (with_slot x r) = true)
  /\ (SD.start_scheduled_charging r = false ->
      calculate_next_schedules e (car_status_of e c) c (St r sto cs)
      = (St r sto' cs, Ok (x :: xs)) ->
      let cs' := (cs ++ [Call StopCharging o c])%list in
      let stop := Controller.dispatch e StopCharging o c in
      (car_status_of e c = Const.CAR_IS_CHARGING ->
       SD.current_schedule_start r = None ->
       run = after_command stop
               (St (SD.set_start_scheduled_charging true r) sto' cs')
               (St r sto' cs'))
      /\ (forall s0 e0 : datetime,
            car_status_of e c = Const.CAR_IS_CHARGING ->
            SD.current_schedule_start r = Some s0 ->
            SD.current_schedule_end r = Some e0 ->
            e0 < now e ->
            run = after_command stop
                    (St (without_slot (SD.set_start_scheduled_charging true r))
                        sto' cs')
                    (St r sto' cs'))
      /\ (forall s0 e0 : datetime,
            car_status_of e c <> Const.CAR_IS_CHARGING ->
            SD.current_schedule_start r = Some s0 ->
            SD.current_schedule_end r = Some e0 ->
            run = after_command stop (St (without_slot r) sto' cs')
                    (St r sto' cs'))).
Proof.
  intros Hen Hsen. cbv zeta. unfold after_command. split.
  - intros Hflag Hstatus Hsto Hnow. split; [|split].
    + exact (awaiting_start_step e c r sto cs x xs
               Hen Hsen Hflag Hstatus Hsto Hnow).
    + reflexivity.
    + exact Hflag.
  - intros Hflag Hcalc. split; [|split].
    + intros Hstatus Hs.
      exact (idle_charging_step e c r sto sto' cs x xs
               Hen Hsen Hflag Hstatus Hs Hcalc).
    + intros s0 e0 Hstatus Hs He Hnow.
      exact (expiry_step e c r sto sto' cs x xs s0 e0
               Hen Hsen Hflag Hstatus Hs He Hnow Hcalc).
    + intros s0 e0 Hstatus Hs He.
      exact (not_charging_step e c r sto sto' cs x xs s0 e0
               Hen Hsen Hflag Hstatus Hs He Hcalc).
Qed.

Lemma command_failure_witness :
  let e := Sample.env_at (at_ 0 1 30) Const.CHARGING_FINISHED
             (Some (Sample.hourly 6)) Sample.always_returns in
  Controller.dispatch e StartCharging "other_charger" "wallbox"
  = Controller.Unsupported
  /\ process_consumer e "wallbox" (St Sample.awaiting_unsupported Sample.stored [])
     = (St (SD.set_start_scheduled_charging false
              (with_slot (Slot 51 (at_ 0 1 0)) Sample.awaiting_unsupported))
           (<["wallbox" := [Slot 52 (at_ 0 2 0)]]> Sample.stored)
           [Call StartCharging "other_charger" "wallbox"],
        Ok Next).
Proof.
  intros e. split; [reflexivity|].
  destruct (command_failure e "wallbox" Sample.awaiting_unsupported
              Sample.stored Sample.stored [] (Slot 51 (at_ 0 1 0))
              [Slot 52 (at_ 0 2 0)])
    as [Hstart _]; [reflexivity | reflexivity |].
  destruct Hstart as (Hrun & _);
    [reflexivity | reflexivity | reflexivity | vm_compute; split; reflexivity |].
  exact Hrun.
Defined.

(** C9, as stated, fails for a start call that raises: from AWAITING_START
    with the device READY at 01:45, inside the head slot, the successful
    tick clears [pendingRetry] and the failed one leaves it true. *)
Lemma failed_start_keeps_pending_retry :
  let ok := Sample.env_at (at_ 0 1 45) Const.CHARGING_FINISHED
              (Some (Sample.hourly 6)) Sample.always_returns in
  let failing := Sample.env_at (at_ 0 1 45) Const.CHARGING_FINISHED
                   (Some (Sample.hourly 6)) Sample.start_raises in
  let s_ok := (process_consumer ok "wallbox"
                 (St Sample.awaiting Sample.stored [])).1 in
  let s_failed := (process_consumer failing "wallbox"
                     (St Sample.awaiting Sample.stored [])).1 in
  SD.start_scheduled_charging Sample.awaiting = true
  /\ SD.start_scheduled_charging (rec s_ok) = false
  /\ Controller.dispatch failing StartCharging
       (SD.output_source Sample.awaiting) "wallbox" = Controller.Raised
  /\ calls s_failed = [Call StartCharging Const.DOMAIN_GO_E_CHARGER "wallbox"]
  /\ SD.start_scheduled_charging (rec s_failed) = true
  /\ SD.start_scheduled_charging (rec s_failed)
     <> SD.start_scheduled_charging (rec s_ok).
Proof.
  cbv zeta. repeat split; try (vm_compute; congruence); vm_compute; reflexivity.
Qed.
(** Every record a consumer's processing can leave behind. *)
Lemma process_consumer_record_cases (e : env) (c : string) (r : SD.t)
    (sto : gmap string (list slot)) (cs : list call) :
  let r' := rec (process_consumer e c (St r sto cs)).1 in
  r' = r
  \/ r' = SD.set_start_scheduled_charging false r
  \/ (exists first, r' = SD.set_start_scheduled_charging false (with_slot first r))
  \/ (exists first,
        Controller.dispatch e StartCharging (SD.output_source r) c
        = Controller.Raised
        /\ r' = with_slot first r)
  \/ (SD.start_scheduled_charging r = false
      /\ (SD.current_schedule_start r = None \/ SD.current_schedule_end r = None)
      /\ r' = SD.set_start_scheduled_charging true r)
  \/ r' = without_slot (SD.set_start_scheduled_charging true r)
  \/ (SD.start_scheduled_charging r = false /\ r' = without_slot r).
Proof.
  destruct r as [en i o m [s0|] [e0|] q wh wd flag sen].
  all: unfold process_consumer, calculate_next_schedules, try_to_start_charging,
    start_scheduled_charging, reset_or_continue_charging,
    stop_scheduled_charging, reset_current_schedule,
    Controller.start_charging, Controller.stop_charging, Controller.charging,
    bind, read_rec, update_rec, record_call, get_schedules, set_schedules,
    lift, raise, ret, with_slot, without_slot.
  all: simpl.
  all: repeat (case_inner; simpl in *; simplify_eq).
  all: first
   [ left; reflexivity
   | right; left; reflexivity
   | right; right; left; eexists; reflexivity
   | right; right; right; left; eexists;
     split; [first [eassumption|reflexivity]|reflexivity]
   | do 4 right; left;
     (split; [reflexivity
             |split; [(left; reflexivity) || (right; reflexivity)|reflexivity]])
   | do 5 right; left; reflexivity
   | do 6 right; split; reflexivity ].
Qed.

Lemma process_consumer_invariant (e : env) (c : string) (r : SD.t)
    (sto : gmap string (list slot)) (cs : list call) :
  invariant r ->
  let r' := rec (process_consumer e c (St r sto cs)).1 in
  bounds_paired r'
  /\ (returned (Controller.dispatch e StartCharging (SD.output_source r) c) ->
      invariant r').
Proof.
  intros [Hb Hp] r'.
  pose proof (process_consumer_record_cases e c r sto cs) as Hcases.
  fold r' in Hcases. unfold invariant, bounds_paired, pending_has_no_slot,
    returned in *.
  destruct Hcases as
    [->|[->|[[first ->]|[[first [Hraised ->]]|[(Hflag & Hnone & ->)|[->|[Hflag ->]]]]]]];
    simpl; (split; [|intros Hret; split]); try tauto;
    try contradiction; intuition congruence.
Qed.

Lemma dispatch_returned (e : env) (cmd : command) (o c : string) :
  service_returns e cmd c = true -> returned (Controller.dispatch e cmd o c).
Proof.
  intros H. unfold returned, Controller.dispatch. rewrite H.
  destruct (String.eqb o Controller.GO_E); discriminate.
Qed.

(** What holds of every record before the loop and is kept by one
    consumer's processing holds of every record after the loop. *)
Lemma loop_records (P Q : SD.t -> Prop) (e : env) :
  (forall r, Q r -> P r) ->
  (forall c r sto cs, Q r -> P (rec (process_consumer e c (St r sto cs)).1)) ->
  forall (todo : list (string * SD.t)) (sto : gmap string (list slot))
         (cs : list call),
    Forall (fun kv => Q kv.2) todo ->
    Forall (fun kv => P kv.2) (consumers (loop e todo sto cs).1).
Proof.
  intros Hweak Hstep todo.
  induction todo as [|[c r] todo IH]; intros sto cs Hall; simpl.
  { constructor. }
  apply Forall_cons in Hall as [Hr Hall]. simpl in Hr.
  pose proof (Hstep c r sto cs Hr) as Hs.
  assert (Hrest : Forall (fun kv : string * SD.t => P kv.2) todo).
  { eapply Forall_impl; [exact Hall|]. intros kv. apply Hweak. }
  destruct (process_consumer e c (St r sto cs)) as [s [[|]|x]]; simpl in Hs.
  - specialize (IH (store s) (calls s) Hall).
    destruct (loop e todo (store s) (calls s)) as [w out]. simpl in *.
    by constructor.
  - simpl. by constructor.
  - simpl. by constructor.
Qed.

(** What one consumer's processing does to the two parts of the
    invariant, from any record whose slot bounds are paired. *)
Lemma process_consumer_pairing (e : env) (c : string) (r : SD.t)
    (sto : gmap string (list slot)) (cs : list call) :
  bounds_paired r ->
  let r' := rec (process_consumer e c (St r sto cs)).1 in
  bounds_paired r'
  /\ (pending_has_no_slot r ->
      returned (Controller.dispatch e StartCharging (SD.output_source r) c) ->
      pending_has_no_slot r')
  /\ (pending_has_no_slot r'
      \/ r' = r
      \/ (Controller.dispatch e StartCharging (SD.output_source r) c
          = Controller.Raised
          /\ exists first : slot, r' = with_slot first r)).
Proof.
  intros Hb r'.
  pose proof (process_consumer_record_cases e c r sto cs) as Hcases.
  fold r' in Hcases.
  unfold bounds_paired, pending_has_no_slot, returned in *.
  destruct Hcases as
    [->|[->|[[first ->]|[[first [Hraised ->]]|[(Hflag & Hnone & ->)|[->|[Hflag ->]]]]]]].
  - split; [exact Hb|]. split; [tauto|]. right. by left.
  - simpl. split; [exact Hb|]. split; [discriminate|]. left. discriminate.
  - simpl. split; [split; discriminate|].
    split; [discriminate|]. left. discriminate.
  - simpl. split; [split; discriminate|]. split; [contradiction|].
    right. right. split; [exact Hraised|]. by exists first.
  - simpl. split; [exact Hb|].
    assert (Hboth : SD.current_schedule_start r = None
                    /\ SD.current_schedule_end r = None) by tauto.
    split; [tauto|]. left. tauto.
  - simpl. split; [tauto|]. split; [tauto|]. left. tauto.
  - simpl. split; [tauto|]. rewrite Hflag.
    split; [discriminate|]. left. discriminate.
Qed.

(** What one tick keeps of every record, a run of ticks keeps. *)
Lemma ticks_records (P : SD.t -> Prop) (Q : env -> Prop) :
  (forall e c r sto cs,
     Q e -> P r -> P (rec (process_consumer e c (St r sto cs)).1)) ->
  forall (es : list env) (w : world),
    Forall Q es -> all_records P w -> all_records P (Run.ticks es w).
Proof.
  intros Hstep es. unfold Run.ticks.
  induction es as [|e es IH]; intros w HQ Hall; [exact Hall|].
  apply Forall_cons in HQ as [He HQ]. cbn [foldl]. apply IH; [exact HQ|].
  unfold all_records, fetch_states in *.
  apply (loop_records P P); [tauto| |exact Hall].
  intros c r sto cs. by apply Hstep.
Qed.

Lemma dict_set_Forall {V} (P : V -> Prop) (k : string) (v : V)
    (d : list (string * V)) :
  P v -> Forall (fun kv => P kv.2) d ->
  Forall (fun kv => P kv.2) (Calculations.dict_set k v d).
Proof.
  intros Hv. induction d as [|[k' v'] d IH]; intros Hall; simpl.
  { by repeat constructor. }
  apply Forall_cons in Hall as [Hk Hall].
  destruct (String.eqb k' k); constructor; auto.
Qed.

Lemma get_consumer_config_records (P : SD.t -> Prop) (t : datetime)
    (cfgs : list consumer_conf) :
  (forall c : consumer_conf, P (Calculations.consumer_record t t c)) ->
  Forall (fun kv : string * SD.t => P kv.2)
         (Calculations.get_consumer_config t cfgs).
Proof.
  intros HP. unfold Calculations.get_consumer_config.
  assert (H : forall acc : list (string * SD.t),
            Forall (fun kv : string * SD.t => P kv.2) acc ->
            Forall (fun kv : string * SD.t => P kv.2)
              (foldl (fun consumers c =>
                        Calculations.dict_set (conf_name c)
                          (Calculations.consumer_record t t c) consumers)
                     acc cfgs)).
  { induction cfgs as [|c cfgs IH]; intros acc Hacc; [exact Hacc|].
    cbn [foldl]. apply IH. by apply dict_set_Forall. }
  apply H. constructor.
Qed.

(** C7, as amended.  A freshly built record satisfies the invariant, and
    so does every record of the coordinator data at setup.  One
    consumer's processing keeps [currentScheduleStart == null] iff
    [currentScheduleEnd == null] whatever happens in it, and so does any
    run of ticks, failed calls included.  It keeps "[pendingRetry]
    implies both null" when no start command raises in it, so that part
    holds after every tick of a run in which no start command has raised.
    It can fail after a processing only if a start command raised in it,
    or if it failed before and the processing left the record as it
    was. *)
Theorem record_invariant :
  (forall (t t' : datetime) (c : consumer_conf),
     invariant (Calculations.consumer_record t t' c))
  /\ (forall (t : datetime) (cfgs : list consumer_conf)
             (sto : gmap string (list slot)) (cs : list call),
        all_records invariant
          (World (Calculations.get_consumer_config t cfgs) sto cs))
  /\ (forall (e : env) (c : string) (r : SD.t)
             (sto : gmap string (list slot)) (cs : list call),
        bounds_paired r ->
        let r' := rec (process_consumer e c (St r sto cs)).1 in
        bounds_paired r'
        /\ (pending_has_no_slot r ->
            returned (Controller.dispatch e StartCharging
                        (SD.output_source r) c) ->
            pending_has_no_slot r')
        /\ (pending_has_no_slot r'
            \/ r' = r
            \/ (Controller.dispatch e StartCharging (SD.output_source r) c
                = Controller.Raised
                /\ exists first : slot, r' = with_slot first r)))
  /\ (forall (es : list env) (w : world),
        all_records bounds_paired w ->
        all_records bounds_paired (Run.ticks es w))
  /\ (forall (es : list env) (w : world),
        all_records invariant w ->
        Forall (fun e : env =>
                  forall c : string, service_returns e StartCharging c = true)
               es ->
        all_records invariant (Run.ticks es w)).
Proof.
  assert (Hbuilt : forall (t t' : datetime) (c : consumer_conf),
            invariant (Calculations.consumer_record t t' c)).
  { intros t t' c. unfold invariant, bounds_paired, pending_has_no_slot.
    simpl. split; [tauto|discriminate]. }
  split; [exact Hbuilt|]. split; [|split; [|split]].
  - intros t cfgs sto cs. unfold all_records. cbn [consumers].
    apply get_consumer_config_records. intros c. apply Hbuilt.
  - intros e c r sto cs. apply process_consumer_pairing.
  - intros es w Hall.
    apply (ticks_records bounds_paired (fun _ => True)); [| |exact Hall].
    + intros e c r sto cs _ Hr.
      exact (proj1 (process_consumer_pairing e c r sto cs Hr)).
    + by apply Forall_true.
  - intros es w Hall Hret.
    apply (ticks_records invariant
             (fun e => forall c : string,
                         service_returns e StartCharging c = true));
      [|exact Hret|exact Hall].
    intros e c r sto cs He [Hb Hp].
    destruct (process_consumer_pairing e c r sto cs Hb) as (Hb' & Hp' & _).
    split; [exact Hb'|]. apply Hp'; [exact Hp|]. by apply dispatch_returned.
Qed.

Lemma record_invariant_witness :
  all_records invariant Sample.world0
  /\ all_records invariant Sample.world1
  /\ all_records bounds_paired Sample.world3.
Proof.
  destruct record_invariant as (_ & Hsetup & _ & Hpaired & Hkept).
  assert (H0 : all_records invariant Sample.world0) by apply Hsetup.
  split; [exact H0|]. split.
  - apply (Hkept [Sample.env_at (at_ 0 0 30) Const.CAR_IS_CHARGING
                    (Some (Sample.hourly 6)) Sample.always_returns]
                 Sample.world0 H0).
    repeat constructor.
  - apply (Hpaired
             [Sample.env_at (at_ 0 0 30) Const.CAR_IS_CHARGING
                (Some (Sample.hourly 6)) Sample.always_returns;
              Sample.env_at (at_ 0 0 40) Const.CHARGING_FINISHED
                (Some (Sample.hourly 6)) Sample.start_raises;
              Sample.env_at (at_ 0 0 50) Const.CHARGING_FINISHED
                (Some (Sample.hourly 6)) Sample.always_returns]
             Sample.world0).
    eapply Forall_impl; [exact H0|]. intros kv Hkv. apply Hkv.
Defined.

(** C7, as stated, fails in a run from setup.  The wallbox is set up at
    00:30 and found charging; the first tick stops it and sets
    [pendingRetry].  At 00:40 the device is READY and the clock is inside
    the cheapest slot (00:00-01:00); the start call raises, and the tick
    leaves [pendingRetry = true] together with a set
    [currentScheduleStart]. *)
Lemma failed_start_breaks_invariant :
  all_records invariant Sample.world0
  /\ all_records invariant Sample.world1
  /\ (exists r : SD.t,
        consumers Sample.world2 = [("wallbox", r)]
        /\ SD.start_scheduled_charging r = true
        /\ SD.current_schedule_start r = Some (at_ 0 0 0))
  /\ ~ all_records invariant Sample.world2.
Proof.
  assert (H2 : exists r : SD.t,
             consumers Sample.world2 = [("wallbox", r)]
             /\ SD.start_scheduled_charging r = true
             /\ SD.current_schedule_start r = Some (at_ 0 0 0)).
  { eexists. split; [vm_compute; reflexivity|]. split; reflexivity. }
  split; [|split; [|split; [exact H2|]]].
  - unfold all_records. vm_compute consumers.
    repeat constructor; simpl; try tauto; discriminate.
  - unfold all_records.
    assert (H1 : exists r, consumers Sample.world1 = [("wallbox", r)]
                 /\ SD.current_schedule_start r = None
                 /\ SD.current_schedule_end r = None).
    { eexists. split; [vm_compute; reflexivity|]. split; reflexivity. }
    destruct H1 as (r & -> & Hs & He).
    repeat constructor; simpl; tauto.
  - destruct H2 as (r & Hc & Hflag & Hs).
    unfold all_records. rewrite Hc. intros Hall.
    apply Forall_cons in Hall as [[_ Hp] _]. simpl in Hp.
    destruct (Hp Hflag) as [Hnone _]. congruence.
Qed.

(** After the failed start the record stays as it is while the device is
    READY outside the hour of the head slot: the third tick, in which no
    call is made at all, leaves [pendingRetry = true] with the slot
    set. *)
Lemma failed_start_state_persists :
  consumers Sample.world3 = consumers Sample.world2
  /\ issued Sample.world3 = issued Sample.world2
  /\ ~ all_records invariant Sample.world3.
Proof.
  assert (Hc : consumers Sample.world3 = consumers Sample.world2)
    by (vm_compute; reflexivity).
  split; [exact Hc|]. split; [vm_compute; reflexivity|].
  unfold all_records. rewrite Hc.
  assert (H2 : exists r : SD.t,
             consumers Sample.world2 = [("wallbox", r)]
             /\ SD.start_scheduled_charging r = true
             /\ SD.current_schedule_start r = Some (at_ 0 0 0)).
  { eexists. split; [vm_compute; reflexivity|]. split; reflexivity. }
  destruct H2 as (r & Hr & Hflag & Hs). rewrite Hr. intros Hall.
  apply Forall_cons in Hall as [[_ Hp] _]. simpl in Hp.
  destruct (Hp Hflag) as [Hnone _]. congruence.
Qed.

(** An enabled consumer whose schedule step gives the empty sequence
    leaves the loop. *)
Lemma empty_schedule_breaks (e : env) (c : string) (r : SD.t)
    (sto : gmap string (list slot)) (cs : list call) (s1 : st) :
  SD.enabled r = true -> SD.charging_schedules_enabled r = true ->
  calculate_next_schedules e (car_status_of e c) c (St r sto cs) = (s1, Ok []) ->
  process_consumer e c (St r sto cs) = (s1, Ok Break).
Proof.
  intros Hen Hsen Hcalc.
  unfold process_consumer, bind at 1, read_rec. simpl.
  rewrite Hen, Hsen. simpl. unfold bind at 1. rewrite Hcalc. reflexivity.
Qed.

(** After a [Break] the consumers still to visit are not processed: their
    records, the stored schedules and the controller are as the breaking
    consumer left them. *)
Lemma loop_break_skips_rest (e : env) (c : string) (r : SD.t)
    (todo : list (string * SD.t)) (sto : gmap string (list slot))
    (cs : list call) (s : st) :
  process_consumer e c (St r sto cs) = (s, Ok Break) ->
  loop e ((c, r) :: todo) sto cs
  = (World ((c, rec s) :: todo) (store s) (calls s), Ok tt).
Proof. intros H. simpl. rewrite H. reflexivity. Qed.

(** A tick over a single consumer is that consumer's processing. *)
Lemma fetch_states_single (e : env) (c : string) (r : SD.t)
    (sto : gmap string (list slot)) (cs : list call) :
  fetch_states e (World [(c, r)] sto cs)
  = let '(s, out) := process_consumer e c (St r sto cs) in
    (World [(c, rec s)] (store s) (calls s),
     match out with Ok _ => Ok tt | Raise x => Raise x end).
Proof.
  unfold fetch_states. simpl.
  destruct (process_consumer e c (St r sto cs)) as [s [[|]|x]]; reflexivity.
Qed.

(** C1 fails on the code.  Two consumers are set up together: a PRECISE
    heater with [hours_to_charge = 0], whose schedule refresh yields the
    empty sequence, and after it the SIMPLE wallbox, which is charging with
    no active slot, so that its decision is to issue a stop command.  The
    tick returns without visiting the wallbox: no command is issued and
    no schedule is stored for it.  With the two consumers in the other
    order the same tick stops the wallbox. *)
Theorem empty_schedule_halts_tick :
  let e := Sample.env_two in
  let w := World Sample.two_consumers ∅ [] in
  let stop := Call StopCharging Const.DOMAIN_GO_E_CHARGER "wallbox" in
  Sample.two_consumers
  = [("heater", Sample.heater); ("wallbox", Sample.built)]
  /\ (calculate_next_schedules e (car_status_of e "heater") "heater"
        (St Sample.heater ∅ [])).2 = Ok []
  /\ calls (process_consumer e "wallbox" (St Sample.built ∅ [])).1 = [stop]
  /\ (fetch_states e w).2 = Ok tt
  /\ consumers (fetch_states e w).1 = Sample.two_consumers
  /\ issued (fetch_states e w).1 = []
  /\ schedules_store (fetch_states e w).1 !! "wallbox" = None
  /\ issued (fetch_states e (World (reverse Sample.two_consumers) ∅ [])).1
     = [stop].
Proof. cbv zeta. repeat split; vm_compute; reflexivity. Qed.
End Scheduler.

Section Effects.
Import Time StateFetcher Spec Run.
#[local] Open Scope list_scope.

(** Unfold one consumer's processing and split on every test it makes. *)
Ltac run_consumer r :=
  destruct r as [? ? ? ? [?|] [?|] ? ? ? ? ?];
  unfold process_consumer, calculate_next_schedules, try_to_start_charging,
    start_scheduled_charging, reset_or_continue_charging,
    stop_scheduled_charging, reset_current_schedule,
    Controller.start_charging, Controller.stop_charging, Controller.charging,
    bind, read_rec, update_rec, record_call, get_schedules, set_schedules,
    lift, raise, ret;
  simpl;
  repeat (case_inner; simpl in *; simplify_eq).

Ltac use_list_equations :=
  repeat match goal with
         | H : _ = _ :: _ |- _ => progress rewrite H
         | H : _ = [] |- _ => progress rewrite H
         end.

(** The controller calls of one consumer's processing. *)
Lemma process_consumer_commands (e : env) (c : string) (r : SD.t)
    (sto : gmap string (list slot)) (cs : list call) :
  let s' := (process_consumer e c (St r sto cs)).1 in
  calls s' = cs
  \/ (SD.start_scheduled_charging r = false
      /\ calls s' = cs ++ [Call StopCharging (SD.output_source r) c])
  \/ (SD.start_scheduled_charging r = true
      /\ car_status_of e c = Const.CHARGING_FINISHED
      /\ calls s' = cs ++ [Call StartCharging (SD.output_source r) c]
      /\ exists first : slot,
           SD.current_schedule_start (rec s') = Some (start_time first)
           /\ start_time first < now e < start_time first + hours 1).
Proof.
  run_consumer r.
  all: try (left; reflexivity).
  all: try (right; left; split; reflexivity).
  all: right; right.
  all: repeat match goal with
       | H : (_ && _) = true |- _ => apply andb_prop in H as [? ?]
       | H : (_ =? _)%string = true |- _ => apply String.eqb_eq in H
       | H : (_ <? _) = true |- _ => apply Z.ltb_lt in H
       end.
  all: split; [reflexivity|split; [assumption|split; [reflexivity|]]].
  all: eexists; split; [reflexivity|split; assumption].
Qed.

(** One consumer's processing writes no other consumer's stored
    sequence. *)
Lemma process_consumer_store_other (e : env) (c c' : string) (r : SD.t)
    (sto : gmap string (list slot)) (cs : list call) :
  c' <> c ->
  store (process_consumer e c (St r sto cs)).1 !! c' = sto !! c'.
Proof.
  intros Hne. run_consumer r.
  all: rewrite ?lookup_insert_ne by congruence.
  all: reflexivity.
Qed.

Opaque find_forecast_dates.

(** The stored sequence one consumer's processing can leave behind: the
    old one, the old one without its head, or a fresh selection with or
    without its head. *)
Lemma process_consumer_stored (e : env) (c : string) (r : SD.t)
    (sto : gmap string (list slot)) (cs : list call) :
  let stored' := stored_of c (store (process_consumer e c (St r sto cs)).1) in
  stored' = stored_of c sto
  \/ stored' = tail (stored_of c sto)
  \/ (exists l : list slot,
        find_forecast_dates e (SD.current_cycle_charging_time_window_date r)
        = Ok l
        /\ (stored' = slice_to l (SD.current_cycle_hours_to_charge r)
            \/ stored' = tail (slice_to l (SD.current_cycle_hours_to_charge r)))).
Proof.
  unfold stored_of. run_consumer r.
  all: rewrite ?lookup_insert_eq.
  all: use_list_equations.
  all: simpl.
  all: try (left; reflexivity).
  all: try (right; left; reflexivity).
  all: right; right; eexists; (split; [reflexivity|]).
  all: use_list_equations.
  all: first [left; reflexivity | right; reflexivity].
Qed.

(** What one consumer's processing does depends on the stored schedules
    only through that consumer's own stored sequence, and on the earlier
    controller calls not at all. *)
Lemma process_consumer_local (e : env) (c : string) (r : SD.t)
    (sto1 sto2 : gmap string (list slot)) (cs1 cs2 : list call) :
  sto1 !! c = sto2 !! c ->
  let p1 := process_consumer e c (St r sto1 cs1) in
  let p2 := process_consumer e c (St r sto2 cs2) in
  rec p1.1 = rec p2.1
  /\ p1.2 = p2.2
  /\ store p1.1 !! c = store p2.1 !! c
  /\ exists new : list call, calls p1.1 = cs1 ++ new /\ calls p2.1 = cs2 ++ new.
Proof.
  intros Hsto.
  destruct r as [en i o m [s0|] [e0|] q wh wd flag sen].
  all: unfold process_consumer, calculate_next_schedules, try_to_start_charging,
    start_scheduled_charging, reset_or_continue_charging,
    stop_scheduled_charging, reset_current_schedule,
    Controller.start_charging, Controller.stop_charging, Controller.charging,
    bind, read_rec, update_rec, record_call, get_schedules, set_schedules,
    lift, raise, ret.
  all: simpl.
  all: repeat (first [progress rewrite Hsto | case_inner];
               simpl in *; simplify_eq).
  all: rewrite ?lookup_insert_eq.
  all: repeat split; try assumption.
  all: first [ exists []; rewrite !app_nil_r; split; reflexivity
             | eexists [_]; split; reflexivity ].
Qed.

Transparent find_forecast_dates.
End Effects.

Section Ticks.
Import Time StateFetcher Spec Run MainState.
#[local] Open Scope list_scope.

Lemma process_consumer_config (e : env) (c : string) (r : SD.t)
    (sto : gmap string (list slot)) (cs : list call) :
  config_of (rec (process_consumer e c (St r sto cs)).1) = config_of r.
Proof.
  pose proof (process_consumer_record_cases e c r sto cs) as Hcases.
  cbv zeta in Hcases.
  destruct Hcases as
    [->|[->|[[first ->]|[[first [_ ->]]|[(_ & _ & ->)|[->|[_ ->]]]]]]];
    reflexivity.
Qed.

(** The loop visits a prefix of the dictionary and rebuilds it entry by
    entry: the keys and their order never change. *)
Lemma loop_keys (e : env) (todo : list (string * SD.t))
    (sto : gmap string (list slot)) (cs : list call) :
  (consumers (loop e todo sto cs).1).*1 = todo.*1.
Proof.
  revert sto cs. induction todo as [|[c r] todo IH]; intros sto cs; simpl.
  { reflexivity. }
  destruct (process_consumer e c (St r sto cs)) as [s [[|]|x]]; simpl;
    try reflexivity.
  specialize (IH (store s) (calls s)).
  destruct (loop e todo (store s) (calls s)) as [w out]. csimpl in *.
  by rewrite IH.
Qed.

Lemma loop_config (e : env) (todo : list (string * SD.t))
    (sto : gmap string (list slot)) (cs : list call) :
  (fun kv : string * SD.t => (kv.1, config_of kv.2))
    <$> consumers (loop e todo sto cs).1
  = (fun kv : string * SD.t => (kv.1, config_of kv.2)) <$> todo.
Proof.
  revert sto cs. induction todo as [|[c r] todo IH]; intros sto cs; simpl.
  { reflexivity. }
  pose proof (process_consumer_config e c r sto cs) as Hc.
  destruct (process_consumer e c (St r sto cs)) as [s [[|]|x]]; csimpl in *;
    try (by rewrite Hc).
  specialize (IH (store s) (calls s)).
  destruct (loop e todo (store s) (calls s)) as [w out]. csimpl in *.
  by rewrite Hc, IH.
Qed.

Lemma loop_store_other (e : env) (c' : string) (todo : list (string * SD.t))
    (sto : gmap string (list slot)) (cs : list call) :
  c' ∉ todo.*1 ->
  schedules_store (loop e todo sto cs).1 !! c' = sto !! c'.
Proof.
  revert sto cs. induction todo as [|[c r] todo IH]; intros sto cs Hnot; simpl.
  { reflexivity. }
  simpl in Hnot. apply not_elem_of_cons in Hnot as [Hne Hnot].
  pose proof (process_consumer_store_other e c c' r sto cs Hne) as Hs.
  destruct (process_consumer e c (St r sto cs)) as [s [[|]|x]]; simpl in *;
    try exact Hs.
  specialize (IH (store s) (calls s) Hnot).
  destruct (loop e todo (store s) (calls s)) as [w out]. simpl in *.
  by rewrite IH.
Qed.

Lemma process_consumer_new_calls (e : env) (c : string) (r : SD.t)
    (sto : gmap string (list slot)) (cs : list call) :
  exists new : list call,
    calls (process_consumer e c (St r sto cs)).1 = cs ++ new
    /\ (length new <= 1)%nat
    /\ Forall (fun k => call_device_name k = c
                        /\ call_output_type k = SD.output_source r) new.
Proof.
  pose proof (process_consumer_commands e c r sto cs) as Hc. cbv zeta in Hc.
  destruct Hc as [->|[[_ ->]|(_ & _ & -> & _)]].
  - exists []. rewrite app_nil_r. repeat constructor.
  - eexists [_]. repeat constructor.
  - eexists [_]. repeat constructor.
Qed.

Lemma loop_calls (e : env) (todo : list (string * SD.t))
    (sto : gmap string (list slot)) (cs : list call) :
  exists new : list call,
    issued (loop e todo sto cs).1 = cs ++ new
    /\ (length new <= length todo)%nat
    /\ Forall (fun k => (call_device_name k, call_output_type k)
                        ∈ (fun kv : string * SD.t =>
                             (kv.1, SD.output_source kv.2)) <$> todo) new.
Proof.
  revert sto cs. induction todo as [|[c r] todo IH]; intros sto cs; simpl.
  { exists []. rewrite app_nil_r. repeat constructor. }
  destruct (process_consumer_new_calls e c r sto cs) as (n1 & Hn1 & Hl1 & Hf1).
  assert (Hf1' : Forall (fun k => (call_device_name k, call_output_type k)
                   ∈ (c, SD.output_source r)
                     :: ((fun kv : string * SD.t =>
                            (kv.1, SD.output_source kv.2)) <$> todo)) n1).
  { eapply Forall_impl; [exact Hf1|]. intros k [-> ->]. left. }
  destruct (process_consumer e c (St r sto cs)) as [s [[|]|x]]; simpl in *.
  - destruct (IH (store s) (calls s)) as (n2 & Hn2 & Hl2 & Hf2).
    destruct (loop e todo (store s) (calls s)) as [w out]. simpl in *.
    exists (n1 ++ n2). rewrite Hn2, Hn1, app_assoc. split; [reflexivity|].
    split; [rewrite length_app; lia|].
    apply Forall_app. split; [exact Hf1'|].
    eapply Forall_impl; [exact Hf2|]. intros k Hk. by right.
  - exists n1. split; [exact Hn1|]. split; [lia|exact Hf1'].
  - exists n1. split; [exact Hn1|]. split; [lia|exact Hf1'].
Qed.
Lemma dict_get_elem {V} (d : list (string * V)) (k : string) (v : V) :
  NoDup d.*1 -> (k, v) ∈ d -> dict_get k d = Some v.
Proof.
  induction d as [|[k' v'] d IH]; intros Hnd Hin.
  { by apply elem_of_nil in Hin. }
  csimpl in Hnd. apply NoDup_cons in Hnd as [Hk' Hnd]. simpl.
  apply elem_of_cons in Hin as [Heq|Hin].
  - injection Heq as -> ->. by rewrite String.eqb_refl.
  - destruct (String.eqb_spec k' k) as [->|_].
    + exfalso. apply Hk'. apply list_elem_of_fmap. by exists (k, v).
    + by apply IH.
Qed.

Lemma dict_get_Some_elem {V} (d : list (string * V)) (k : string) (v : V) :
  dict_get k d = Some v -> (k, v) ∈ d.
Proof.
  induction d as [|[k' v'] d IH]; simpl; [discriminate|].
  destruct (String.eqb_spec k' k) as [->|_].
  - intros [= ->]. left.
  - intros H. right. by apply IH.
Qed.

(** Inside a tick, a consumer either is not reached and keeps its record
    and stored sequence, or ends exactly as when it is processed alone. *)
Lemma loop_entry (e : env) (c : string) (r : SD.t) (todo : list (string * SD.t))
    (sto : gmap string (list slot)) (cs : list call) :
  NoDup todo.*1 -> (c, r) ∈ todo ->
  let w' := (loop e todo sto cs).1 in
  let alone := (process_consumer e c (St r sto [])).1 in
  (dict_get c (consumers w') = Some r
   /\ schedules_store w' !! c = sto !! c)
  \/ (dict_get c (consumers w') = Some (rec alone)
      /\ schedules_store w' !! c = store alone !! c).
Proof.
  revert sto cs.
  induction todo as [|[c0 r0] todo IH]; intros sto cs Hnd Hin.
  { by apply elem_of_nil in Hin. }
  csimpl in Hnd. apply NoDup_cons in Hnd as [Hc0 Hnd]. cbv zeta.
  destruct (decide (c0 = c)) as [->|Hne].
  - assert (r0 = r) as ->.
    { apply elem_of_cons in Hin as [Heq|Hin]; [congruence|].
      exfalso. apply Hc0. apply list_elem_of_fmap. by exists (c, r). }
    right.
    destruct (process_consumer_local e c r sto sto cs [] eq_refl)
      as (Hrec & _ & Hsto & _).
    simpl.
    destruct (process_consumer e c (St r sto cs)) as [s [[|]|x]]; simpl in *.
    + pose proof (loop_store_other e c todo (store s) (calls s) Hc0) as Hother.
      destruct (loop e todo (store s) (calls s)) as [w out]. simpl in *.
      rewrite String.eqb_refl, Hother. by rewrite Hrec, Hsto.
    + rewrite String.eqb_refl. by rewrite Hrec, Hsto.
    + rewrite String.eqb_refl. by rewrite Hrec, Hsto.
  - apply elem_of_cons in Hin as [Heq|Hin]; [congruence|].
    pose proof (process_consumer_store_other e c0 c r0 sto cs
                  (not_eq_sym Hne)) as Hkeep.
    simpl.
    destruct (process_consumer e c0 (St r0 sto cs)) as [s [[|]|x]] eqn:Hp;
      simpl in *.
    + specialize (IH (store s) (calls s) Hnd Hin). cbv zeta in IH.
      destruct (process_consumer_local e c r (store s) sto [] [] Hkeep)
        as (Hrec & _ & Hsto & _).
      destruct (loop e todo (store s) (calls s)) as [w out]. simpl in *.
      rewrite (proj2 (String.eqb_neq c0 c) Hne).
      destruct IH as [[Hr Hs]|[Hr Hs]].
      * left. split; [exact Hr|]. by rewrite Hs.
      * right. split; [by rewrite Hr, Hrec|]. by rewrite Hs, Hsto.
    + left. rewrite (proj2 (String.eqb_neq c0 c) Hne).
      split; [by apply dict_get_elem|exact Hkeep].
    + left. rewrite (proj2 (String.eqb_neq c0 c) Hne).
      split; [by apply dict_get_elem|exact Hkeep].
Qed.
End Ticks.

Section PendingStart.
Import Time StateFetcher Spec Run MainState.
#[local] Open Scope list_scope.

(** With a pending start and a non-empty stored sequence the schedule
    step keeps the stored sequence. *)
Lemma pending_keeps_stored (e : env) (c : string) (r : SD.t)
    (sto : gmap string (list slot)) (cs : list call)
    (first : slot) (rest : list slot) :
  SD.start_scheduled_charging r = true ->
  sto !! c = Some (first :: rest) ->
  calculate_next_schedules e (car_status_of e c) c (St r sto cs)
  = (St r sto cs, Ok (first :: rest)).
Proof.
  intros Hflag Hsto.
  rewrite calculate_next_schedules_keep.
  - by rewrite Hsto.
  - unfold refreshes. rewrite Hsto, Hflag. simpl.
    by rewrite andb_false_r.
Qed.

(** X1.  An enabled consumer with a pending start whose device reports
    anything but READY loses the pending start: [pendingRetry] becomes
    false, no command is issued, and the stored sequence and the rest of
    the record stay as they were. *)
Theorem pending_start_cancelled_unless_ready (e : env) (c : string) (r : SD.t)
    (sto : gmap string (list slot)) (cs : list call)
    (first : slot) (rest : list slot) :
  SD.enabled r = true -> SD.charging_schedules_enabled r = true ->
  SD.start_scheduled_charging r = true ->
  car_status_of e c <> Const.CHARGING_FINISHED ->
  sto !! c = Some (first :: rest) ->
  process_consumer e c (St r sto cs)
  = (St (SD.set_start_scheduled_charging false r) sto cs, Ok Next).
Proof.
  intros Hen Hsen Hflag Hstatus Hsto.
  unfold process_consumer, bind at 1, read_rec. simpl.
  rewrite Hen, Hsen, Hflag. simpl. unfold bind at 1.
  rewrite (pending_keeps_stored e c r sto cs first rest Hflag Hsto). simpl.
  unfold try_to_start_charging.
  rewrite (proj2 (String.eqb_neq _ _) Hstatus). reflexivity.
Qed.

Lemma pending_start_cancelled_unless_ready_witness :
  let e := Sample.env_at (at_ 0 1 30) Const.CAR_IS_CHARGING
             (Some (Sample.hourly 6)) Sample.always_returns in
  process_consumer e "wallbox" (St Sample.awaiting Sample.stored [])
  = (St (SD.set_start_scheduled_charging false Sample.awaiting)
        Sample.stored [], Ok Next).
Proof.
  intros e.
  apply (pending_start_cancelled_unless_ready e "wallbox" Sample.awaiting
           Sample.stored [] (Slot 51 (at_ 0 1 0)) [Slot 52 (at_ 0 2 0)]);
    try reflexivity.
  vm_compute. congruence.
Defined.

(** A pending start on a READY device whose head slot's hour does not
    strictly contain the clock changes nothing. *)
Lemma waits_step (e : env) (c : string) (r : SD.t)
    (sto : gmap string (list slot)) (cs : list call)
    (first : slot) (rest : list slot) :
  SD.start_scheduled_charging r = true ->
  car_status_of e c = Const.CHARGING_FINISHED ->
  sto !! c = Some (first :: rest) ->
  now e <= start_time first \/ start_time first + hours 1 <= now e ->
  process_consumer e c (St r sto cs) = (St r sto cs, Ok Next).
Proof.
  intros Hflag Hstatus Hsto Hout.
  unfold process_consumer, bind at 1, read_rec. simpl.
  destruct (SD.enabled r && SD.charging_schedules_enabled r); [|reflexivity].
  rewrite Hflag. unfold bind at 1.
  rewrite (pending_keeps_stored e c r sto cs first rest Hflag Hsto). simpl.
  unfold try_to_start_charging. rewrite Hstatus, String.eqb_refl.
  assert (Hno : (now e <? start_time first + hours 1)
                && (start_time first <? now e) = false).
  { apply andb_false_iff. rewrite !Z.ltb_ge. lia. }
  rewrite Hno. reflexivity.
Qed.

(** X2.  A consumer waiting to start whose head slot's hour is over (or
    has not begun) is left untouched for as long as its device stays
    READY: after any number of ticks, in any coordinator data, its record
    and its stored sequence are the ones it had, so a missed head slot is
    never dropped and the start never happens.  When it is the only
    consumer, nothing at all changes and no command is issued. *)
Theorem missed_slot_stalls (es : list env) (w : world) (c : string) (r : SD.t)
    (first : slot) (rest : list slot) :
  NoDup (consumers w).*1 ->
  dict_get c (consumers w) = Some r ->
  SD.start_scheduled_charging r = true ->
  schedules_store w !! c = Some (first :: rest) ->
  Forall (fun e => car_status_of e c = Const.CHARGING_FINISHED
                   /\ (now e <= start_time first
                       \/ start_time first + hours 1 <= now e)) es ->
  (dict_get c (consumers (ticks es w)) = Some r
   /\ schedules_store (ticks es w) !! c = Some (first :: rest))
  /\ (consumers w = [(c, r)] -> ticks es w = w).
Proof.
  intros Hnd Hget Hflag Hsto Hes.
  revert w Hnd Hget Hsto.
  induction Hes as [|e es [Hstatus Hout] _ IH]; intros w Hnd Hget Hsto.
  { simpl. by repeat split. }
  simpl.
  assert (Hstep : forall cs0,
            process_consumer e c (St r (schedules_store w) cs0)
            = (St r (schedules_store w) cs0, Ok Next)).
  { intros cs0. by apply (waits_step e c r _ cs0 first rest). }
  assert (Hkeep : dict_get c (consumers (fetch_states e w).1) = Some r
                  /\ schedules_store (fetch_states e w).1 !! c
                     = Some (first :: rest)).
  { unfold fetch_states.
    destruct (loop_entry e c r (consumers w) (schedules_store w) (issued w)
                Hnd (dict_get_Some_elem _ _ _ Hget)) as [[Hr Hs]|[Hr Hs]].
    - split; [exact Hr|by rewrite Hs].
    - rewrite Hstep in Hr, Hs. simpl in Hr, Hs.
      split; [exact Hr|by rewrite Hs]. }
  destruct Hkeep as [Hget' Hsto'].
  assert (Hnd' : NoDup (consumers (fetch_states e w).1).*1).
  { unfold fetch_states. by rewrite loop_keys. }
  destruct (IH _ Hnd' Hget' Hsto') as [Hgen Hone].
  split; [exact Hgen|].
  intros Hw.
  assert (Hfix : (fetch_states e w).1 = w).
  { destruct w as [d sto cs]. simpl in *. subst d.
    rewrite fetch_states_single, Hstep. reflexivity. }
  rewrite Hfix in Hone |- *. by apply Hone.
Qed.

Lemma missed_slot_stalls_witness :
  let late := Sample.env_at (at_ 0 2 30) Const.CHARGING_FINISHED
                (Some (Sample.hourly 6)) Sample.always_returns in
  let w := World [("wallbox", Sample.awaiting)] Sample.stored [] in
  ticks [late; late; late] w = w.
Proof.
  intros late w.
  assert (Hlate : car_status_of late "wallbox" = Const.CHARGING_FINISHED
                  /\ (now late <= at_ 0 1 0 \/ at_ 0 1 0 + hours 1 <= now late)).
  { split; [reflexivity|]. right. vm_compute. congruence. }
  destruct (missed_slot_stalls [late; late; late] w "wallbox" Sample.awaiting
              (Slot 51 (at_ 0 1 0)) [Slot 52 (at_ 0 2 0)])
    as [_ Hone].
  - simpl. apply NoDup_singleton.
  - reflexivity.
  - reflexivity.
  - reflexivity.
  - repeat (apply Forall_cons; split; [exact Hlate|]). apply Forall_nil_2.
  - apply Hone. reflexivity.
Defined.

(** X3.  The two phases never collapse into one tick.  Whatever the
    state, one consumer's processing issues a start command only if the
    consumer entered the tick with [pendingRetry] true, its device is
    READY and the clock is strictly inside the hour of the slot the record
    now holds; it issues a stop command only if [pendingRetry] was
    false. *)
Theorem start_needs_pending_ready_and_hour (e : env) (c : string) (r : SD.t)
    (sto : gmap string (list slot)) (cs new : list call) (k : call) :
  let s' := (process_consumer e c (St r sto cs)).1 in
  calls s' = cs ++ new -> k ∈ new ->
  (call_command k = StartCharging ->
   SD.start_scheduled_charging r = true
   /\ car_status_of e c = Const.CHARGING_FINISHED
   /\ exists first : slot,
        SD.current_schedule_start (rec s') = Some (start_time first)
        /\ start_time first < now e < start_time first + hours 1)
  /\ (call_command k = StopCharging -> SD.start_scheduled_charging r = false).
Proof.
  intros s' Hnew Hk.
  pose proof (process_consumer_commands e c r sto cs) as Hc.
  cbv zeta in Hc. fold s' in Hc.
  destruct Hc as [Hc|[[Hflag Hc]|(Hflag & Hstatus & Hc & Hslot)]];
    rewrite Hnew in Hc.
  - rewrite <- (app_nil_r cs) in Hc at 2. apply app_inv_head in Hc. subst new.
    by apply elem_of_nil in Hk.
  - apply app_inv_head in Hc. subst new.
    apply list_elem_of_singleton in Hk. subst k. simpl.
    split; [discriminate|intros _; exact Hflag].
  - apply app_inv_head in Hc. subst new.
    apply list_elem_of_singleton in Hk. subst k. simpl.
    split; [intros _; by repeat split|discriminate].
Qed.

Lemma start_needs_pending_ready_and_hour_witness :
  let e := Sample.env_at (at_ 0 1 30) Const.CHARGING_FINISHED
             (Some (Sample.hourly 6)) Sample.always_returns in
  SD.start_scheduled_charging Sample.awaiting = true
  /\ car_status_of e "wallbox" = Const.CHARGING_FINISHED.
Proof.
  intros e.
  destruct (start_needs_pending_ready_and_hour e "wallbox" Sample.awaiting
              Sample.stored []
              [Call StartCharging Const.DOMAIN_GO_E_CHARGER "wallbox"]
              (Call StartCharging Const.DOMAIN_GO_E_CHARGER "wallbox"))
    as [Hstart _]; [vm_compute; reflexivity | left |].
  destruct (Hstart eq_refl) as (Hflag & Hstatus & _). by split.
Defined.

(** The new controller calls of the loop, matched one to one, in order,
    with consumers it went through. *)
Lemma loop_calls_addressed (e : env) (todo : list (string * SD.t))
    (sto : gmap string (list slot)) (cs : list call) :
  exists (addressed : list (string * SD.t)) (new : list call),
    issued (loop e todo sto cs).1 = cs ++ new
    /\ addressed `sublist_of` todo
    /\ Forall2 (fun (k : call) (kv : string * SD.t) =>
                  call_device_name k = kv.1
                  /\ call_output_type k = SD.output_source kv.2)
               new addressed.
Proof.
  revert sto cs. induction todo as [|[c r] todo IH]; intros sto cs; simpl.
  { exists [], []. rewrite app_nil_r. by repeat constructor. }
  destruct (process_consumer_new_calls e c r sto cs) as (n1 & Hn1 & Hl1 & Hf1).
  assert (Hhead : exists v1 : list (string * SD.t),
            v1 `sublist_of` [(c, r)]
            /\ Forall2 (fun (k : call) (kv : string * SD.t) =>
                          call_device_name k = kv.1
                          /\ call_output_type k = SD.output_source kv.2)
                       n1 v1).
  { destruct n1 as [|k [|k' n1]]; simpl in Hl1; [| |lia].
    - exists []. split; [apply sublist_nil_l|constructor].
    - exists [(c, r)]. split; [reflexivity|].
      apply Forall_cons in Hf1 as [[Hk1 Hk2] _]. by repeat constructor. }
  destruct Hhead as (v1 & Hv1 & Hf2).
  destruct (process_consumer e c (St r sto cs)) as [s [[|]|x]]; simpl in *.
  - destruct (IH (store s) (calls s)) as (v2 & n2 & Hn2 & Hv2 & Hf3).
    destruct (loop e todo (store s) (calls s)) as [w out]. simpl in *.
    exists (v1 ++ v2), (n1 ++ n2). rewrite Hn2, Hn1, app_assoc.
    split; [reflexivity|]. split.
    + change ((c, r) :: todo) with ([(c, r)] ++ todo).
      by apply sublist_app.
    + by apply Forall2_app.
  - exists v1, n1. split; [exact Hn1|]. split; [|exact Hf2].
    change ((c, r) :: todo) with ([(c, r)] ++ todo).
    by apply sublist_inserts_r.
  - exists v1, n1. split; [exact Hn1|]. split; [|exact Hf2].
    change ((c, r) :: todo) with ([(c, r)] ++ todo).
    by apply sublist_inserts_r.
Qed.

(** X4.  A tick issues at most one command per consumer of the
    coordinator data.  The calls made before the tick are kept, and the
    new ones match, one to one and in order, consumers picked from the
    data without repetition (a sublist of them): each is addressed to its
    consumer through that consumer's output source.  As the names of the
    data are distinct, no two new commands go to the same consumer. *)
Theorem at_most_one_command_per_consumer (e : env) (w : world) :
  exists (addressed : list (string * SD.t)) (new : list call),
    issued (fetch_states e w).1 = issued w ++ new
    /\ addressed `sublist_of` consumers w
    /\ Forall2 (fun (k : call) (kv : string * SD.t) =>
                  call_device_name k = kv.1
                  /\ call_output_type k = SD.output_source kv.2)
               new addressed
    /\ (NoDup (consumers w).*1 -> NoDup (call_device_name <$> new)).
Proof.
  unfold fetch_states.
  destruct (loop_calls_addressed e (consumers w) (schedules_store w) (issued w))
    as (addressed & new & Hnew & Hsub & Hall).
  exists addressed, new. split; [exact Hnew|]. split; [exact Hsub|].
  split; [exact Hall|]. intros Hnd.
  assert (Hnames : call_device_name <$> new = addressed.*1).
  { clear Hnew Hsub. induction Hall as [|k kv new addressed [Hk _] _ IH];
      [reflexivity|]. csimpl. by rewrite Hk, IH. }
  rewrite Hnames. apply (sublist_NoDup _ _ Hnd). by apply fmap_sublist.
Qed.

Lemma at_most_one_command_per_consumer_witness :
  exists (addressed : list (string * SD.t)) (new : list call),
    issued (fetch_states Sample.env_two
              (World (reverse Sample.two_consumers) ∅ [])).1 = [] ++ new
    /\ NoDup (call_device_name <$> new).
Proof.
  destruct (at_most_one_command_per_consumer Sample.env_two
              (World (reverse Sample.two_consumers) ∅ []))
    as (addressed & new & Hnew & _ & _ & Hnd).
  exists addressed, new. split; [exact Hnew|]. apply Hnd.
  apply (bool_decide_unpack _). vm_compute. reflexivity.
Defined.
End PendingStart.

Section TickInvariants.
Import Time StateFetcher Spec Run MainState.
#[local] Open Scope list_scope.

(** X5.  Ticks never touch what came from the configuration: after any
    number of ticks the coordinator data has the same consumers in the
    same order, each with the enabled flags, sources, mode, quota, window
    hours and window deadline it had.  In particular the deadline computed
    at setup is never moved. *)
Theorem ticks_keep_configuration (es : list env) (w : world) :
  (fun kv : string * SD.t => (kv.1, config_of kv.2)) <$> consumers (ticks es w)
  = (fun kv : string * SD.t => (kv.1, config_of kv.2)) <$> consumers w.
Proof.
  revert w. induction es as [|e es IH]; intros w; simpl; [reflexivity|].
  rewrite IH. unfold fetch_states. apply loop_config.
Qed.

Lemma find_forecast_dates_sorted (e : env) (d : option datetime)
    (l : list slot) :
  find_forecast_dates e d = Ok l -> StronglySorted key_le l.
Proof.
  unfold find_forecast_dates.
  destruct (forecast e) as [entries|]; [|intros [= <-]; constructor].
  destruct d as [d|].
  - intros [= <-]. apply sorted_strongly.
  - destruct entries; [intros [= <-]; constructor|discriminate].
Qed.

Lemma slice_to_prefix (l : list slot) (q : option Z) :
  slice_to l q `prefix_of` l.
Proof.
  unfold slice_to. destruct q as [k|]; [|reflexivity].
  destruct (0 <=? k); apply prefix_take.
Qed.

Lemma prefix_strongly_sorted (l1 l2 : list slot) :
  l1 `prefix_of` l2 -> StronglySorted key_le l2 -> StronglySorted key_le l1.
Proof. intros [k ->] H. by apply StronglySorted_app_1_l in H. Qed.

Lemma tail_strongly_sorted (l : list slot) :
  StronglySorted key_le l -> StronglySorted key_le (tail l).
Proof. destruct l; simpl; [done|]. by inversion 1. Qed.

Lemma process_consumer_sorted (e : env) (c : string) (r : SD.t)
    (sto : gmap string (list slot)) (cs : list call) :
  all_stored_sorted sto ->
  all_stored_sorted (store (process_consumer e c (St r sto cs)).1).
Proof.
  intros Hall k. destruct (decide (k = c)) as [->|Hne].
  - pose proof (process_consumer_stored e c r sto cs) as Hc. cbv zeta in Hc.
    destruct Hc as [->|[->|(l & Hl & [->| ->])]].
    + apply Hall.
    + apply tail_strongly_sorted, Hall.
    + eapply prefix_strongly_sorted; [apply slice_to_prefix|].
      by eapply find_forecast_dates_sorted.
    + apply tail_strongly_sorted.
      eapply prefix_strongly_sorted; [apply slice_to_prefix|].
      by eapply find_forecast_dates_sorted.
  - unfold stored_of. rewrite process_consumer_store_other by exact Hne.
    apply Hall.
Qed.

Lemma loop_sorted (e : env) (todo : list (string * SD.t))
    (sto : gmap string (list slot)) (cs : list call) :
  all_stored_sorted sto ->
  all_stored_sorted (schedules_store (loop e todo sto cs).1).
Proof.
  revert sto cs. induction todo as [|[c r] todo IH]; intros sto cs Hall; simpl.
  { exact Hall. }
  pose proof (process_consumer_sorted e c r sto cs Hall) as Hs.
  destruct (process_consumer e c (St r sto cs)) as [s [[|]|x]]; simpl in *;
    try exact Hs.
  specialize (IH (store s) (calls s) Hs).
  by destruct (loop e todo (store s) (calls s)) as [w out].
Qed.

(** X6.  Stored slot sequences stay in consumption order: if every stored
    sequence is sorted ascending by (price, start time) before a run of
    ticks, every stored sequence is sorted after it, whatever the
    forecasts, statuses and failures in between.  Nothing is stored at
    setup, so this holds of every run. *)
Theorem stored_sequences_stay_sorted (es : list env) (w : world) :
  (forall k : string,
     StronglySorted key_le (stored_of k (schedules_store w))) ->
  forall k : string,
    StronglySorted key_le (stored_of k (schedules_store (ticks es w))).
Proof.
  revert w. induction es as [|e es IH]; intros w Hall; simpl; [exact Hall|].
  apply IH. unfold fetch_states. by apply loop_sorted.
Qed.

Lemma stored_sequences_stay_sorted_witness :
  StronglySorted key_le
    (stored_of "wallbox"
       (schedules_store
          (ticks [Sample.env_two; Sample.env_two] Sample.world0))).
Proof.
  apply (stored_sequences_stay_sorted [Sample.env_two; Sample.env_two]
           Sample.world0).
  intros k. unfold stored_of. simpl. rewrite lookup_empty. constructor.
Defined.

Lemma find_forecast_dates_in_window (e : env) (d : datetime) (l : list slot) :
  find_forecast_dates e (Some d) = Ok l ->
  Forall (fun s => start_time s <= d) l.
Proof.
  rewrite find_forecast_dates_eligible. intros [= <-].
  rewrite sorted_perm. apply eligible_in_window.
Qed.

Lemma slice_to_length (l : list slot) (q : Z) :
  0 <= q -> Z.of_nat (length (slice_to l (Some q))) <= q.
Proof.
  intros Hq. unfold slice_to. rewrite (proj2 (Z.leb_le 0 q) Hq).
  rewrite length_take. lia.
Qed.

(** X7.  One consumer's processing never stores a slot that starts after
    the consumer's deadline, nor more slots than its quota: if the stored
    sequence is within the deadline and no longer than the (non-negative)
    quota before, it is so after. *)
Theorem stored_sequence_within_window_and_quota (e : env) (c : string)
    (r : SD.t) (sto : gmap string (list slot)) (cs : list call)
    (d : datetime) (q : Z) :
  SD.current_cycle_charging_time_window_date r = Some d ->
  SD.current_cycle_hours_to_charge r = Some q -> 0 <= q ->
  Forall (fun s => start_time s <= d) (stored_of c sto) ->
  Z.of_nat (length (stored_of c sto)) <= q ->
  let stored' := stored_of c (store (process_consumer e c (St r sto cs)).1) in
  Forall (fun s => start_time s <= d) stored'
  /\ Z.of_nat (length stored') <= q.
Proof.
  intros Hd Hq Hq0 Hwin Hlen.
  pose proof (process_consumer_stored e c r sto cs) as Hc. cbv zeta in Hc.
  rewrite Hd, Hq in Hc. cbv zeta.
  assert (Htail : forall l : list slot,
            Forall (fun s => start_time s <= d) l ->
            Z.of_nat (length l) <= q ->
            Forall (fun s => start_time s <= d) (tail l)
            /\ Z.of_nat (length (tail l)) <= q).
  { intros [|x l] Hf Hl; simpl in *; [by split|].
    apply Forall_cons in Hf as [_ Hf]. split; [exact Hf|lia]. }
  assert (Hsel : forall l : list slot,
            find_forecast_dates e (Some d) = Ok l ->
            Forall (fun s => start_time s <= d) (slice_to l (Some q))
            /\ Z.of_nat (length (slice_to l (Some q))) <= q).
  { intros l Hl. split; [|by apply slice_to_length].
    destruct (slice_to_prefix l (Some q)) as [k Hk].
    pose proof (find_forecast_dates_in_window e d l Hl) as Hf.
    rewrite Hk in Hf. by apply Forall_app in Hf as [Hf _]. }
  destruct Hc as [->|[->|(l & Hl & [->| ->])]].
  - by split.
  - by apply Htail.
  - by apply Hsel.
  - destruct (Hsel l Hl). by apply Htail.
Qed.

Lemma stored_sequence_within_window_and_quota_witness :
  Z.of_nat
    (length
       (stored_of "wallbox"
          (store (process_consumer Sample.env_two "wallbox"
                    (St Sample.built ∅ [])).1))) <= 4.
Proof.
  apply (stored_sequence_within_window_and_quota Sample.env_two "wallbox"
           Sample.built ∅ [] (at_ 1 7 0) 4).
  - vm_compute. reflexivity.
  - reflexivity.
  - lia.
  - unfold stored_of. rewrite lookup_empty. constructor.
  - unfold stored_of. rewrite lookup_empty. simpl. lia.
Defined.
End TickInvariants.

Section TickEdges.
Import Time StateFetcher Spec Run MainState.
#[local] Open Scope list_scope.

Lemma disabled_step (e : env) (c : string) (s : st) :
  SD.enabled (rec s) && SD.charging_schedules_enabled (rec s) = false ->
  process_consumer e c s = (s, Ok Next).
Proof.
  intros H. unfold process_consumer, bind at 1, read_rec. simpl.
  rewrite H. reflexivity.
Qed.

(** X8.  The two switches of a consumer take it out of scheduling
    entirely: a consumer with [enabled] or [charging_schedules.enabled]
    off keeps its record and its stored sequence through a tick, whatever
    its device reports, and a tick over consumers that are all switched
    off returns the coordinator data, the stored schedules and the
    controller untouched. *)
Theorem switched_off_consumers_are_skipped (e : env) (w : world) :
  (forall (c : string) (r : SD.t),
     NoDup (consumers w).*1 -> (c, r) ∈ consumers w ->
     SD.enabled r && SD.charging_schedules_enabled r = false ->
     dict_get c (consumers (fetch_states e w).1) = Some r
     /\ schedules_store (fetch_states e w).1 !! c = schedules_store w !! c)
  /\ (Forall (fun kv : string * SD.t =>
                SD.enabled kv.2 && SD.charging_schedules_enabled kv.2 = false)
             (consumers w) ->
      fetch_states e w = (w, Ok tt)).
Proof.
  split.
  - intros c r Hnd Hin Hoff. unfold fetch_states.
    destruct (loop_entry e c r (consumers w) (schedules_store w) (issued w)
                Hnd Hin) as [[Hr Hs]|[Hr Hs]]; [by split|].
    rewrite (disabled_step e c (St r (schedules_store w) []) Hoff) in Hr, Hs.
    by split.
  - destruct w as [d sto cs]. unfold fetch_states. simpl.
    induction d as [|[c r] d IH]; intros Hall; [reflexivity|].
    apply Forall_cons in Hall as [Hoff Hall]. simpl in *.
    rewrite (disabled_step e c (St r sto cs) Hoff). simpl.
    by rewrite (IH Hall).
Qed.

Lemma switched_off_consumers_are_skipped_witness :
  let off := SD.Make false "smartenergy_awattar" Const.DOMAIN_GO_E_CHARGER
               (Some Const.SIMPLE) None None (Some 4) (Some 6)
               (Some (at_ 1 7 0)) false true in
  let w := World [("wallbox", off)] ∅ [] in
  fetch_states Sample.env_two w = (w, Ok tt).
Proof.
  intros off w.
  destruct (switched_off_consumers_are_skipped Sample.env_two w) as [_ Hall].
  apply Hall. repeat constructor.
Defined.

Lemma slice_to_nil (q : option Z) : slice_to [] q = [].
Proof.
  unfold slice_to. destruct q as [k|]; [|reflexivity].
  destruct (0 <=? k); apply take_nil.
Qed.

(** X9.  With the forecast unavailable and nothing stored for it, an
    enabled consumer gets no decision at all, whatever its device status
    and state, deadline or no deadline: its record is unchanged, no
    command is issued, the empty sequence is stored for it, and the tick
    ends there, leaving the consumers after it unvisited. *)
Theorem unavailable_forecast_ends_the_tick (e : env) (c : string) (r : SD.t)
    (todo : list (string * SD.t)) (sto : gmap string (list slot))
    (cs : list call) :
  SD.enabled r = true -> SD.charging_schedules_enabled r = true ->
  forecast e = None ->
  stored_of c sto = [] ->
  process_consumer e c (St r sto cs) = (St r (<[c := []]> sto) cs, Ok Break)
  /\ loop e ((c, r) :: todo) sto cs
     = (World ((c, r) :: todo) (<[c := []]> sto) cs, Ok tt).
Proof.
  intros Hen Hsen Hfc Hsto.
  assert (Hp : process_consumer e c (St r sto cs)
               = (St r (<[c := []]> sto) cs, Ok Break)).
  { apply empty_schedule_breaks; [exact Hen|exact Hsen|].
    unfold calculate_next_schedules, bind, read_rec, get_schedules, lift,
      set_schedules, ret. simpl.
    unfold stored_of in Hsto. rewrite Hsto. simpl. rewrite orb_true_r.
    unfold find_forecast_dates. rewrite Hfc. by rewrite slice_to_nil. }
  split; [exact Hp|].
  by rewrite (loop_break_skips_rest e c r todo sto cs _ Hp).
Qed.

Lemma unavailable_forecast_ends_the_tick_witness :
  let e := Sample.env_at (at_ 0 0 30) Const.CAR_IS_CHARGING None
             Sample.always_returns in
  process_consumer e "wallbox" (St Sample.built ∅ [])
  = (St Sample.built (<["wallbox" := []]> ∅) [], Ok Break).
Proof.
  intros e.
  destruct (unavailable_forecast_ends_the_tick e "wallbox" Sample.built []
              ∅ []) as [Hp _];
    [reflexivity | reflexivity | reflexivity | reflexivity |].
  exact Hp.
Defined.

(** X10.  A consumer without a deadline cannot be scheduled against a
    forecast: a non-SIMPLE consumer configured with no (or zero)
    [charging_time_window_hours] gets the deadline [None], and whenever
    such a consumer's schedule is refreshed against a forecast with at
    least one entry, the comparison of a start time with [None] raises
    [TypeError]; the exception leaves the loop with the record, the stored
    schedules and the controller as they were and the following consumers
    unvisited. *)
Theorem missing_deadline_raises (e : env) (c : string) (r : SD.t)
    (todo : list (string * SD.t)) (sto : gmap string (list slot))
    (cs : list call) (x : forecast_entry) (xs : list forecast_entry) :
  SD.enabled r = true -> SD.charging_schedules_enabled r = true ->
  SD.current_cycle_charging_time_window_date r = None ->
  forecast e = Some (x :: xs) ->
  refreshes (car_status_of e c) r (stored_of c sto) = true ->
  process_consumer e c (St r sto cs) = (St r sto cs, Raise TypeError)
  /\ loop e ((c, r) :: todo) sto cs
     = (World ((c, r) :: todo) sto cs, Raise TypeError)
  /\ (forall (t t' : datetime) (conf : consumer_conf),
        Calculations.is_simple (conf_smart_energy_mode conf) = false ->
        conf_charging_time_window_hours conf = None
        \/ conf_charging_time_window_hours conf = Some 0 ->
        SD.current_cycle_charging_time_window_date
          (Calculations.consumer_record t t' conf) = None).
Proof.
  intros Hen Hsen Hd Hfc Hre.
  assert (Hp : process_consumer e c (St r sto cs)
               = (St r sto cs, Raise TypeError)).
  { unfold process_consumer, bind at 1, read_rec. simpl.
    rewrite Hen, Hsen. simpl. unfold bind at 1.
    unfold calculate_next_schedules, bind, read_rec, get_schedules, lift.
    simpl. unfold refreshes, stored_of in Hre. rewrite Hre, Hd.
    unfold find_forecast_dates. rewrite Hfc. reflexivity. }
  split; [exact Hp|]. split.
  - simpl. rewrite Hp. reflexivity.
  - intros t t' conf Hmode Hw.
    unfold Calculations.consumer_record, Calculations.calculate_next_time_window.
    simpl. rewrite Hmode. by destruct Hw as [-> | ->].
Qed.

Lemma missing_deadline_raises_witness :
  let r := Calculations.consumer_record (at_ 0 0 30) (at_ 0 0 30)
             (Sample.precise_conf "heater" (Some 2) None) in
  process_consumer Sample.env_two "heater" (St r ∅ [])
  = (St r ∅ [], Raise TypeError).
Proof.
  intros r.
  destruct (missing_deadline_raises Sample.env_two "heater" r [] ∅ []
              (ForecastEntry 50 (at_ 0 0 0))
              (tail (Sample.hourly 6)))
    as [Hp _];
    [reflexivity | reflexivity | reflexivity | reflexivity | reflexivity |].
  exact Hp.
Defined.



End TickEdges.

Section Lifecycle.
Import Time StateFetcher Spec Run MainState.
#[local] Open Scope list_scope.

(** An active slot that has not expired, on a charging device with
    slots still stored: nothing changes. *)
Lemma continue_full (e : env) (c : string) (r : SD.t)
    (sto : gmap string (list slot)) (cs : list call)
    (x : slot) (xs : list slot) (s0 e0 : datetime) :
  SD.start_scheduled_charging r = false ->
  car_status_of e c = Const.CAR_IS_CHARGING ->
  SD.current_schedule_start r = Some s0 ->
  SD.current_schedule_end r = Some e0 ->
  now e <= e0 ->
  sto !! c = Some (x :: xs) ->
  process_consumer e c (St r sto cs) = (St r sto cs, Ok Next).
Proof.
  intros Hflag Hstatus Hs He Hnow Hsto.
  unfold process_consumer, bind at 1, read_rec. simpl.
  destruct (SD.enabled r && SD.charging_schedules_enabled r); [|reflexivity].
  rewrite Hflag. unfold bind at 1.
  rewrite calculate_next_schedules_keep; cycle 1.
  { unfold refreshes. by rewrite Hstatus, Hsto, String.eqb_refl. }
  rewrite Hsto, Hstatus. simpl.
  unfold bind, read_rec, reset_or_continue_charging. simpl.
  rewrite Hs, He. simpl. unfold bind, read_rec. simpl.
  by rewrite He, (proj2 (Z.ltb_ge _ _) Hnow).
Qed.

(** X12.  The life of one slot, over four ticks of a consumer that is
    alone in the coordinator data, idle, with nothing stored, and whose
    selection holds at least two slots.  Found charging, it is stopped and
    marked pending while the selection is stored.  READY inside the first
    slot's hour, it is started, the slot becomes active and leaves the
    stored sequence.  Charging until the slot's end, it is left alone.
    Charging after the end, it is stopped, the slot is cleared and the
    consumer is pending again with the rest of the selection.  The
    controller has received stop, start, stop, in this order. *)
Theorem slot_lifecycle (e1 e2 e3 e4 : env) (c : string) (r : SD.t)
    (sto : gmap string (list slot)) (cs : list call) (d : datetime)
    (first second : slot) (rest : list slot) :
  SD.enabled r = true -> SD.charging_schedules_enabled r = true ->
  SD.start_scheduled_charging r = false ->
  SD.current_schedule_start r = None -> SD.current_schedule_end r = None ->
  SD.current_cycle_charging_time_window_date r = Some d ->
  stored_of c sto = [] ->
  selection e1 (Some d) (SD.current_cycle_hours_to_charge r)
  = Ok (first :: second :: rest) ->
  car_status_of e1 c = Const.CAR_IS_CHARGING ->
  car_status_of e2 c = Const.CHARGING_FINISHED ->
  start_time first < now e2 < start_time first + hours 1 ->
  car_status_of e3 c = Const.CAR_IS_CHARGING ->
  now e3 <= start_time first + hours 1 ->
  car_status_of e4 c = Const.CAR_IS_CHARGING ->
  start_time first + hours 1 < now e4 ->
  returned (Controller.dispatch e1 StopCharging (SD.output_source r) c) ->
  returned (Controller.dispatch e2 StartCharging (SD.output_source r) c) ->
  returned (Controller.dispatch e4 StopCharging (SD.output_source r) c) ->
  let o := SD.output_source r in
  let w := World [(c, r)] sto cs in
  ticks [e1] w
  = World [(c, SD.set_start_scheduled_charging true r)]
          (<[c := first :: second :: rest]> sto)
          (cs ++ [Call StopCharging o c])
  /\ ticks [e1; e2] w
     = World [(c, with_slot first r)]
             (<[c := second :: rest]> sto)
             (cs ++ [Call StopCharging o c; Call StartCharging o c])
  /\ ticks [e1; e2; e3] w = ticks [e1; e2] w
  /\ ticks [e1; e2; e3; e4] w
     = World [(c, SD.set_start_scheduled_charging true r)]
             (<[c := second :: rest]> sto)
             (cs ++ [Call StopCharging o c; Call StartCharging o c;
                     Call StopCharging o c]).
Proof.
  intros Hen Hsen Hflag Hs He Hd Hsto Hsel Hst1 Hst2 Hnow2 Hst3 Hnow3
    Hst4 Hnow4 Hret1 Hret2 Hret4 o w.
  unfold returned in Hret1, Hret2, Hret4.
  unfold o in *. clear o. set (o := SD.output_source r) in *.
  set (sel := first :: second :: rest).
  set (r1 := SD.set_start_scheduled_charging true r).
  set (r2 := with_slot first r).
  (* tick 1 *)
  assert (H1 : (fetch_states e1 w).1
               = World [(c, r1)] (<[c := sel]> sto)
                       (cs ++ [Call StopCharging o c])).
  { unfold w. rewrite fetch_states_single.
    assert (Hcalc : calculate_next_schedules e1 (car_status_of e1 c) c
                      (St r sto cs)
                    = (St r (<[c := sel]> sto) cs, Ok sel)).
    { rewrite selection_Some in Hsel. injection Hsel as Hsel.
      rewrite (calculate_next_schedules_refresh e1 _ c r sto cs d Hd).
      - by rewrite Hsel.
      - unfold refreshes. unfold stored_of in Hsto. rewrite Hsto. simpl.
        apply orb_true_r. }
    rewrite (idle_charging_step e1 c r sto _ cs first (second :: rest)
               Hen Hsen Hflag Hst1 Hs Hcalc).
    fold o.
    destruct (Controller.dispatch e1 StopCharging o c);
      [reflexivity | reflexivity | congruence]. }
  (* tick 2 *)
  assert (H2 : (fetch_states e2 (World [(c, r1)] (<[c := sel]> sto)
                                   (cs ++ [Call StopCharging o c]))).1
               = World [(c, r2)] (<[c := second :: rest]> sto)
                       (cs ++ [Call StopCharging o c; Call StartCharging o c])).
  { rewrite fetch_states_single.
    rewrite (awaiting_start_step e2 c r1 _ _ first (second :: rest)
               Hen Hsen eq_refl Hst2 (lookup_insert_eq _ _ _) Hnow2).
    change (SD.output_source r1) with o.
    rewrite insert_insert_eq, <- app_assoc. simpl.
    assert (Hr2 : SD.set_start_scheduled_charging false (with_slot first r1)
                  = r2).
    { unfold r2, r1. destruct r. simpl in *. by subst. }
    rewrite Hr2.
    fold o.
    destruct (Controller.dispatch e2 StartCharging o c);
      [reflexivity | reflexivity | congruence]. }
  (* tick 3 *)
  assert (Hr2flag : SD.start_scheduled_charging r2 = false) by exact Hflag.
  assert (H3 : (fetch_states e3 (World [(c, r2)] (<[c := second :: rest]> sto)
                 (cs ++ [Call StopCharging o c; Call StartCharging o c]))).1
               = World [(c, r2)] (<[c := second :: rest]> sto)
                       (cs ++ [Call StopCharging o c; Call StartCharging o c])).
  { rewrite fetch_states_single.
    by rewrite (continue_full e3 c r2 _ _ second rest
                  (start_time first) (start_time first + hours 1)
                  Hr2flag Hst3 eq_refl eq_refl Hnow3 (lookup_insert_eq _ _ _)). }
  (* tick 4 *)
  assert (H4 : (fetch_states e4 (World [(c, r2)] (<[c := second :: rest]> sto)
                 (cs ++ [Call StopCharging o c; Call StartCharging o c]))).1
               = World [(c, r1)] (<[c := second :: rest]> sto)
                       (cs ++ [Call StopCharging o c; Call StartCharging o c;
                               Call StopCharging o c])).
  { rewrite fetch_states_single.
    assert (Hcalc : calculate_next_schedules e4 (car_status_of e4 c) c
                      (St r2 (<[c := second :: rest]> sto)
                          (cs ++ [Call StopCharging o c; Call StartCharging o c]))
                    = (St r2 (<[c := second :: rest]> sto)
                          (cs ++ [Call StopCharging o c; Call StartCharging o c]),
                       Ok (second :: rest))).
    { rewrite calculate_next_schedules_keep.
      - by rewrite lookup_insert_eq.
      - unfold refreshes.
        by rewrite Hst4, lookup_insert_eq, String.eqb_refl. }
    rewrite (expiry_step e4 c r2 _ _ _ second rest
               (start_time first) (start_time first + hours 1)
               Hen Hsen Hr2flag Hst4 eq_refl eq_refl Hnow4 Hcalc).
    change (SD.output_source r2) with o.
    rewrite <- app_assoc. simpl.
    assert (Hr4 : without_slot (SD.set_start_scheduled_charging true r2) = r1).
    { unfold r2, r1. destruct r. simpl in *. by subst. }
    rewrite Hr4.
    fold o.
    destruct (Controller.dispatch e4 StopCharging o c);
      [reflexivity | reflexivity | congruence]. }
  unfold ticks. simpl. rewrite H1, H2, H3, H4. by repeat split.
Qed.

Lemma slot_lifecycle_witness :
  let fc := Some (Sample.hourly 6) in
  let e1 := Sample.env_at (at_ 0 0 10) Const.CAR_IS_CHARGING fc
              Sample.always_returns in
  let e2 := Sample.env_at (at_ 0 0 20) Const.CHARGING_FINISHED fc
              Sample.always_returns in
  let e3 := Sample.env_at (at_ 0 0 40) Const.CAR_IS_CHARGING fc
              Sample.always_returns in
  let e4 := Sample.env_at (at_ 0 1 10) Const.CAR_IS_CHARGING fc
              Sample.always_returns in
  issued (ticks [e1; e2; e3; e4] (World [("wallbox", Sample.built)] ∅ []))
  = [Call StopCharging Const.DOMAIN_GO_E_CHARGER "wallbox";
     Call StartCharging Const.DOMAIN_GO_E_CHARGER "wallbox";
     Call StopCharging Const.DOMAIN_GO_E_CHARGER "wallbox"].
Proof.
  intros fc e1 e2 e3 e4.
  destruct (slot_lifecycle e1 e2 e3 e4 "wallbox" Sample.built ∅ []
              (at_ 1 7 0) (Slot 50 (at_ 0 0 0)) (Slot 51 (at_ 0 1 0))
              [Slot 52 (at_ 0 2 0); Slot 53 (at_ 0 3 0)])
    as (_ & _ & _ & H4);
    [reflexivity | reflexivity | reflexivity | reflexivity | reflexivity
    | vm_compute; reflexivity | reflexivity | vm_compute; reflexivity
    | reflexivity | reflexivity | vm_compute; split; reflexivity
    | reflexivity | vm_compute; congruence | reflexivity
    | vm_compute; reflexivity
    | vm_compute; congruence | vm_compute; congruence
    | vm_compute; congruence |].
  rewrite H4. reflexivity.
Defined.
End Lifecycle.

Section WindowHours.
Import Time Spec.

(** X13.  [calculate_time_window_hours] returns [None] exactly for a
    missing deadline, and otherwise a number of hours between 0 and 23,
    for every deadline and clock: a deadline days ahead and a deadline in
    the past both land in that range. *)
Theorem window_hours_between_0_and_23 (t : datetime) (o : option datetime) :
  match Calculations.calculate_time_window_hours t o with
  | None => o = None
  | Some h => o <> None /\ 0 <= h <= 23
  end.
Proof.
  destruct o as [d|]; simpl; [|reflexivity].
  split; [discriminate|].
  unfold td_seconds.
  pose proof (Z.mod_pos_bound (d - t) day_us day_us_pos) as Hb.
  assert (H1 : 0 <= ((d - t) `mod` day_us) `div` second_us < 86400).
  { split.
    - apply Z.div_pos; [lia|reflexivity].
    - apply Z.div_lt_upper_bound; [reflexivity|].
      change (second_us * 86400) with day_us. lia. }
  split.
  - apply Z.div_pos; lia.
  - assert ((((d - t) `mod` day_us) `div` second_us) `div` 3600 < 24); [|lia].
    apply Z.div_lt_upper_bound; lia.
Qed.

(** X14.  For a SIMPLE consumer set up at instant [t], the stored window
    hours are the whole hours from [t] to the next 07:00 strictly after
    [t] (not to the stored deadline, which before 07:00 is a day later),
    except at 07:00 sharp, where they are 0. *)
Theorem simple_window_hours_to_next_7am (t : datetime) (c : consumer_conf) :
  conf_smart_energy_mode c = Some Const.SIMPLE ->
  let stored :=
    SD.current_cycle_charging_time_window_hours
      (Calculations.consumer_record t t c) in
  (t <> replace_hour t 7 -> stored = Some (whole_hours (next_7am_after t - t)))
  /\ (t = replace_hour t 7 -> stored = Some 0).
Proof.
  intros Hmode stored.
  assert (Hst : stored
                = Some (whole_hours ((replace_hour t 7 + days 1 - t) `mod` day_us))).
  { unfold stored, Calculations.consumer_record,
      Calculations.calculate_next_time_window. simpl. rewrite Hmode. simpl.
    apply calculate_time_window_hours_mod. }
  rewrite Hst. clear Hst stored.
  pose proof (replace_hour_bounds t) as Hb.
  pose proof day_us_hours as Hday. pose proof hour_us_pos as Hpos.
  unfold next_7am_after, days.
  replace (replace_hour t 7 + 1 * day_us - t)
    with (replace_hour t 7 - t + 1 * day_us) by lia.
  rewrite Z.mod_add by lia.
  split.
  - intros Hne. f_equal. f_equal.
    destruct (Z.ltb_spec t (replace_hour t 7)) as [Hlt|Hge].
    + apply Z.mod_small. lia.
    + replace (replace_hour t 7 - t)
        with (replace_hour t 7 + 1 * day_us - t + (-1) * day_us) by lia.
      rewrite Z.mod_add by lia. apply Z.mod_small. lia.
  - intros Heq. rewrite <- Heq, Z.sub_diag. reflexivity.
Qed.

Lemma simple_window_hours_to_next_7am_witness :
  SD.current_cycle_charging_time_window_hours
    (Calculations.consumer_record (at_ 0 0 30) (at_ 0 0 30)
       (Sample.simple_conf "wallbox"))
  = Some 6.
Proof.
  destruct (simple_window_hours_to_next_7am (at_ 0 0 30)
              (Sample.simple_conf "wallbox")) as [Hne _]; [reflexivity|].
  rewrite Hne; [vm_compute; reflexivity|vm_compute; congruence].
Defined.

Lemma window_hours_of_sum (t : datetime) (w : Z) :
  Calculations.calculate_time_window_hours t (Some (t + hours w))
  = Some (w `mod` 24).
Proof.
  rewrite calculate_time_window_hours_mod. f_equal.
  unfold hours, whole_hours.
  replace (t + w * hour_us - t) with (w * hour_us) by lia.
  rewrite day_us_hours.
  rewrite Z.mul_mod_distr_r by (pose proof hour_us_pos; lia).
  pose proof (Z.mod_pos_bound w 24 ltac:(lia)) as Hb.
  rewrite Z.quot_div_nonneg by (pose proof hour_us_pos; nia).
  apply Z.div_mul. pose proof hour_us_pos. lia.
Qed.

(** X15.  Turning a window length into a deadline and the deadline back
    into hours, at one instant [t], for a non-SIMPLE mode and a window of
    [w <> 0] hours.  When [t + w] hours is an instant a [datetime] can
    hold, [calculate_next_time_window] returns it and
    [calculate_time_window_hours] of it is [w mod 24], so the round trip
    is exact only for windows of 1 to 23 hours.  When it is not (a window
    that leads past year 9999, or before year 1),
    [calculate_next_time_window] raises [OverflowError]. *)
Theorem window_round_trip_modulo_24 (t : datetime) (mode : option string)
    (w : Z) :
  Calculations.is_simple mode = false -> w <> 0 ->
  Bounded.representable t = true ->
  match Bounded.calculate_next_time_window t mode (Some w) with
  | Bounded.Fits deadline =>
      Bounded.representable (t + hours w) = true
      /\ deadline = Some (t + hours w)
      /\ deadline = Calculations.calculate_next_time_window t mode (Some w)
      /\ Calculations.calculate_time_window_hours t deadline
         = Some (w `mod` 24)
      /\ (0 < w < 24 ->
          Calculations.calculate_time_window_hours t deadline = Some w)
  | Bounded.OverflowError => Bounded.representable (t + hours w) = false
  end.
Proof.
  intros Hmode Hw Ht.
  unfold Bounded.calculate_next_time_window,
    Calculations.calculate_next_time_window.
  rewrite Hmode. destruct (Z.eqb_spec w 0) as [?|_]; [contradiction|].
  destruct (Bounded.representable (t + hours w)) eqn:Hsum.
  - assert (Hdelta : Bounded.timedelta_representable (hours w) = true).
    { unfold Bounded.representable, Bounded.timedelta_representable,
        Bounded.MAX_DAYS in *.
      apply andb_prop in Ht as [Ht1 Ht2]. apply andb_prop in Hsum as [Hs1 Hs2].
      apply Z.leb_le in Ht1, Hs1. apply Z.ltb_lt in Ht2, Hs2.
      pose proof day_us_pos. apply andb_true_intro.
      split; [apply Z.leb_le|apply Z.ltb_lt]; lia. }
    rewrite Hdelta. cbn [andb].
    split; [reflexivity|]. split; [reflexivity|]. split; [reflexivity|].
    rewrite window_hours_of_sum. split; [reflexivity|].
    intros Hrange. f_equal. apply Z.mod_small. lia.
  - rewrite andb_false_r. reflexivity.
Qed.

Lemma window_round_trip_modulo_24_witness :
  Bounded.calculate_next_time_window (at_ 738000 0 30)
    (Some Const.PRECISE) (Some 30)
  = Bounded.Fits (Some (at_ 738000 0 30 + hours 30))
  /\ Calculations.calculate_time_window_hours (at_ 738000 0 30)
       (Some (at_ 738000 0 30 + hours 30))
     = Some 6.
Proof.
  pose proof (window_round_trip_modulo_24 (at_ 738000 0 30)
                (Some Const.PRECISE) 30 eq_refl ltac:(lia) eq_refl) as H.
  destruct (Bounded.calculate_next_time_window (at_ 738000 0 30)
              (Some Const.PRECISE) (Some 30)) as [deadline|];
    [|discriminate H].
  destruct H as (_ & -> & _ & Hmod & _).
  split; [reflexivity|]. rewrite Hmod. reflexivity.
Defined.

(** A window of 100 million hours, which the schema accepts, leads past
    year 9999 from any instant of this century. *)
Lemma window_round_trip_overflow :
  Bounded.calculate_next_time_window (at_ 738000 0 30)
    (Some Const.PRECISE) (Some 100000000)
  = Bounded.OverflowError.
Proof. reflexivity. Qed.
End WindowHours.

Section MainStateProperties.
Import Time Calculations MainState.
#[local] Open Scope list_scope.

Lemma dict_set_get_eq {V} (k : string) (v : V) (d : list (string * V)) :
  dict_get k (dict_set k v d) = Some v.
Proof.
  induction d as [|[k' v'] d IH]; simpl.
  - by rewrite String.eqb_refl.
  - destruct (String.eqb_spec k' k) as [->|Hne]; simpl.
    + by rewrite String.eqb_refl.
    + by rewrite (proj2 (String.eqb_neq k' k) Hne).
Qed.

Lemma dict_set_get_ne {V} (k k0 : string) (v : V) (d : list (string * V)) :
  k0 <> k -> dict_get k0 (dict_set k v d) = dict_get k0 d.
Proof.
  intros Hne. induction d as [|[k' v'] d IH]; simpl.
  - by rewrite (proj2 (String.eqb_neq k k0) (not_eq_sym Hne)).
  - destruct (String.eqb_spec k' k) as [->|Hk]; simpl.
    + by rewrite (proj2 (String.eqb_neq k k0) (not_eq_sym Hne)).
    + destruct (String.eqb k' k0); [reflexivity|exact IH].
Qed.

Lemma dict_set_keys {V} (k k0 : string) (v : V) (d : list (string * V)) :
  k0 ∈ (dict_set k v d).*1 <-> k0 = k \/ k0 ∈ d.*1.
Proof.
  induction d as [|[k' v'] d IH]; csimpl.
  - rewrite list_elem_of_singleton, elem_of_nil. tauto.
  - destruct (String.eqb_spec k' k) as [->|Hk]; csimpl.
    + rewrite !elem_of_cons. tauto.
    + rewrite !elem_of_cons, IH. tauto.
Qed.

Lemma dict_set_NoDup {V} (k : string) (v : V) (d : list (string * V)) :
  NoDup d.*1 -> NoDup (dict_set k v d).*1.
Proof.
  induction d as [|[k' v'] d IH]; csimpl; intros Hnd.
  - apply NoDup_singleton.
  - apply NoDup_cons in Hnd as [Hk' Hnd].
    destruct (String.eqb_spec k' k) as [->|Hk]; csimpl.
    + by apply NoDup_cons.
    + apply NoDup_cons. split; [|by apply IH].
      rewrite dict_set_keys. intros [?|?]; congruence.
Qed.

(** The record of the last configured consumer with a given name. *)
Lemma get_consumer_config_fold (t : datetime) (name : string)
    (cfgs : list consumer_conf) (acc : list (string * SD.t)) :
  dict_get name
    (foldl (fun consumers c =>
              dict_set (conf_name c) (consumer_record t t c) consumers)
           acc cfgs)
  = match last (filter (fun c => conf_name c = name) cfgs) with
    | Some c => Some (consumer_record t t c)
    | None => dict_get name acc
    end.
Proof.
  revert acc. induction cfgs as [|c cfgs IH]; intros acc; simpl.
  { reflexivity. }
  rewrite IH, filter_cons.
  destruct (decide (conf_name c = name)) as [Heq|Hne].
  - rewrite last_cons.
    destruct (last (filter _ cfgs)); [reflexivity|].
    rewrite <- Heq. apply dict_set_get_eq.
  - destruct (last (filter _ cfgs)); [reflexivity|].
    apply dict_set_get_ne. congruence.
Qed.

Lemma get_consumer_config_NoDup (t : datetime) (cfgs : list consumer_conf) :
  NoDup (get_consumer_config t cfgs).*1.
Proof.
  unfold get_consumer_config.
  assert (H : forall acc : list (string * SD.t),
            NoDup acc.*1 ->
            NoDup (foldl (fun consumers c =>
                            dict_set (conf_name c) (consumer_record t t c)
                                     consumers) acc cfgs).*1).
  { induction cfgs as [|c cfgs IH]; intros acc Hacc; simpl; [exact Hacc|].
    apply IH. by apply dict_set_NoDup. }
  apply H. constructor.
Qed.

Lemma get_consumer_config_get (t : datetime) (cfgs : list consumer_conf)
    (name : string) :
  dict_get name (get_consumer_config t cfgs)
  = consumer_record t t <$> last (filter (fun c => conf_name c = name) cfgs).
Proof.
  unfold get_consumer_config. rewrite get_consumer_config_fold.
  by destruct (last _).
Qed.

Lemma get_consumer_config_keys (t : datetime) (cfgs : list consumer_conf)
    (name : string) :
  is_Some (dict_get name (get_consumer_config t cfgs))
  <-> name ∈ conf_name <$> cfgs.
Proof.
  rewrite get_consumer_config_get, fmap_is_Some, list_elem_of_fmap. split.
  - intros [c Hc]. apply last_Some_elem_of in Hc.
    apply list_elem_of_filter in Hc as [Hn Hin]. by exists c.
  - intros (c & -> & Hin).
    assert (Hne : filter (fun c0 => conf_name c0 = conf_name c) cfgs <> []).
    { intros Hnil.
      assert (Hc : c ∈ filter (fun c0 => conf_name c0 = conf_name c) cfgs)
        by (apply list_elem_of_filter; by split).
      rewrite Hnil in Hc. by apply elem_of_nil in Hc. }
    destruct (last _) eqn:Hl; [by eexists|].
    by apply last_None in Hl.
Qed.

(** X16.  [get_consumer_config] builds a dictionary keyed by consumer
    name: its keys are pairwise distinct, a name is a key exactly when
    some configured consumer has it, and when several configured
    consumers share a name the record is the one built from the last of
    them. *)
Theorem get_consumer_config_last_wins (t : datetime)
    (cfgs : list consumer_conf) (name : string) :
  NoDup (get_consumer_config t cfgs).*1
  /\ dict_get name (get_consumer_config t cfgs)
     = consumer_record t t
         <$> last (filter (fun c => conf_name c = name) cfgs)
  /\ (is_Some (dict_get name (get_consumer_config t cfgs))
      <-> name ∈ conf_name <$> cfgs).
Proof.
  split; [apply get_consumer_config_NoDup|].
  split; [apply get_consumer_config_get|apply get_consumer_config_keys].
Qed.

Lemma dict_contains_get {V} (k : string) (d : list (string * V)) :
  dict_contains k d = true <-> is_Some (dict_get k d).
Proof.
  unfold dict_contains. induction d as [|[k' v'] d IH]; simpl.
  - split; [discriminate|by intros [? ?]].
  - destruct (String.eqb k' k); simpl; [by split; eauto|exact IH].
Qed.

Lemma dict_get_snoc {V} (k k0 : string) (v : V) (d : list (string * V)) :
  dict_get k0 (d ++ [(k, v)])
  = match dict_get k0 d with
    | Some x => Some x
    | None => if String.eqb k k0 then Some v else None
    end.
Proof.
  induction d as [|[k' v'] d IH]; simpl; [reflexivity|].
  destruct (String.eqb k' k0); [reflexivity|exact IH].
Qed.

Lemma add_missing_get (new d : list (string * SD.t)) (name : string) :
  dict_get name (add_missing new d)
  = match dict_get name d with
    | Some r => Some r
    | None => dict_get name new
    end.
Proof.
  unfold add_missing. revert d.
  induction new as [|[k v] new IH]; intros d; simpl.
  { by destruct (dict_get name d). }
  rewrite IH. clear IH.
  destruct (dict_contains k d) eqn:Hc.
  - apply dict_contains_get in Hc as [x Hx].
    destruct (dict_get name d) eqn:Hd; [reflexivity|].
    destruct (String.eqb_spec k name) as [->|_]; [congruence|reflexivity].
  - rewrite dict_get_snoc.
    destruct (dict_get name d) eqn:Hd; [reflexivity|].
    destruct (String.eqb k name); reflexivity.
Qed.

Lemma add_missing_prefix (new d : list (string * SD.t)) :
  d `prefix_of` add_missing new d.
Proof.
  unfold add_missing. revert d.
  induction new as [|[k v] new IH]; intros d; simpl; [reflexivity|].
  destruct (dict_contains k d); [apply IH|].
  etrans; [|apply IH]. by apply prefix_app_r.
Qed.

Lemma add_missing_NoDup (new d : list (string * SD.t)) :
  NoDup d.*1 -> NoDup (add_missing new d).*1.
Proof.
  unfold add_missing. revert d.
  induction new as [|[k v] new IH]; intros d Hnd; simpl; [exact Hnd|].
  destruct (dict_contains k d) eqn:Hc; [by apply IH|].
  apply IH. rewrite fmap_app. csimpl.
  apply NoDup_app. split; [exact Hnd|]. split; [|apply NoDup_singleton].
  intros k' Hk' Hin. apply list_elem_of_singleton in Hin. subst k'.
  apply list_elem_of_fmap in Hk' as ([k0 v0] & Hk0 & Hin). simpl in Hk0.
  subst k0.
  assert (Hs : dict_contains k d = true); [|congruence].
  apply dict_contains_get.
  induction d as [|[k1 v1] d IHd]; [by apply elem_of_nil in Hin|].
  simpl. destruct (String.eqb_spec k1 k) as [_|Hne]; [by eexists|].
  apply IHd.
  - csimpl in Hnd. by apply NoDup_cons in Hnd as [_ ?].
  - simpl in Hc. unfold dict_contains in *. simpl in Hc.
    rewrite (proj2 (String.eqb_neq k1 k) Hne) in Hc. exact Hc.
  - apply elem_of_cons in Hin as [?|?]; [congruence|done].
Qed.

Lemma add_missing_all_present (new d : list (string * SD.t)) :
  Forall (fun kv : string * SD.t => dict_contains kv.1 d = true) new ->
  add_missing new d = d.
Proof.
  unfold add_missing. induction 1 as [|[k v] new Hk _ IH]; simpl;
    [reflexivity|].
  simpl in Hk. by rewrite Hk.
Qed.

(** X17.  [add_to_main_state] only ever adds: the consumers already in
    the coordinator data keep their place and their records
    (a consumer in the middle of a slot is not reset by being configured
    again), each configured name that was missing is appended with its
    fresh record, the keys stay distinct, and adding the same
    configuration again, at any later instant, changes nothing. *)
Theorem add_to_main_state_only_adds (t t' : datetime)
    (cfgs : list consumer_conf) (d : list (string * SD.t)) (name : string) :
  NoDup d.*1 ->
  let d' := add_to_main_state t cfgs d in
  d `prefix_of` d'
  /\ NoDup d'.*1
  /\ dict_get name d'
     = match dict_get name d with
       | Some r => Some r
       | None => dict_get name (get_consumer_config t cfgs)
       end
  /\ add_to_main_state t' cfgs d' = d'.
Proof.
  intros Hnd d'. unfold d', add_to_main_state.
  split; [apply add_missing_prefix|].
  split; [by apply add_missing_NoDup|].
  split; [apply add_missing_get|].
  apply add_missing_all_present. apply Forall_forall. intros [k v] Hin. simpl.
  apply dict_contains_get. rewrite add_missing_get.
  destruct (dict_get k d); [by eexists|].
  assert (Hk : is_Some (dict_get k (get_consumer_config t' cfgs))).
  { rewrite (dict_get_elem _ k v); [by eexists| |exact Hin].
    apply get_consumer_config_NoDup. }
  apply get_consumer_config_keys. by apply (get_consumer_config_keys t').
Qed.

Lemma add_to_main_state_only_adds_witness :
  let d := [("wallbox", Sample.active)] in
  dict_get "wallbox"
    (add_to_main_state (at_ 0 5 0)
       [Sample.simple_conf "wallbox"; Sample.simple_conf "heater"] d)
  = Some Sample.active.
Proof.
  intros d.
  destruct (add_to_main_state_only_adds (at_ 0 5 0) (at_ 0 5 0)
              [Sample.simple_conf "wallbox"; Sample.simple_conf "heater"]
              d "wallbox") as (_ & _ & Hget & _).
  - apply NoDup_singleton.
  - rewrite Hget. reflexivity.
Defined.

Lemma remove_get_eq (name : string) (d : list (string * SD.t)) :
  dict_get name (remove_from_main_state name d) = None.
Proof.
  unfold remove_from_main_state.
  induction d as [|[k v] d IH]; [reflexivity|].
  rewrite filter_cons. simpl.
  destruct (decide (k <> name)) as [Hne|Heq]; [|exact IH].
  simpl. by rewrite (proj2 (String.eqb_neq k name) Hne).
Qed.

Lemma remove_get_ne (name k0 : string) (d : list (string * SD.t)) :
  k0 <> name ->
  dict_get k0 (remove_from_main_state name d) = dict_get k0 d.
Proof.
  intros Hk0. unfold remove_from_main_state.
  induction d as [|[k v] d IH]; [reflexivity|].
  rewrite filter_cons. simpl.
  destruct (decide (k <> name)) as [Hne|Heq]; simpl.
  - destruct (String.eqb k k0); [reflexivity|exact IH].
  - apply dec_stable in Heq. subst k.
    by rewrite (proj2 (String.eqb_neq name k0) (not_eq_sym Hk0)).
Qed.

Lemma remove_absent (name : string) (d : list (string * SD.t)) :
  name ∉ d.*1 -> remove_from_main_state name d = d.
Proof.
  unfold remove_from_main_state.
  induction d as [|[k v] d IH]; [reflexivity|].
  csimpl. intros Hnot. apply not_elem_of_cons in Hnot as [Hne Hnot].
  rewrite filter_cons. simpl.
  rewrite decide_True by congruence. by rewrite IH.
Qed.

(** X18.  [remove_from_main_state] deletes exactly one name: afterwards
    the name has no record, every other consumer has the record it had,
    in the order it had, and removing a name that is not there changes
    nothing.  Adding a consumer under a new name and removing it again
    gives back the coordinator data; adding under a name already there
    and removing it deletes the consumer that was there before. *)
Theorem remove_from_main_state_deletes_one (t : datetime) (c : consumer_conf)
    (d : list (string * SD.t)) (name k0 : string) :
  dict_get name (remove_from_main_state name d) = None
  /\ (k0 <> name ->
      dict_get k0 (remove_from_main_state name d) = dict_get k0 d)
  /\ remove_from_main_state name d `sublist_of` d
  /\ (name ∉ d.*1 -> remove_from_main_state name d = d)
  /\ (conf_name c ∉ d.*1 ->
      remove_from_main_state (conf_name c) (add_to_main_state t [c] d) = d)
  /\ (conf_name c ∈ d.*1 ->
      remove_from_main_state (conf_name c) (add_to_main_state t [c] d)
      = remove_from_main_state (conf_name c) d).
Proof.
  split; [apply remove_get_eq|].
  split; [apply remove_get_ne|].
  split; [apply sublist_filter|].
  split; [apply remove_absent|].
  assert (Hcontains : dict_contains (conf_name c) d = true
                      <-> conf_name c ∈ d.*1).
  { unfold dict_contains. induction d as [|[k v] d IH]; csimpl.
    - rewrite elem_of_nil. split; [discriminate|tauto].
    - rewrite elem_of_cons, <- IH.
      destruct (String.eqb_spec k (conf_name c)) as [->|Hne]; simpl;
        [tauto|]. split; [tauto|]. intros [?|?]; congruence. }
  unfold add_to_main_state, get_consumer_config, add_missing. simpl.
  split.
  - intros Hnot.
    destruct (dict_contains (conf_name c) d) eqn:Hc.
    + exfalso. by apply Hnot, Hcontains.
    + unfold remove_from_main_state. rewrite filter_app, filter_cons.
      simpl. rewrite decide_False by tauto. rewrite filter_nil, app_nil_r.
      by apply remove_absent.
  - intros Hin. apply Hcontains in Hin. by rewrite Hin.
Qed.
End MainStateProperties.

Section Strings.
Import Py.

Lemma string_app_cons (x : Ascii.ascii) (a b : string) :
  String x a +:+ b = String x (a +:+ b).
Proof. reflexivity. Qed.

Lemma string_app_nil (b : string) : "" +:+ b = b.
Proof. reflexivity. Qed.

Lemma string_app_assoc (a b c : string) : (a +:+ b) +:+ c = a +:+ b +:+ c.
Proof.
  induction a as [|x a IH]; [reflexivity|].
  rewrite !string_app_cons. by rewrite IH.
Qed.

Lemma prefix_app_true (p s : string) : String.prefix p (p +:+ s) = true.
Proof.
  induction p as [|x p IH]; [by destruct s|].
  rewrite string_app_cons. simpl.
  destruct (Ascii.ascii_dec x x); [exact IH|congruence].
Qed.

Lemma prefix_true_app (p s : string) :
  String.prefix p s = true -> exists q : string, s = p +:+ q.
Proof.
  revert s. induction p as [|x p IH]; intros s H.
  { by exists s. }
  destruct s as [|y s]; simpl in H; [discriminate|].
  destruct (Ascii.ascii_dec x y) as [->|_]; [|discriminate].
  destruct (IH s H) as [q ->]. by exists q.
Qed.

Lemma replace_from_skip (old new p s : string) :
  replace_from old new (String.length p) (p +:+ s) = replace_from old new 0 s.
Proof.
  induction p as [|x p IH]; [reflexivity|].
  rewrite string_app_cons. exact IH.
Qed.

(** An occurrence at the front is replaced and the scan goes on after
    it. *)
Lemma replace_front (old new s : string) :
  old <> "" ->
  replace old new (old +:+ s) = new +:+ replace old new s.
Proof.
  intros Hne. destruct old as [|a old]; [congruence|].
  unfold replace. rewrite string_app_cons.
  cbn [replace_from]. rewrite <- string_app_cons, prefix_app_true.
  cbn [String.length]. rewrite Nat.sub_1_r. cbn [pred].
  by rewrite replace_from_skip.
Qed.

(** Without an occurrence the string is returned as it is. *)
Lemma replace_absent (old new s : string) :
  old <> "" -> ~ occurs old s -> replace old new s = s.
Proof.
  intros Hne Hno. destruct old as [|a old]; [congruence|].
  unfold replace. induction s as [|x s IH]; [reflexivity|].
  cbn [replace_from].
  destruct (String.prefix (String a old) (String x s)) eqn:Hp.
  - exfalso. apply Hno. apply prefix_true_app in Hp as [q Hq].
    exists "", q. exact Hq.
  - f_equal. apply IH. intros (p & q & Hs). apply Hno.
    exists (String x p), q. rewrite string_app_cons. by rewrite Hs.
Qed.

Lemma replace_from_length (old : string) (k : nat) (s : string) :
  (String.length (replace_from old "" k s) <= String.length s)%nat.
Proof.
  revert k. induction s as [|x s IH]; intros k; [simpl; lia|].
  cbn [replace_from String.length]. destruct k as [|k].
  - destruct (String.prefix old (String x s)).
    + rewrite string_app_nil.
      specialize (IH (String.length old - 1)%nat). lia.
    + cbn [String.length]. specialize (IH 0%nat). lia.
  - specialize (IH k). lia.
Qed.

(** Removing a non-empty [old] from a string where it occurs makes the
    string shorter. *)
Lemma replace_occurs_shorter (old s : string) :
  old <> "" -> occurs old s ->
  (String.length (replace old "" s) < String.length s)%nat.
Proof.
  intros Hne (p & q & ->). destruct old as [|a old]; [congruence|].
  unfold replace. induction p as [|x p IH].
  - rewrite string_app_nil, string_app_cons.
    cbn [replace_from]. rewrite <- string_app_cons, prefix_app_true.
    rewrite string_app_nil, string_app_cons. cbn [String.length].
    apply Nat.lt_succ_r, replace_from_length.
  - rewrite string_app_cons. cbn [replace_from].
    destruct (String.prefix _ _).
    + rewrite string_app_nil. cbn [String.length].
      apply Nat.lt_succ_r, replace_from_length.
    + cbn [String.length]. apply (proj1 (Nat.succ_lt_mono _ _)), IH.
Qed.

Lemma contains_occurs (old s : string) :
  contains old s = true <-> occurs old s.
Proof.
  split.
  - induction s as [|x s IH]; cbn [contains]; intros H.
    + apply orb_prop in H as [H|H]; [|discriminate].
      apply prefix_true_app in H as [q Hq]. by exists "", q.
    + apply orb_prop in H as [H|H].
      * apply prefix_true_app in H as [q Hq]. by exists "", q.
      * destruct (IH H) as (p & q & ->). exists (String x p), q.
        by rewrite string_app_cons.
  - intros (p & q & ->). induction p as [|x p IH].
    + rewrite string_app_nil. destruct (old +:+ q) eqn:E; cbn [contains];
        rewrite <- ?E, prefix_app_true; reflexivity.
    + rewrite string_app_cons. cbn [contains]. rewrite IH.
      apply orb_true_r.
Qed.

Lemma prefix_in_prefixes (p s : string) :
  String.prefix p s = true -> p ∈ prefixes s.
Proof.
  revert s. induction p as [|x p IH]; intros s H.
  { destruct s; left. }
  destruct s as [|y s]; simpl in H; [discriminate|].
  destruct (Ascii.ascii_dec x y) as [->|_]; [|discriminate].
  cbn [prefixes]. right. apply list_elem_of_fmap. exists p.
  split; [reflexivity|]. by apply IH.
Qed.

Lemma contains_substrings (old s : string) :
  contains old s = true -> old ∈ substrings s.
Proof.
  induction s as [|x s IH]; cbn [contains substrings]; intros H;
    apply elem_of_app; apply orb_prop in H as [H|H];
    try (left; by apply prefix_in_prefixes); try discriminate.
  right. by apply IH.
Qed.
End Strings.

(** ** sensor.py and entity.py *)

Section SensorProperties.
Import Py Sensor MainState.
#[local] Open Scope list_scope.

Lemma string_app_inj_l (p a b : string) : p +:+ a = p +:+ b -> a = b.
Proof.
  induction p as [|x p IH]; [done|].
  rewrite !string_app_cons. intros H. apply IH. congruence.
Qed.

(** Taking any non-empty part out of the id of a scheduler sensor leaves
    no key of a consumer record. *)
Lemma stripped_id_is_no_key (r : SD.t) (id old : string) :
  id ∈ SCHEDULER_SENSORS.*1 -> old <> "" -> contains old id = true ->
  record_item (replace old "" id) r = None.
Proof.
  intros Hid Hne Hc. apply contains_substrings in Hc.
  apply list_elem_of_In in Hc.
  assert (Hall : forallb (fun o : string =>
            match o with
            | EmptyString => true
            | String _ _ =>
                match record_item (replace o "" id) r with
                | None => true
                | Some _ => false
                end
            end) (substrings id) = true).
  { cbn in Hid. rewrite !elem_of_cons, elem_of_nil in Hid.
    destruct Hid as [->|[->|[->|[->|[->|[->|[->|[]]]]]]]];
      vm_compute; reflexivity. }
  rewrite forallb_forall in Hall. specialize (Hall old Hc).
  destruct old; [congruence|].
  by destruct (record_item _ r).
Qed.

Lemma scheduler_sensor_fields (r : SD.t) (id : string) :
  id ∈ SCHEDULER_SENSORS.*1 -> is_Some (record_item id r).
Proof.
  intros Hid. cbn in Hid. rewrite !elem_of_cons, elem_of_nil in Hid.
  destruct Hid as [->|[->|[->|[->|[->|[->|[->|[]]]]]]]]; by eexists.
Qed.

Lemma native_value_attribute (consumer_name id eid : string)
    (data : list (string * SD.t)) (r : SD.t) :
  dict_get consumer_name data = Some r ->
  id ∈ SCHEDULER_SENSORS.*1 ->
  native_value (SchedulerSensor eid (consumer_name +:+ "_" +:+ id)
                  consumer_name) data
  = if contains (consumer_name +:+ "_") id then None else record_item id r.
Proof.
  intros Hget Hid. unfold native_value. cbn [consumer_name_of attribute].
  rewrite Hget.
  assert (Hne : consumer_name +:+ "_" <> "").
  { destruct consumer_name; discriminate. }
  rewrite <- string_app_assoc, replace_front, string_app_nil by exact Hne.
  destruct (contains (consumer_name +:+ "_") id) eqn:Hc.
  - by apply stripped_id_is_no_key.
  - rewrite replace_absent; [reflexivity|exact Hne|].
    intros Ho. apply contains_occurs in Ho. congruence.
Qed.

(** X19.  The value of a scheduler sensor.  Each sensor set up for a
    consumer has the attribute [consumer_name + "_" + id] for one of the
    seven ids of [SCHEDULER_SENSORS], and the consumer's record has a
    field under that id.  [native_value] returns that field when
    [consumer_name + "_"] does not occur in the id; when it occurs (a
    consumer named [current], [t] or [e], say) the replacement also cuts
    into the id and the lookup raises [KeyError]. *)
Theorem native_value_of_scheduler_sensor (consumer_name : string)
    (data : list (string * SD.t)) (r : SD.t) (s : scheduler_sensor) :
  dict_get consumer_name data = Some r ->
  s ∈ _setup_sensors
        (_generate_scheduler_sensors consumer_name SCHEDULER_SENSORS)
        consumer_name ->
  exists id : string,
    id ∈ SCHEDULER_SENSORS.*1
    /\ attribute s = consumer_name +:+ "_" +:+ id
    /\ consumer_name_of s = consumer_name
    /\ is_Some (record_item id r)
    /\ native_value s data =
         if contains (consumer_name +:+ "_") id then None
         else record_item id r.
Proof.
  intros Hget Hs. unfold _setup_sensors, _generate_scheduler_sensors in Hs.
  apply list_elem_of_fmap in Hs as (b & -> & Hb).
  apply list_elem_of_fmap in Hb as ([id ty] & -> & Hin).
  cbn [fst snd]. exists id.
  assert (Hid : id ∈ SCHEDULER_SENSORS.*1).
  { apply list_elem_of_fmap. by exists (id, ty). }
  split; [exact Hid|]. split; [reflexivity|]. split; [reflexivity|].
  split; [by apply scheduler_sensor_fields|].
  by apply native_value_attribute.
Qed.

Lemma native_value_of_scheduler_sensor_witness :
  exists id : string,
    id ∈ SCHEDULER_SENSORS.*1
    /\ attribute (SchedulerSensor "sensor.smartenergy_current_input_source"
                    "current_input_source" "current")
       = "current" +:+ "_" +:+ id
    /\ consumer_name_of (SchedulerSensor
                           "sensor.smartenergy_current_input_source"
                           "current_input_source" "current") = "current"
    /\ is_Some (record_item id Sample.built)
    /\ native_value (SchedulerSensor "sensor.smartenergy_current_input_source"
                       "current_input_source" "current")
         [("current", Sample.built)] =
         if contains ("current" +:+ "_") id then None
         else record_item id Sample.built.
Proof.
  apply (native_value_of_scheduler_sensor "current"
           [("current", Sample.built)] Sample.built).
  - reflexivity.
  - vm_compute. do 5 right. left.
Defined.

(** X20.  Entities created and entities removed.  [setup_entities] gives
    the consumer of a config entry seven sensor entities,
    [remove_entities_and_devices] removes five names.  Whatever the consumer name, each removed name is
    the entity id of one of the seven sensors, and the entity ids that
    are not among the removed names are exactly those of the two sensors
    of the current cycle: hours to charge and time window date. *)
Theorem removal_leaves_the_cycle_sensors (consumer_name : string)
    (r : SD.t) :
  let created :=
    entity_id <$> concat (setup_entities [(consumer_name, r)]) in
  let removed := removed_entity_names consumer_name in
  removed ⊆ created
  /\ forall e : string, e ∈ created ->
       (e ∉ removed <->
        e = "sensor.smartenergy_" +:+ consumer_name
              +:+ "_current_cycle_hours_to_charge"
        \/ e = "sensor.smartenergy_" +:+ consumer_name
                +:+ "_current_cycle_charging_time_window_date").
Proof.
  intros created removed.
  set (P := fun a : string => "sensor.smartenergy_" +:+ consumer_name +:+ a).
  assert (Hinj : forall a b : string, P a = P b -> a = b).
  { intros a b H. unfold P in H. by do 2 apply string_app_inj_l in H. }
  assert (Hc : created =
    [P "_current_schedule_start"; P "_current_schedule_end";
     P "_current_cycle_hours_to_charge";
     P "_current_cycle_charging_time_window_date";
     P "_smart_energy_mode"; P "_input_source"; P "_output_source"])
    by (vm_compute; reflexivity).
  assert (Hr : removed =
    [P "_current_schedule_start"; P "_current_schedule_end";
     P "_smart_energy_mode"; P "_input_source"; P "_output_source"])
    by (vm_compute; reflexivity).
  change ("sensor.smartenergy_" +:+ consumer_name
            +:+ "_current_cycle_hours_to_charge")
    with (P "_current_cycle_hours_to_charge").
  change ("sensor.smartenergy_" +:+ consumer_name
            +:+ "_current_cycle_charging_time_window_date")
    with (P "_current_cycle_charging_time_window_date").
  rewrite Hc, Hr. clear Hc Hr created removed. split.
  - intros e. rewrite !elem_of_cons, !elem_of_nil. tauto.
  - intros e He. rewrite !elem_of_cons, elem_of_nil in He. split.
    + intros Hnot. rewrite !not_elem_of_cons in Hnot.
      destruct Hnot as (H1 & H2 & H3 & H4 & H5 & _). tauto.
    + intros [->| ->]; rewrite !not_elem_of_cons;
        repeat split; try apply not_elem_of_nil; intros H;
        apply Hinj in H; discriminate H.
Qed.
Lemma string_app_nil_r (a : string) : a +:+ "" = a.
Proof.
  induction a as [|x a IH]; [reflexivity|].
  rewrite string_app_cons. by rewrite IH.
Qed.

Lemma string_app_length (a b : string) :
  String.length (a +:+ b) = (String.length a + String.length b)%nat.
Proof.
  induction a as [|x a IH]; [reflexivity|].
  rewrite string_app_cons. cbn [String.length]. by rewrite IH.
Qed.

Lemma string_app_eq_app (a b x y : string) :
  a +:+ x = b +:+ y ->
  (exists c : string, b = a +:+ c /\ x = c +:+ y)
  \/ (exists c : string, a = b +:+ c /\ y = c +:+ x).
Proof.
  revert b. induction a as [|ch a IH]; intros b Heq.
  - left. exists b. by rewrite !string_app_nil in *.
  - destruct b as [|ch' b].
    + right. exists (String ch a). by rewrite !string_app_nil in *.
    + rewrite !string_app_cons in Heq. injection Heq as -> Heq.
      destruct (IH b Heq) as [(c & -> & ->)|(c & -> & ->)].
      * left. by exists c.
      * right. by exists c.
Qed.

Lemma string_app_inj_length (a b x y : string) :
  a +:+ x = b +:+ y -> String.length a = String.length b -> a = b.
Proof.
  revert b. induction a as [|ch a IH]; intros [|ch' b] Heq Hlen;
    try discriminate; [reflexivity|].
  rewrite !string_app_cons in Heq. injection Heq as -> Heq.
  f_equal. apply (IH b Heq). by injection Hlen.
Qed.

(** No id of a scheduler sensor holds another one after an underscore. *)
Lemma no_id_after_underscore (id1 id2 : string) :
  id1 ∈ SCHEDULER_SENSORS.*1 -> id2 ∈ SCHEDULER_SENSORS.*1 ->
  contains ("_" +:+ id2) id1 = false.
Proof.
  intros H1 H2. cbn in H1, H2.
  rewrite !elem_of_cons, elem_of_nil in H1.
  rewrite !elem_of_cons, elem_of_nil in H2.
  destruct H1 as [->|[->|[->|[->|[->|[->|[->|[]]]]]]]];
    destruct H2 as [->|[->|[->|[->|[->|[->|[->|[]]]]]]]];
    vm_compute; reflexivity.
Qed.

(** The attribute of a scheduler sensor determines the consumer name and
    the id. *)
Lemma attribute_inj (n1 n2 id1 id2 : string) :
  id1 ∈ SCHEDULER_SENSORS.*1 -> id2 ∈ SCHEDULER_SENSORS.*1 ->
  n1 +:+ "_" +:+ id1 = n2 +:+ "_" +:+ id2 -> n1 = n2 /\ id1 = id2.
Proof.
  intros H1 H2 Heq.
  assert (Hcase : forall (a b i j : string),
            i ∈ SCHEDULER_SENSORS.*1 -> j ∈ SCHEDULER_SENSORS.*1 ->
            forall c : string, b = a +:+ c -> "_" +:+ i = c +:+ "_" +:+ j ->
            a = b /\ i = j).
  { intros a b i j Hi Hj c -> Hc. destruct c as [|ch c].
    - rewrite string_app_nil in Hc. rewrite string_app_nil_r.
      split; [reflexivity|]. by apply (string_app_inj_l "_").
    - exfalso. rewrite string_app_cons in Hc.
      rewrite string_app_cons, string_app_nil in Hc.
      injection Hc as _ Hc.
      pose proof (no_id_after_underscore i j Hi Hj) as Hno.
      assert (Hyes : contains ("_" +:+ j) i = true).
      { apply contains_occurs. exists c, "".
        by rewrite string_app_nil_r. }
      congruence. }
  apply string_app_eq_app in Heq as [(c & Hb & Hc)|(c & Ha & Hc)].
  - by apply (Hcase n1 n2 id1 id2 H1 H2 c).
  - destruct (Hcase n2 n1 id2 id1 H2 H1 c Ha Hc) as [-> ->]. done.
Qed.

(** X23.  Sensors never share an identity.  Over all consumer names, two
    scheduler sensors set up by [_setup_sensors] that have the same
    entity id, or the same unique id, are the same sensor of the same
    consumer: no choice of names makes the sensors of two consumers, or
    two sensors of one consumer, collide. *)
Theorem scheduler_sensors_are_distinct (n1 n2 : string)
    (s1 s2 : scheduler_sensor) :
  s1 ∈ _setup_sensors (_generate_scheduler_sensors n1 SCHEDULER_SENSORS) n1 ->
  s2 ∈ _setup_sensors (_generate_scheduler_sensors n2 SCHEDULER_SENSORS) n2 ->
  entity_id s1 = entity_id s2 \/ unique_id s1 = unique_id s2 ->
  n1 = n2 /\ s1 = s2.
Proof.
  intros Hs1 Hs2 Hsame.
  unfold _setup_sensors, _generate_scheduler_sensors in Hs1, Hs2.
  apply list_elem_of_fmap in Hs1 as (b1 & -> & Hb1).
  apply list_elem_of_fmap in Hb1 as ([id1 ty1] & -> & Hin1).
  apply list_elem_of_fmap in Hs2 as (b2 & -> & Hb2).
  apply list_elem_of_fmap in Hb2 as ([id2 ty2] & -> & Hin2).
  cbn [fst snd] in *.
  assert (Hid1 : id1 ∈ SCHEDULER_SENSORS.*1).
  { apply list_elem_of_fmap. by exists (id1, ty1). }
  assert (Hid2 : id2 ∈ SCHEDULER_SENSORS.*1).
  { apply list_elem_of_fmap. by exists (id2, ty2). }
  assert (Hattr : n1 +:+ "_" +:+ id1 = n2 +:+ "_" +:+ id2).
  { destruct Hsame as [He|Hu].
    - cbn [entity_id] in He. by do 4 apply string_app_inj_l in He.
    - unfold unique_id in Hu. cbn [entity_id attribute] in Hu.
      set (a1 := n1 +:+ "_" +:+ id1) in *.
      set (a2 := n2 +:+ "_" +:+ id2) in *.
      rewrite !string_app_assoc in Hu.
      do 4 apply string_app_inj_l in Hu.
      apply (string_app_inj_length _ _ _ _ Hu).
      apply (f_equal String.length) in Hu.
      rewrite !string_app_length in Hu. cbn [String.length] in Hu. lia. }
  destruct (attribute_inj n1 n2 id1 id2 Hid1 Hid2 Hattr) as [-> ->].
  split; reflexivity.
Qed.

Lemma scheduler_sensors_are_distinct_witness :
  "charger1" = "charger1"
  /\ SchedulerSensor "sensor.smartenergy_charger1_input_source"
       "charger1_input_source" "charger1"
     = SchedulerSensor "sensor.smartenergy_charger1_input_source"
         "charger1_input_source" "charger1".
Proof.
  apply (scheduler_sensors_are_distinct "charger1" "charger1").
  - vm_compute. do 5 right. left.
  - vm_compute. do 5 right. left.
  - left. reflexivity.
Defined.
End SensorProperties.

(** ** entity.py and config_flow.py *)

Section EntityProperties.
Import Py MainState Calculations Entity.
#[local] Open Scope list_scope.

Lemma strip_prefix_Some (p s rest : string) :
  strip_prefix p s = Some rest <-> s = p +:+ rest.
Proof.
  revert s. induction p as [|a p IH]; intros s.
  - rewrite string_app_nil. simpl. split; congruence.
  - rewrite string_app_cons. destruct s as [|b s]; simpl; [split; discriminate|].
    destruct (Ascii.eqb_spec a b) as [->|Hne].
    + rewrite IH. split; congruence.
    + split; [discriminate|congruence].
Qed.

Lemma name_run_split (s : string) :
  all_chars name_char (name_run s) = true
  /\ exists q : string, s = name_run s +:+ q /\ name_run q = "".
Proof.
  induction s as [|a s [IH1 (q & IH2 & IH3)]]; simpl.
  - split; [reflexivity|]. by exists "".
  - destruct (name_char a) eqn:Ha.
    + simpl. rewrite Ha, IH1. split; [reflexivity|].
      exists q. rewrite string_app_cons. by rewrite <- IH2.
    + split; [reflexivity|]. exists (String a s).
      split; [reflexivity|]. simpl. by rewrite Ha.
Qed.

Lemma match_here_sound (integration s g : string) :
  match_here integration s = Some g ->
  g <> "" /\ all_chars name_char g = true
  /\ exists q : string,
       s = (integration +:+ "_") +:+ g +:+ q /\ name_run q = "".
Proof.
  unfold match_here. destruct (strip_prefix _ s) as [rest|] eqn:Hs;
    [|discriminate].
  apply strip_prefix_Some in Hs.
  destruct (name_run_split rest) as (Hall & q & Hq & Hrun).
  destruct (name_run rest) as [|a g'] eqn:Hr; [discriminate|].
  intros [= <-]. split; [discriminate|]. split; [exact Hall|].
  exists q. by rewrite <- Hq.
Qed.

Lemma match_here_complete (integration : string) (a : Ascii.ascii)
    (q : string) :
  name_char a = true ->
  is_Some (match_here integration
             ((integration +:+ "_") +:+ String a q)).
Proof.
  intros Ha. unfold match_here.
  rewrite (proj2 (strip_prefix_Some _ _ (String a q)) eq_refl).
  simpl. rewrite Ha. by eexists.
Qed.

(** What a match tells about the entity id: the group is a non-empty
    run of class characters that follows [integration_], cannot be
    extended, and starts on the first line. *)
Lemma re_match_sound (integration s g : string) :
  re_match integration s = Some g ->
  g <> "" /\ all_chars name_char g = true
  /\ exists p q : string,
       s = p +:+ (integration +:+ "_") +:+ g +:+ q
       /\ all_chars (fun a => negb (Ascii.eqb a newline)) p = true
       /\ name_run q = "".
Proof.
  revert g. induction s as [|a s IH]; intros g; cbn [re_match].
  - intros H. apply match_here_sound in H as (H1 & H2 & q & H3 & H4).
    split; [done|]. split; [done|]. by exists "", q.
  - destruct (Ascii.eqb a newline) eqn:Ha.
    + intros H. apply match_here_sound in H as (H1 & H2 & q & H3 & H4).
      split; [done|]. split; [done|]. by exists "", q.
    + destruct (re_match integration s) as [g'|] eqn:Hm.
      * intros [= <-].
        destruct (IH g' eq_refl) as (H1 & H2 & p & q & H3 & H4 & H5).
        split; [done|]. split; [done|]. exists (String a p), q.
        rewrite string_app_cons, <- H3. simpl. rewrite Ha. by rewrite H4.
      * intros H. apply match_here_sound in H as (H1 & H2 & q & H3 & H4).
        split; [done|]. split; [done|]. by exists "", q.
Qed.

Lemma re_match_complete (integration p q : string) (a : Ascii.ascii) :
  all_chars (fun a => negb (Ascii.eqb a newline)) p = true ->
  name_char a = true ->
  is_Some (re_match integration
             (p +:+ (integration +:+ "_") +:+ String a q)).
Proof.
  intros Hp Ha. induction p as [|c p IH].
  - rewrite string_app_nil.
    pose proof (match_here_complete integration a q Ha) as Hm.
    destruct ((integration +:+ "_") +:+ String a q) as [|b s] eqn:E;
      cbn [re_match]; [exact Hm|].
    destruct (if Ascii.eqb b newline then None else re_match integration s);
      [by eexists|exact Hm].
  - simpl in Hp. apply andb_prop in Hp as [Hc Hp].
    rewrite string_app_cons. cbn [re_match].
    apply negb_true_iff in Hc. rewrite Hc.
    destruct (IH Hp) as [g ->]. by eexists.
Qed.

Lemma get_entity_names_fold (integration : string) (entities acc : list string) :
  let result :=
    foldl (fun (matched_entities : list string) (entity : string) =>
             match re_match integration entity with
             | Some match_group =>
                 if bool_decide (match_group ∈ matched_entities)
                 then matched_entities
                 else matched_entities ++ [match_group]
             | None => matched_entities
             end) acc entities in
  (NoDup acc -> NoDup result)
  /\ forall g : string,
       g ∈ result <->
       g ∈ acc \/ exists e : string, e ∈ entities /\ re_match integration e = Some g.
Proof.
  revert acc. induction entities as [|e es IH]; intros acc; cbn [foldl].
  - split; [done|]. intros g. split; [by left|].
    intros [?|(e & He & _)]; [done|]. by apply elem_of_nil in He.
  - destruct (re_match integration e) as [g0|] eqn:Hm.
    + destruct (bool_decide (g0 ∈ acc)) eqn:Hin.
      * apply bool_decide_eq_true in Hin.
        destruct (IH acc) as [IH1 IH2]. split; [exact IH1|].
        intros g. rewrite IH2. split.
        -- intros [?|(e' & He' & Hg)]; [by left|].
           right. exists e'. split; [by right|done].
        -- intros [?|(e' & He' & Hg)]; [by left|].
           apply elem_of_cons in He' as [->|He'].
           ++ left. congruence.
           ++ right. by exists e'.
      * apply bool_decide_eq_false in Hin.
        destruct (IH (acc ++ [g0])) as [IH1 IH2]. split.
        -- intros Hnd. apply IH1. apply NoDup_app. split; [done|].
           split; [|apply NoDup_singleton].
           intros x Hx Hx'. apply list_elem_of_singleton in Hx'. congruence.
        -- intros g. rewrite IH2, elem_of_app, list_elem_of_singleton. split.
           ++ intros [[?| ->]|(e' & He' & Hg)]; [by left| |].
              ** right. exists e. split; [by left|done].
              ** right. exists e'. split; [by right|done].
           ++ intros [?|(e' & He' & Hg)]; [by left; left|].
              apply elem_of_cons in He' as [->|He'].
              ** left. right. congruence.
              ** right. by exists e'.
    + destruct (IH acc) as [IH1 IH2]. split; [exact IH1|].
      intros g. rewrite IH2. split.
      * intros [?|(e' & He' & Hg)]; [by left|].
        right. exists e'. split; [by right|done].
      * intros [?|(e' & He' & Hg)]; [by left|].
        apply elem_of_cons in He' as [->|He']; [congruence|].
        right. by exists e'.
Qed.

Lemma get_entity_names_elem (entities : list string) (integration g : string) :
  g ∈ _get_entity_names entities integration <->
  exists e : string, e ∈ entities /\ re_match integration e = Some g.
Proof.
  unfold _get_entity_names.
  destruct (get_entity_names_fold integration entities []) as [_ H].
  rewrite H. split; [|by right].
  intros [Hnil|?]; [|done]. by apply elem_of_nil in Hnil.
Qed.

Lemma name_has_no_underscore (g : string) :
  all_chars name_char g = true -> contains "_" g = false.
Proof.
  induction g as [|a g IH]; [reflexivity|]. simpl all_chars.
  intros H. apply andb_prop in H as [Ha Hg].
  cbn [contains]. rewrite (IH Hg), orb_false_r.
  change (String.prefix "_" (String a g))
    with (if Ascii.ascii_dec underscore a then String.prefix "" g else false).
  destruct (Ascii.ascii_dec underscore a) as [<-|_]; [discriminate Ha|].
  reflexivity.
Qed.

(** X21.  The names [_get_entity_names] derives from the entity
    registry, for an integration name without regular-expression
    metacharacters.  The list has no duplicates.  Every name in it is a
    non-empty run of letters, digits and hyphens (so holds no underscore)
    that follows [integration_] in some entity id, on its first line, and
    is not followed by a further such character.  Every entity id that
    has [integration_] followed by such a character on its first line
    contributes a name. *)
Theorem entity_names_from_registry (entities : list string)
    (integration : string) :
  literal integration = true ->
  let names := _get_entity_names entities integration in
  NoDup names
  /\ (forall g : string, g ∈ names ->
        g <> "" /\ all_chars name_char g = true
        /\ contains "_" g = false
        /\ exists e p q : string,
             e ∈ entities
             /\ e = p +:+ (integration +:+ "_") +:+ g +:+ q
             /\ all_chars (fun a => negb (Ascii.eqb a newline)) p = true
             /\ name_run q = "")
  /\ (forall (p q : string) (a : Ascii.ascii),
        p +:+ (integration +:+ "_") +:+ String a q ∈ entities ->
        all_chars (fun a => negb (Ascii.eqb a newline)) p = true ->
        name_char a = true ->
        exists g : string,
          g ∈ names
          /\ re_match integration
               (p +:+ (integration +:+ "_") +:+ String a q) = Some g).
Proof.
  intros _ names. split; [|split].
  - unfold names, _get_entity_names.
    destruct (get_entity_names_fold integration entities []) as [H _].
    apply H, NoDup_nil_2.
  - intros g Hg. apply get_entity_names_elem in Hg as (e & He & Hm).
    apply re_match_sound in Hm as (H1 & H2 & p & q & H3 & H4 & H5).
    split; [done|]. split; [done|]. split.
    + by apply name_has_no_underscore.
    + by exists e, p, q.
  - intros p q a He Hp Ha.
    destruct (re_match_complete integration p q a Hp Ha) as [g Hg].
    exists g. split; [|exact Hg]. apply get_entity_names_elem. by eexists.
Qed.

Lemma entity_names_from_registry_witness :
  _get_entity_names
    ["sensor.smartenergy_goecharger_charger1_car_status";
     "sensor.smartenergy_charger1_input_source";
     "sensor.smartenergy_goecharger_charger1_name";
     "sensor.smartenergy_goecharger_garage-2_car_status"]
    Const.DOMAIN_GO_E_CHARGER
  = ["charger1"; "garage-2"]
  /\ NoDup (_get_entity_names
              ["sensor.smartenergy_goecharger_charger1_car_status";
               "sensor.smartenergy_charger1_input_source";
               "sensor.smartenergy_goecharger_charger1_name";
               "sensor.smartenergy_goecharger_garage-2_car_status"]
              Const.DOMAIN_GO_E_CHARGER).
Proof.
  split; [vm_compute; reflexivity|].
  apply (entity_names_from_registry
           ["sensor.smartenergy_goecharger_charger1_car_status";
            "sensor.smartenergy_charger1_input_source";
            "sensor.smartenergy_goecharger_charger1_name";
            "sensor.smartenergy_goecharger_garage-2_car_status"]
           Const.DOMAIN_GO_E_CHARGER).
  reflexivity.
Defined.

Lemma dict_set_absent {V} (k : string) (v : V) (d : list (string * V)) :
  k ∉ d.*1 -> dict_set k v d = d ++ [(k, v)].
Proof.
  induction d as [|[k' v'] d IH]; csimpl; intros Hk; [reflexivity|].
  apply not_elem_of_cons in Hk as [Hne Hk].
  rewrite (proj2 (String.eqb_neq k' k)) by congruence.
  by rewrite IH.
Qed.

Lemma filter_entities_snoc (entities integrations : list string) (k : string) :
  filter_entities_by_integration entities (integrations ++ [k])
  = let r := filter_entities_by_integration entities integrations in
    (dict_set k (r.2 ++ _get_entity_names entities k) r.1,
     r.2 ++ _get_entity_names entities k).
Proof. unfold filter_entities_by_integration. by rewrite foldl_snoc. Qed.

Lemma integration_name_snoc (output_source k : string) (v : list string)
    (m : list (string * list string)) :
  integration_name output_source (m ++ [(k, v)])
  = match integration_name output_source m with
    | Some x => Some x
    | None => if bool_decide (output_source ∈ v) then Some k else None
    end.
Proof.
  induction m as [|[k' v'] m IH]; simpl; [reflexivity|].
  destruct (bool_decide (output_source ∈ v')); [reflexivity|exact IH].
Qed.

Lemma elem_of_concat (x : string) (ls : list (list string)) :
  x ∈ concat ls <-> exists l : list string, l ∈ ls /\ x ∈ l.
Proof.
  rewrite list_elem_of_In, in_concat. split; intros (l & H1 & H2); exists l;
    by rewrite ?list_elem_of_In in *.
Qed.

Lemma head_filter_None (P : string -> Prop) `{Hdec : !forall x, Decision (P x)}
    (l : list string) :
  head (filter P l) = None <-> forall x : string, x ∈ l -> ~ P x.
Proof.
  rewrite head_None. split.
  - intros Hnil x Hx HP.
    assert (Hin : x ∈ filter P l) by by apply list_elem_of_filter.
    rewrite Hnil in Hin. by apply elem_of_nil in Hin.
  - intros Hall. destruct (filter P l) as [|y ys] eqn:E; [reflexivity|].
    assert (Hin : y ∈ filter P l) by (rewrite E; left).
    apply list_elem_of_filter in Hin as [HP Hy]. by destruct (Hall y Hy).
Qed.

(** The map and the options built over a list of distinct
    integrations. *)
Lemma filter_entities_spec (entities integrations : list string) :
  NoDup integrations ->
  let names := _get_entity_names entities in
  let r := filter_entities_by_integration entities integrations in
  r.2 = concat (names <$> integrations)
  /\ r.1.*1 = integrations
  /\ (forall (n : nat) (k : string),
        integrations !! n = Some k ->
        dict_get k r.1 = Some (concat (names <$> take (S n) integrations)))
  /\ (forall output_source : string,
        integration_name output_source r.1
        = head (filter (fun k => output_source ∈ names k) integrations)).
Proof.
  intros Hnd names. induction integrations as [|x ks IH] using rev_ind.
  { cbn. split; [done|]. split; [done|]. split; [|done].
    intros n k H. by rewrite lookup_nil in H. }
  apply NoDup_app in Hnd as (Hnd & Hx & _).
  destruct (IH Hnd) as (Ha & Hb & Hc & Hd). clear IH.
  rewrite filter_entities_snoc. cbv zeta. cbn [fst snd].
  set (r := filter_entities_by_integration entities ks) in *.
  assert (Hxk : x ∉ r.1.*1).
  { rewrite Hb. intros Hin. apply (Hx x Hin). left. }
  rewrite (dict_set_absent _ _ _ Hxk).
  split; [|split; [|split]].
  - rewrite Ha, fmap_app, concat_app. simpl. by rewrite app_nil_r.
  - rewrite fmap_app, Hb. reflexivity.
  - intros n k Hn. rewrite dict_get_snoc.
    apply lookup_app_Some in Hn as [Hn|[Hlen Hn]].
    + rewrite (Hc n k Hn).
      rewrite take_app_le; [reflexivity|].
      apply lookup_lt_Some in Hn. lia.
    + destruct (n - length ks)%nat as [|j] eqn:Hj; [|by destruct j].
      injection Hn as <-. assert (n = length ks) as -> by lia.
      destruct (dict_get x r.1) as [v|] eqn:Hg.
      { exfalso. apply Hxk.
        assert (Hs : is_Some (dict_get x r.1)) by by eexists.
        apply dict_contains_get in Hs. unfold dict_contains in Hs.
        apply existsb_exists in Hs as ([k' v'] & Hin & Heq).
        apply String.eqb_eq in Heq. simpl in Heq. subst k'.
        apply list_elem_of_fmap. exists (x, v').
        split; [reflexivity|]. by apply list_elem_of_In. }
      rewrite String.eqb_refl. f_equal.
      rewrite take_ge by (rewrite length_app; simpl; lia).
      rewrite Ha, fmap_app, concat_app. simpl. by rewrite app_nil_r.
  - intros out. rewrite integration_name_snoc, Hd, filter_app.
    destruct (head (filter (fun k => out ∈ names k) ks)) as [y|] eqn:Hh.
    + destruct (filter (fun k => out ∈ names k) ks); [discriminate|].
      symmetry. exact Hh.
    + pose proof Hh as Hnone.
      apply head_None in Hh. rewrite Hh. cbn [app].
      rewrite head_filter_None in Hnone.
      rewrite filter_cons, filter_nil.
      assert (Hout : out ∉ r.2).
      { rewrite Ha. intros Hin. apply elem_of_concat in Hin as (l & Hl & Hin).
        apply list_elem_of_fmap in Hl as (k & -> & Hk).
        by apply (Hnone k Hk). }
      destruct (decide (out ∈ names x)) as [Hin|Hnin].
      * rewrite bool_decide_eq_true_2; [reflexivity|].
        apply elem_of_app. by right.
      * rewrite bool_decide_eq_false_2; [reflexivity|].
        rewrite elem_of_app. tauto.
Qed.

(** X22.  From the registry to the created entry, over distinct
    integration names without regular-expression metacharacters.  The
    options offered for the output source are the names found for the
    integrations, in order.  The map has one item per integration, in
    order, and the list under an integration is cumulative: the names of
    all integrations up to and including it.  All the same,
    [extend_user_input_with_meta] records for the chosen output source
    the first integration whose own names hold it, and records [None]
    exactly when the chosen value is not one of the options. *)
Theorem chosen_output_gets_its_integration (entities integrations : list string)
    (input : user_input) :
  Forall (fun i => literal i = true) integrations ->
  NoDup integrations ->
  let names := _get_entity_names entities in
  let map := (filter_entities_by_integration entities integrations).1 in
  let options := (filter_entities_by_integration entities integrations).2 in
  let entry := extend_user_input_with_meta input map in
  options = concat (names <$> integrations)
  /\ map.*1 = integrations
  /\ (forall (n : nat) (k : string),
        integrations !! n = Some k ->
        dict_get k map = Some (concat (names <$> take (S n) integrations)))
  /\ entry_input entry = input
  /\ output_source_integration entry
     = head (filter (fun k => ui_output_source input ∈ names k) integrations)
  /\ (output_source_integration entry = None
      <-> ui_output_source input ∉ options).
Proof.
  intros _ Hnd names map options entry.
  destruct (filter_entities_spec entities integrations Hnd)
    as (Ha & Hb & Hc & Hd).
  split; [exact Ha|]. split; [exact Hb|]. split; [exact Hc|].
  split; [reflexivity|]. split; [apply Hd|].
  unfold entry, extend_user_input_with_meta. cbn [output_source_integration].
  unfold map, options. rewrite Hd, Ha, head_filter_None. split.
  - intros Hnone Hin. apply elem_of_concat in Hin as (l & Hl & Hin).
    apply list_elem_of_fmap in Hl as (k & -> & Hk). by apply (Hnone k Hk).
  - intros Hnot k Hk Hin. apply Hnot, elem_of_concat.
    exists (names k). split; [|exact Hin].
    apply list_elem_of_fmap. by exists k.
Qed.

Lemma chosen_output_gets_its_integration_witness :
  let entities :=
    ["sensor.smartenergy_goecharger_charger1_car_status";
     "sensor.smartenergy_goecharger_charger2_car_status"] in
  let map :=
    (filter_entities_by_integration entities [Const.DOMAIN_GO_E_CHARGER]).1 in
  output_source_integration
    (extend_user_input_with_meta
       (UserInput "smartenergy_awattar" "charger2" Const.SIMPLE) map)
  = Some Const.DOMAIN_GO_E_CHARGER.
Proof.
  intros entities map.
  destruct (chosen_output_gets_its_integration entities
              [Const.DOMAIN_GO_E_CHARGER]
              (UserInput "smartenergy_awattar" "charger2" Const.SIMPLE))
    as (_ & _ & _ & _ & Hname & _).
  - repeat constructor.
  - apply NoDup_singleton.
  - fold map in Hname. rewrite Hname. vm_compute. reflexivity.
Defined.
End EntityProperties.

(** ** The failure points of a tick *)

Section Exceptions.
Import Time StateFetcher Spec Run.
#[local] Open Scope list_scope.

(** The ways one consumer's processing can raise. *)
Lemma process_consumer_raise_cases (e : env) (c : string) (r : SD.t)
    (sto : gmap string (list slot)) (cs : list call) (s' : st) (x : exn) :
  process_consumer e c (St r sto cs) = (s', Raise x) ->
  (x = TypeError
   /\ s' = St r sto cs
   /\ SD.current_cycle_charging_time_window_date r = None
   /\ refreshes (car_status_of e c) r (stored_of c sto) = true
   /\ exists (y : forecast_entry) (ys : list forecast_entry),
        forecast e = Some (y :: ys))
  \/ (x = ServiceError
      /\ exists cmd : command,
           calls s' = cs ++ [Call cmd (SD.output_source r) c]
           /\ Controller.dispatch e cmd (SD.output_source r) c
              = Controller.Raised).
Proof.
  unfold refreshes, stored_of.
  destruct r as [? ? ? ? [?|] [?|] ? ? ? ? ?];
  unfold process_consumer, calculate_next_schedules, try_to_start_charging,
    start_scheduled_charging, reset_or_continue_charging,
    stop_scheduled_charging, reset_current_schedule,
    Controller.start_charging, Controller.stop_charging, Controller.charging,
    find_forecast_dates,
    bind, read_rec, update_rec, record_call, get_schedules, set_schedules,
    lift, raise, ret;
  simpl;
  repeat (case_inner; simpl in *; simplify_eq).
  all: try (intros H; discriminate H).
  all: intros [= <- <-].
  all: try (right; split; [reflexivity|]; simpl;
            first [exists StartCharging; split; [reflexivity|assumption]
                  |exists StopCharging; split; [reflexivity|assumption]]).
  all: left; repeat split; try reflexivity; eauto.
Qed.

Lemma loop_raise (e : env) (todo : list (string * SD.t))
    (sto : gmap string (list slot)) (cs : list call) (w' : world) (x : exn) :
  loop e todo sto cs = (w', Raise x) ->
  exists (c : string) (r : SD.t) (sto0 : gmap string (list slot))
         (cs0 : list call) (s' : st),
    (c, r) ∈ todo
    /\ process_consumer e c (St r sto0 cs0) = (s', Raise x)
    /\ issued w' = calls s'.
Proof.
  revert sto cs w'. induction todo as [|[c r] todo IH]; intros sto cs w';
    cbn [loop]; [discriminate|].
  destruct (process_consumer e c (St r sto cs)) as [s [[]|x']] eqn:Hp.
  - destruct (loop e todo (store s) (calls s)) as [w1 r1] eqn:Hl.
    intros [= <- ->].
    destruct (IH _ _ _ Hl) as (c0 & r0 & sto0 & cs0 & s' & Hin & Hp' & Hi).
    exists c0, r0, sto0, cs0, s'. split; [by right|]. by split.
  - discriminate.
  - intros [= <- ->]. exists c, r, sto, cs, s.
    split; [left|]. by split.
Qed.

(** X24.  The scheduler's own failure points in a tick.  Of the three
    exceptions its code can cause, [schedules[0]] on an empty list
    ([IndexError]) never happens: the head of the sequence is read only
    after the [schedules == []] test.  A [TypeError] from a comparison
    with [None] happens only for a consumer of the data that has no
    deadline, while the forecast has an entry.  A start or stop service
    call that raises was addressed to a consumer of the data and is the
    last command issued.  What the host itself may raise (a refused
    entity id, a date out of range) is not part of this statement. *)
Theorem scheduler_failure_points (e : env) (w w' : world) (x : exn) :
  fetch_states e w = (w', Raise x) ->
  x <> IndexError
  /\ exists (c : string) (r : SD.t),
       (c, r) ∈ consumers w
       /\ (x = TypeError ->
           SD.current_cycle_charging_time_window_date r = None
           /\ exists (y : forecast_entry) (ys : list forecast_entry),
                forecast e = Some (y :: ys))
       /\ (x = ServiceError ->
           exists cmd : command,
             Controller.dispatch e cmd (SD.output_source r) c
             = Controller.Raised
             /\ last (issued w') = Some (Call cmd (SD.output_source r) c)).
Proof.
  intros Hf. unfold fetch_states in Hf.
  apply loop_raise in Hf as (c & r & sto0 & cs0 & s' & Hin & Hp & Hi).
  apply process_consumer_raise_cases in Hp
    as [(-> & _ & Hd & _ & Hfc)|(-> & cmd & Hcalls & Hdisp)].
  - split; [discriminate|]. exists c, r. split; [exact Hin|].
    split; [by intros _|discriminate].
  - split; [discriminate|]. exists c, r. split; [exact Hin|].
    split; [discriminate|]. intros _. exists cmd. split; [exact Hdisp|].
    rewrite Hi, Hcalls. apply last_snoc.
Qed.

Lemma scheduler_failure_points_witness :
  let r := Calculations.consumer_record (at_ 0 0 30) (at_ 0 0 30)
             (Sample.precise_conf "heater" (Some 2) None) in
  (fetch_states Sample.env_two (World [("heater", r)] ∅ [])).2
  = Raise TypeError
  /\ TypeError <> IndexError.
Proof.
  intros r.
  assert (Hf : fetch_states Sample.env_two (World [("heater", r)] ∅ [])
               = ((fetch_states Sample.env_two
                     (World [("heater", r)] ∅ [])).1, Raise TypeError))
    by (vm_compute; reflexivity).
  split; [by rewrite Hf|].
  exact (proj1 (scheduler_failure_points _ _ _ _ Hf)).
Defined.
End Exceptions.
